(** * Multi-agent task solver: the orchestrator, verified

    A shallow embedding of [app/orchestrator.py] (with the parts of
    [app/models.py] and [app/agents.py] it relies on) and of the two
    run endpoints of [app/main.py], and the proofs of the properties of
    graph validation, reference resolution, per-node retry, layer
    scheduling and what a run records and returns.

    Conventions.
    - A Python [dict] is an insertion-ordered association list with
      [dict_get] / [dict_set]; a [str] is a [string] whose characters
      are the code points below 256.
    - A coroutine is the list of the events it performs in program order;
      the event loop is a state machine driven by an explicit schedule.
    - Library calls (networkx, tenacity, asyncio, [re], [str]) are
      modelled from their documented behaviour, each next to the call
      site that uses it. *)

From Stdlib Require Import ZArith QArith Qminmax Qpower Lia Lqa String Ascii List DecimalString ListDec.
From stdpp Require Import base list strings.

Local Open Scope string_scope.
Local Open Scope list_scope.
Local Open Scope nat_scope.
Set Warnings "-register-all".

(** ** Python values and dictionaries *)

Section Dict.
Context {A : Type}.

(** [d.get(k)] *)
Fixpoint dict_get (k : string) (d : list (string * A)) : option A :=
  match d with
  | [] => None
  | (k', v) :: d' => if String.eqb k k' then Some v else dict_get k d'
  end.

(** [k in d] *)
Definition dict_mem (k : string) (d : list (string * A)) : bool :=
  match dict_get k d with Some _ => true | None => false end.

(** [d[k] = v]: an existing key keeps its position, a new one goes last. *)
Fixpoint dict_set (k : string) (v : A) (d : list (string * A)) : list (string * A) :=
  match d with
  | [] => [(k, v)]
  | (k', v') :: d' =>
      if String.eqb k k' then (k', v) :: d' else (k', v') :: dict_set k v d'
  end.

Definition dict_keys (d : list (string * A)) : list string := map fst d.
End Dict.

(** JSON-shaped Python objects.  [VOther] stands for any object outside
    this fragment (a float, for one), carried with the text that [str]
    and [repr] give for it. *)
Inductive value : Type :=
| VNone
| VBool (b : bool)
| VInt (z : Z)
| VStr (s : string)
| VList (l : list value)
| VDict (d : list (string * value))
| VOther (text : string).

Abbreviation dict := (list (string * value)).

(** Exceptions the orchestrator can see.  [OtherError] is any further
    subclass of [Exception] a step raises. *)
Inductive exn : Type :=
| ValueError (msg : string)
| KeyError (key : string)
| TypeError (msg : string)
| AttributeError (msg : string)
| UnboundLocalError (msg : string)
| TimeoutError
| OtherError (cls msg : string).

(** ** [str] and [repr] *)

Definition hex_digit (n : nat) : ascii :=
  ascii_of_nat (if (n <? 10)%nat then 48 + n else 87 + n).

Definition hex_escape (c : ascii) : string :=
  let n := nat_of_ascii c in
  String "\" (String "x" (String (hex_digit (n / 16)) (String (hex_digit (n mod 16)) ""))).

Definition printable (c : ascii) : bool :=
  let n := nat_of_ascii c in
  ((32 <=? n)%nat && (n <? 127)%nat) || ((161 <=? n)%nat && negb (n =? 173)%nat).

Fixpoint contains_char (c : ascii) (s : string) : bool :=
  match s with
  | EmptyString => false
  | String c' s' => Ascii.eqb c c' || contains_char c s'
  end.

Definition squote : ascii := ascii_of_nat 39.
Definition dquote : ascii := ascii_of_nat 34.

Fixpoint escape_chars (quote : ascii) (s : string) : string :=
  match s with
  | EmptyString => EmptyString
  | String c s' =>
      let rest := escape_chars quote s' in
      if Ascii.eqb c quote || Ascii.eqb c "\"%char then String "\" (String c rest)
      else if Ascii.eqb c (ascii_of_nat 9) then String "\" (String "t" rest)
      else if Ascii.eqb c (ascii_of_nat 10) then String "\" (String "n" rest)
      else if Ascii.eqb c (ascii_of_nat 13) then String "\" (String "r" rest)
      else if printable c then String c rest
      else hex_escape c +:+ rest
  end.

(** [repr] of a [str]: single quotes, unless the text has a single quote
    and no double quote. *)
Definition repr_str (s : string) : string :=
  let quote := if contains_char squote s && negb (contains_char dquote s)
               then dquote else squote in
  String quote (escape_chars quote s) +:+ String quote "".

Definition repr_int (z : Z) : string := NilZero.string_of_int (Z.to_int z).

Fixpoint py_repr (v : value) : string :=
  match v with
  | VNone => "None"
  | VBool true => "True"
  | VBool false => "False"
  | VInt z => repr_int z
  | VStr s => repr_str s
  | VList l => "[" +:+ String.concat ", " (map py_repr l) +:+ "]"
  | VDict d =>
      "{" +:+ String.concat ", "
                (map (fun kv => match kv with
                                | (k, x) => repr_str k +:+ ": " +:+ py_repr x
                                end) d) +:+ "}"
  | VOther text => text
  end.

(** [str(v)]: a [str] is its own text, everything else prints as [repr]. *)
Definition py_str (v : value) : string :=
  match v with
  | VStr s => s
  | _ => py_repr v
  end.


(** ** Data model ([app/models.py]) *)

Record ToolConfig : Type := { tool_name : string; config : dict }.

Record AgentConfig : Type :=
  { agent_name : string; params : dict; tools : list ToolConfig }.

Record NodeSpec : Type :=
  { node_id : string;
    agent : AgentConfig;
    inputs : dict;
    timeout_seconds : Z;
    max_retries : Z }.

Record EdgeSpec : Type := { source : string; target : string }.

Record GraphSpec : Type := { nodes : list NodeSpec; edges : list EdgeSpec }.

(** ** Reference resolution ([Orchestrator._resolve_inputs]) *)

(** The character class [[a-zA-Z0-9_-]]. *)
Definition ref_char (c : ascii) : bool :=
  let n := nat_of_ascii c in
  ((97 <=? n)%nat && (n <=? 122)%nat) || ((65 <=? n)%nat && (n <=? 90)%nat)
  || ((48 <=? n)%nat && (n <=? 57)%nat) || (n =? 95)%nat || (n =? 45)%nat.

(** The greedy [[a-zA-Z0-9_-]+]: the longest run of class characters at
    the start of [s], and what follows it.  The character after a group
    of [REF_RE] is a dot or a closing brace, neither in the class, so
    giving characters back never turns a failed match into a match. *)
Fixpoint span_ref (s : string) : string * string :=
  match s with
  | EmptyString => (EmptyString, EmptyString)
  | String c s' =>
      if ref_char c
      then let (run, rest) := span_ref s' in (String c run, rest)
      else (EmptyString, s)
  end.

(** One literal character of the pattern. *)
Definition eat (c : ascii) (s : string) : option string :=
  match s with
  | String c' s' => if Ascii.eqb c c' then Some s' else None
  | EmptyString => None
  end.

(** A group [([a-zA-Z0-9_-]+)]: at least one character. *)
Definition group (s : string) : option (string * string) :=
  match span_ref s with
  | (EmptyString, _) => None
  | (run, rest) => Some (run, rest)
  end.

(** [REF_RE.match] at the start of [s]: groups 1 and 2 and the text after
    the match. *)
Definition match_ref (s : string) : option (string * string * string) :=
  s0 ← eat "$" s;
  s1 ← eat "{" s0;
  '(nid, s2) ← group s1;
  s3 ← eat "." s2;
  '(key, s4) ← group s3;
  rest ← eat "}" s4;
  Some (nid, key, rest).

(** [REF_RE.sub(repl, s)] with a function [repl] of the two groups:
    leftmost matches, never overlapping, the text between them kept.  A
    step consumes at least one character, so [String.length s] steps
    reach the end. *)
Fixpoint re_sub_from (fuel : nat) (repl : string -> string -> string) (s : string) : string :=
  match s with
  | EmptyString => EmptyString
  | String c s' =>
      match fuel with
      | O => s
      | S fuel' =>
          match match_ref s with
          | Some (nid, key, rest) => repl nid key +:+ re_sub_from fuel' repl rest
          | None => String c (re_sub_from fuel' repl s')
          end
      end
  end.

Definition re_sub (repl : string -> string -> string) (s : string) : string :=
  re_sub_from (String.length s) repl s.

(** [o.get(key, default)]: only a [dict] has the method. *)
Definition py_get (o : value) (key : string) (default : value) : exn + value :=
  match o with
  | VDict d => inr (match dict_get key d with Some v => v | None => default end)
  | _ => inl (AttributeError "object has no attribute 'get'")
  end.

(** The inner [_rep(m)], on the two groups of the match. *)
Definition _rep (context : dict) (nid key : string) : string :=
  match dict_get nid context with
  | None => "<missing:" +:+ nid +:+ ">"
  | Some entry =>
      match py_get entry key (VStr ("<missing_key:" +:+ key +:+ ">")) with
      | inr v => py_str v
      | inl _ => "<badctx:" +:+ nid +:+ ">"
      end
  end.

Definition replace_refs (context : dict) (val : string) : string :=
  re_sub (_rep context) val.

Definition _resolve_inputs (node : NodeSpec) (context : dict) : dict :=
  fold_left
    (fun resolved kv =>
       match kv with
       | (k, VStr s) => dict_set k (VStr (replace_refs context s)) resolved
       | (k, v) => dict_set k v resolved
       end)
    (inputs node) [].

(** What [_resolve_inputs] stores for one input value. *)
Definition resolved_value (context : dict) (v : value) : value :=
  match v with
  | VStr s => VStr (replace_refs context s)
  | _ => v
  end.

(** *** The resolver in the specification's words *)

Fixpoint all_ref_chars (s : string) : bool :=
  match s with
  | EmptyString => true
  | String c s' => ref_char c && all_ref_chars s'
  end.

(** What [nodeId] and [key] range over: non-empty names of letters,
    digits, underscore and hyphen. *)
Definition is_ref_name (s : string) : bool :=
  match s with
  | EmptyString => false
  | _ => all_ref_chars s
  end.

Definition placeholder (nid key : string) : string :=
  "${" +:+ nid +:+ "." +:+ key +:+ "}".

Definition at_placeholder (s : string) : Prop :=
  exists nid key rest,
    is_ref_name nid = true /\ is_ref_name key = true /\
    s = placeholder nid key +:+ rest.

(** [substituted subst s out]: [out] is [s] with every placeholder
    replaced by [subst] of its two names and all other text kept. *)
Inductive substituted (subst : string -> string -> string) : string -> string -> Prop :=
| substituted_end :
    substituted subst EmptyString EmptyString
| substituted_ref nid key rest out :
    is_ref_name nid = true ->
    is_ref_name key = true ->
    substituted subst rest out ->
    substituted subst (placeholder nid key +:+ rest) (subst nid key +:+ out)
| substituted_lit c s out :
    ~ at_placeholder (String c s) ->
    substituted subst s out ->
    substituted subst (String c s) (String c out).


(** ** The execution graph ([Orchestrator._build_graph]) *)

(** An [nx.DiGraph] as the orchestrator fills it: the vertices in
    insertion order, the ["node"] attribute of the vertices that
    [add_node] set, and the edges. *)
Record DiGraph : Type :=
  { g_nodes : list string;
    g_attr : list (string * NodeSpec);
    g_edges : list (string * string) }.

Definition empty_graph : DiGraph :=
  {| g_nodes := []; g_attr := []; g_edges := [] |}.

Definition add_once {A} `{EqDecision A} (x : A) (l : list A) : list A :=
  if decide (x ∈ l) then l else l ++ [x].

(** [g.add_node(n.id, node=n)] *)
Definition add_node (g : DiGraph) (n : NodeSpec) : DiGraph :=
  {| g_nodes := add_once (node_id n) (g_nodes g);
     g_attr := dict_set (node_id n) n (g_attr g);
     g_edges := g_edges g |}.

(** [g.add_edge(e.source, e.target)]: an endpoint that is no vertex yet
    becomes one, without attributes. *)
Definition add_edge (g : DiGraph) (e : EdgeSpec) : DiGraph :=
  {| g_nodes := add_once (target e) (add_once (source e) (g_nodes g));
     g_attr := g_attr g;
     g_edges := add_once (source e, target e) (g_edges g) |}.

(** A vertex is blocked while one of its predecessors remains. *)
Definition blocked (es : list (string * string)) (remaining : list string)
    (v : string) : Prop :=
  Exists (fun u => (u, v) ∈ es) remaining.

#[global] Instance blocked_dec es remaining v : Decision (blocked es remaining v).
Proof. unfold blocked. apply _. Defined.

(** [nx.topological_generations]: take every vertex none of whose
    predecessors remains, remove them, repeat.  [None] is
    [NetworkXUnfeasible]: vertices remain and all of them are blocked.
    A round removes a vertex, so as many rounds as vertices suffice. *)
Fixpoint generations (fuel : nat) (es : list (string * string))
    (remaining : list string) : option (list (list string)) :=
  match remaining with
  | [] => Some []
  | _ :: _ =>
      match fuel with
      | O => None
      | S fuel' =>
          match filter (fun v => ~ blocked es remaining v) remaining with
          | [] => None
          | ready =>
              cons ready <$>
                generations fuel' es (filter (fun v => v ∉ ready) remaining)
          end
      end
  end.

Definition topological_generations (g : DiGraph) : option (list (list string)) :=
  generations (length (g_nodes g)) (g_edges g) (g_nodes g).

(** [nx.is_directed_acyclic_graph]: the topological sort goes through. *)
Definition is_directed_acyclic_graph (g : DiGraph) : bool :=
  match topological_generations g with Some _ => true | None => false end.

Definition _build_graph (spec : GraphSpec) : exn + DiGraph :=
  let g := fold_left add_node (nodes spec) empty_graph in
  let g := fold_left add_edge (edges spec) g in
  if is_directed_acyclic_graph g then inr g
  else inl (ValueError "Execution graph must be a DAG").

(** The graph before the acyclicity test. *)
Definition built (spec : GraphSpec) : DiGraph :=
  fold_left add_edge (edges spec) (fold_left add_node (nodes spec) empty_graph).

(** *** Cycles, in the specification's words *)

Definition spec_edges (spec : GraphSpec) : list (string * string) :=
  map (fun e => (source e, target e)) (edges spec).

(** A walk of at least one edge. *)
Inductive path (es : list (string * string)) : string -> string -> Prop :=
| path_edge u v : (u, v) ∈ es -> path es u v
| path_step u v w : (u, v) ∈ es -> path es v w -> path es u w.

Definition cyclic (es : list (string * string)) : Prop :=
  exists v, path es v v.

(** An edge whose source or target is the id of no node. *)
Definition dangling (spec : GraphSpec) (e : EdgeSpec) : Prop :=
  source e ∉ map node_id (nodes spec) \/ target e ∉ map node_id (nodes spec).

(** A list of vertices each joined to the next by an edge. *)
Fixpoint walk (es : list (string * string)) (l : list string) : Prop :=
  match l with
  | [] => True
  | x :: l' =>
      match l' with
      | [] => True
      | y :: _ => (x, y) ∈ es /\ walk es l'
      end
  end.

(** ** Agents ([app/agents.py]) *)

Definition AGENT_REGISTRY : list string := ["echo"; "sum"; "http_get"].
Definition TOOL_REGISTRY : list string := ["data_fetcher"; "chart_generator"].

(** What one awaited [agent.run] on the keyword arguments [inputs] under the timeout gives. *)
Inductive attempt_result : Type :=
| Returned (result : value)
| Raised (e : exn).

(** The environment: the outcome of a step whose body leaves this
    fragment (network access, arithmetic on other objects), by node,
    keyword arguments and attempt number. *)
Definition world : Type := NodeSpec -> dict -> nat -> attempt_result.

(** Binding [**kwargs] to the parameters of a bound method [run]: the
    first keyword that names [self] or (without a [**] parameter) no
    parameter at all is a [TypeError], worded as CPython 3.11 does. *)
Fixpoint bind_kwargs (qualname : string) (named : list string) (var_kw : bool)
    (kwargs : dict) : option exn :=
  match kwargs with
  | [] => None
  | (k, _) :: rest =>
      if String.eqb k "self"
      then Some (TypeError (qualname +:+ "() got multiple values for argument 'self'"))
      else if bool_decide (k ∈ named) || var_kw
      then bind_kwargs qualname named var_kw rest
      else Some (TypeError (qualname +:+ "() got an unexpected keyword argument '"
                              +:+ k +:+ "'"))
  end.

(** Truth value of an object, where this fragment knows it. *)
Definition truthy (v : value) : option bool :=
  match v with
  | VNone => Some false
  | VBool b => Some b
  | VInt z => Some (negb (Z.eqb z 0))
  | VStr s => Some (negb (String.eqb s ""))
  | VList l => Some (match l with [] => false | _ => true end)
  | VDict d => Some (match d with [] => false | _ => true end)
  | VOther _ => None
  end.

(** [sum(numbers)] on a list of [int]s. *)
Fixpoint sum_ints (l : list value) : option Z :=
  match l with
  | [] => Some 0%Z
  | VInt z :: l' => Z.add z <$> sum_ints l'
  | _ => None
  end.

(** [EchoAgent.run], any keyword accepted *)
Definition EchoAgent_run (node : NodeSpec) (kwargs : dict) : attempt_result :=
  match bind_kwargs "EchoAgent.run" [] true kwargs with
  | Some e => Raised e
  | None => Returned (VDict [("echo", VDict kwargs); ("params", VDict (params (agent node)))])
  end.

(** [SumAgent.run(numbers=None)] *)
Definition SumAgent_run (w : world) (node : NodeSpec) (kwargs : dict) (attempt : nat)
    : attempt_result :=
  match bind_kwargs "SumAgent.run" ["numbers"] false kwargs with
  | Some e => Raised e
  | None =>
      let numbers := match dict_get "numbers" kwargs with Some v => v | None => VNone end in
      match truthy numbers, numbers with
      | Some false, _ => Returned (VDict [("error", VStr "no numbers provided")])
      | Some true, VList l =>
          match sum_ints l with
          | Some total =>
              Returned (VDict [("sum", VInt total); ("params", VDict (params (agent node)))])
          | None => w node kwargs attempt
          end
      | _, _ => w node kwargs attempt
      end
  end.

(** [HttpGetAgent.run(url)]: without a [data_fetcher] among its tools it
    answers at once; the fetch itself is the environment's. *)
Definition HttpGetAgent_run (w : world) (node : NodeSpec) (kwargs : dict) (attempt : nat)
    : attempt_result :=
  match bind_kwargs "HttpGetAgent.run" ["url"] false kwargs with
  | Some e => Raised e
  | None =>
      if negb (dict_mem "url" kwargs)
      then Raised (TypeError "HttpGetAgent.run() missing 1 required positional argument: 'url'")
      else if bool_decide ("data_fetcher" ∈ map tool_name (tools (agent node)))
      then w node kwargs attempt
      else Returned (VDict [("error", VStr "data_fetcher tool not configured")])
  end.

(** Dispatch on the registered class. *)
Definition agent_run (w : world) (node : NodeSpec) (kwargs : dict) (attempt : nat)
    : attempt_result :=
  let name := agent_name (agent node) in
  if String.eqb name "echo" then EchoAgent_run node kwargs
  else if String.eqb name "sum" then SumAgent_run w node kwargs attempt
  else if String.eqb name "http_get" then HttpGetAgent_run w node kwargs attempt
  else w node kwargs attempt.

(** ** One node ([Orchestrator._run_node]) *)

(** What a coroutine does that others can observe.  [EDone] is the end
    of a node's task, [EWrite] a store into the run context. *)
Inductive event : Type :=
| EAcquire (nid : string)
| EInvoke (nid : string) (attempt : nat)
| ESleep (nid : string) (seconds : Q)
| ERelease (nid : string)
| EDone (nid : string)
| EWrite (key : string).

Definition pow2 (n : nat) : Z := Z.pow 2 (Z.of_nat n).

(** tenacity's [wait_exponential(multiplier=0.5, min=0.5, max=4)] after
    attempt number [attempt]:
    [max(max(0, min), min(multiplier * 2 ** (attempt - 1), max))], and
    [max] when the product overflows a float. *)
Definition wait_exponential (attempt : nat) : Q :=
  let exp := pow2 (attempt - 1) in
  if (pow2 1024 <=? exp)%Z then 4
  else Qmax (Qmax 0 (1 # 2)) (Qmin ((1 # 2) * inject_Z exp) 4).

(** tenacity's [stop_after_attempt(max_attempt_number)]. *)
Definition stop_after_attempt (max_attempt_number : Z) (attempt : nat) : bool :=
  (max_attempt_number <=? Z.of_nat attempt)%Z.

(** How many further attempts [stop_after_attempt] allows after attempt
    number [attempt]. *)
Definition attempts_left (max_attempt_number : Z) (attempt : nat) : nat :=
  Z.to_nat (max_attempt_number - Z.of_nat attempt).

(** The [AsyncRetrying] loop with [retry_if_exception_type(Exception)]
    and [reraise=True], from attempt number [attempt] on, [left] being
    [attempts_left] of it: stop at the first result, or re-raise the
    last exception once no attempt is left, sleeping between attempts. *)
Fixpoint retrying (left : nat) (invoke : nat -> attempt_result) (nid : string)
    (attempt : nat) : list event * (exn + value) :=
  match invoke attempt with
  | Returned result => ([EInvoke nid attempt], inr result)
  | Raised e =>
      match left with
      | O => ([EInvoke nid attempt], inl e)
      | S left' =>
          let (evs, r) := retrying left' invoke nid (S attempt) in
          (EInvoke nid attempt :: ESleep nid (wait_exponential attempt) :: evs, r)
      end
  end.

(** The first tool of the node that [TOOL_REGISTRY] does not know. *)
Definition unknown_tool (node : NodeSpec) : option string :=
  head (filter (fun t => t ∉ TOOL_REGISTRY) (map tool_name (tools (agent node)))).

(** The events of the coroutine in program order, and what it returns
    or raises. *)
Definition _run_node (w : world) (node : NodeSpec) (context : dict)
    : list event * (exn + string * value) :=
  let kwargs := _resolve_inputs node context in
  if bool_decide (agent_name (agent node) ∈ AGENT_REGISTRY) then
    match unknown_tool node with
    | Some t => ([], inl (ValueError ("Unknown tool: " +:+ t)))
    | None =>
        let (evs, r) :=
          retrying (attempts_left (max_retries node) 1)
                   (agent_run w node kwargs) (node_id node) 1 in
        (EAcquire (node_id node) :: evs ++ [ERelease (node_id node)],
         match r with
         | inr result => inr (node_id node, result)
         | inl e => inl e
         end)
    end
  else ([], inl (ValueError ("Unknown agent: " +:+ agent_name (agent node)))).

(** ** The run ([Orchestrator.run_graph]) *)

Definition exn_str (e : exn) : string :=
  match e with
  | ValueError msg | TypeError msg | AttributeError msg
  | UnboundLocalError msg | OtherError _ msg => msg
  | KeyError key => repr_str key
  | TimeoutError => ""
  end.

(** [{"error": f"node failed after retries: {e}"}] *)
Definition error_map (e : exn) : value :=
  VDict [("error", VStr ("node failed after retries: " +:+ exn_str e))].

(** [asyncio.Semaphore(concurrency)] in [Orchestrator.__init__]: the
    number of free slots. *)
Definition Orchestrator_init (concurrency : Z) : exn + nat :=
  if (concurrency <? 0)%Z
  then inl (ValueError "Semaphore initial value must be >= 0")
  else inr (Z.to_nat concurrency).

(** A task of the current layer: the events its coroutine still has to
    perform, and its result. *)
Record task : Type :=
  { task_id : string;
    todo : list event;
    outcome : exn + string * value }.

Inductive status : Type :=
| Running
| Finished (result : dict)
| Failed (e : exn).

(** The state of one run: the locals [context] and [nid] of
    [run_graph], the semaphore, the tasks of the layer being awaited,
    the futures [as_completed] has ready, the layers still to come, and
    what happened so far. *)
Record state : Type :=
  { st_context : dict;
    st_nid : option string;
    st_sem : nat;
    st_tasks : list task;
    st_done : list (exn + string * value);
    st_layers : list (list string);
    st_trace : list event;
    st_status : status }.

(** [[self._run_node(g.nodes[n]["node"], context) for n in layer]]: a
    vertex without the attribute is a [KeyError], before any task of
    the layer exists.  A task's first step, which resolves its inputs,
    runs before [run_graph] is resumed, hence against this [context]. *)
Fixpoint start_layer (w : world) (g : DiGraph) (context : dict) (layer : list string)
    : exn + list task :=
  match layer with
  | [] => inr []
  | n :: layer' =>
      match dict_get n (g_attr g) with
      | None => inl (KeyError "node")
      | Some node =>
          match start_layer w g context layer' with
          | inl e => inl e
          | inr ts =>
              let (evs, r) := _run_node w node context in
              inr ({| task_id := n; todo := evs; outcome := r |} :: ts)
          end
      end
  end.

(** Reading the local [nid] before any assignment to it. *)
Definition unbound_nid : exn :=
  UnboundLocalError
    "cannot access local variable 'nid' where it is not associated with a value".

(** One step of [run_graph] itself: take the next completed future, or
    go on to the next layer once the current one is consumed, or
    return. *)
Definition main_step (w : world) (g : DiGraph) (s : state) : state :=
  match st_done s with
  | inr (n, res) :: ready =>
      {| st_context := dict_set n res (st_context s);
         st_nid := Some n;
         st_sem := st_sem s; st_tasks := st_tasks s; st_done := ready;
         st_layers := st_layers s;
         st_trace := st_trace s ++ [EWrite n];
         st_status := Running |}
  | inl e :: ready =>
      match st_nid s with
      | Some n =>
          {| st_context := dict_set n (error_map e) (st_context s);
             st_nid := Some n;
             st_sem := st_sem s; st_tasks := st_tasks s; st_done := ready;
             st_layers := st_layers s;
             st_trace := st_trace s ++ [EWrite n];
             st_status := Running |}
      | None =>
          {| st_context := st_context s; st_nid := None;
             st_sem := st_sem s; st_tasks := st_tasks s; st_done := ready;
             st_layers := st_layers s; st_trace := st_trace s;
             st_status := Failed unbound_nid |}
      end
  | [] =>
      match st_tasks s, st_layers s with
      | _ :: _, _ => s
      | [], [] =>
          {| st_context := st_context s; st_nid := st_nid s;
             st_sem := st_sem s; st_tasks := []; st_done := [];
             st_layers := []; st_trace := st_trace s;
             st_status := Finished (st_context s) |}
      | [], layer :: layers =>
          match start_layer w g (st_context s) layer with
          | inl e =>
              {| st_context := st_context s; st_nid := st_nid s;
                 st_sem := st_sem s; st_tasks := []; st_done := [];
                 st_layers := layers; st_trace := st_trace s;
                 st_status := Failed e |}
          | inr ts =>
              {| st_context := st_context s; st_nid := st_nid s;
                 st_sem := st_sem s; st_tasks := ts; st_done := [];
                 st_layers := layers; st_trace := st_trace s;
                 st_status := Running |}
          end
      end
  end.

(** The task of [n] with [rest] left to do. *)
Definition update_task (n : string) (rest : list event) (t : task) : task :=
  if decide (task_id t = n)
  then {| task_id := n; todo := rest; outcome := outcome t |}
  else t.

(** One step of the task of node [n]: its next event, the semaphore
    blocking an [EAcquire] while no slot is free; after its last event
    the task is done and its future is ready. *)
Definition task_step (n : string) (s : state) : state :=
  match filter (fun t => task_id t = n) (st_tasks s) with
  | [] => s
  | t :: _ =>
      let others := filter (fun t => task_id t <> n) (st_tasks s) in
      let advance (sem : nat) (e : event) (rest : list event) :=
        {| st_context := st_context s; st_nid := st_nid s;
           st_sem := sem;
           st_tasks := map (update_task n rest) (st_tasks s);
           st_done := st_done s; st_layers := st_layers s;
           st_trace := st_trace s ++ [e];
           st_status := Running |} in
      match todo t with
      | [] =>
          {| st_context := st_context s; st_nid := st_nid s;
             st_sem := st_sem s; st_tasks := others;
             st_done := st_done s ++ [outcome t];
             st_layers := st_layers s;
             st_trace := st_trace s ++ [EDone n];
             st_status := Running |}
      | EAcquire m :: rest =>
          match st_sem s with
          | O => s
          | S sem => advance sem (EAcquire m) rest
          end
      | ERelease m :: rest => advance (S (st_sem s)) (ERelease m) rest
      | e :: rest => advance (st_sem s) e rest
      end
  end.

(** What the event loop runs next. *)
Inductive choice : Type :=
| Main
| Task (n : string).

Definition step (w : world) (g : DiGraph) (s : state) (c : choice) : state :=
  match st_status s with
  | Running =>
      match c with
      | Main => main_step w g s
      | Task n => task_step n s
      end
  | _ => s
  end.

Definition layers_of (g : DiGraph) : list (list string) :=
  match topological_generations g with Some ls => ls | None => [] end.

(** The state in which [run_graph] starts on a validated graph. *)
Definition initial (sem : nat) (g : DiGraph) : state :=
  {| st_context := []; st_nid := None; st_sem := sem; st_tasks := [];
     st_done := []; st_layers := layers_of g; st_trace := [];
     st_status := Running |}.

(** [run_graph] on an orchestrator with [sem] slots, under a schedule:
    the state the run has reached after these steps of the event loop. *)
Definition run_graph (w : world) (sem : nat) (spec : GraphSpec)
    (schedule : list choice) : state :=
  match _build_graph spec with
  | inl e =>
      {| st_context := []; st_nid := None; st_sem := sem; st_tasks := [];
         st_done := []; st_layers := []; st_trace := []; st_status := Failed e |}
  | inr g => fold_left (step w g) schedule (initial sem g)
  end.

(** *** The attempt sequence, in the specification's words *)

(** Attempts [a], [a+1], ..., [a+k] of a node, a backoff sleep after
    each of them but the last. *)
Fixpoint attempt_events (nid : string) (a k : nat) : list event :=
  match k with
  | O => [EInvoke nid a]
  | S k' =>
      EInvoke nid a :: ESleep nid (wait_exponential a) :: attempt_events nid (S a) k'
  end.

(** How often the step is invoked in a sequence of events. *)
Fixpoint invocations (evs : list event) : nat :=
  match evs with
  | [] => 0
  | EInvoke _ _ :: evs' => S (invocations evs')
  | _ :: evs' => invocations evs'
  end.

(** *** Scheduling properties, in the specification's words *)

(** The node whose task performs an event; a store into the context is
    [run_graph]'s own doing. *)
Definition event_node (e : event) : option string :=
  match e with
  | EAcquire n | EInvoke n _ | ESleep n _ | ERelease n | EDone n => Some n
  | EWrite _ => None
  end.

(** An event of the attempt sequence of [n]: an invocation or a backoff
    sleep. *)
Definition attempt_event (n : string) (e : event) : Prop :=
  (exists a, e = EInvoke n a) \/ (exists d, e = ESleep n d).

(** After the events [tr], node [n] holds a slot of the limiter. *)
Definition holds_slot (tr : list event) (n : string) : Prop :=
  EAcquire n ∈ tr /\ ERelease n ∉ tr.

(** The layer barrier: before any event of a node of layer [k+1], every
    node of layer [k] is done. *)
Definition barrier (layers : list (list string)) (tr : list event) : Prop :=
  forall k Lk Lk1 n m e pre post,
    layers !! k = Some Lk -> layers !! S k = Some Lk1 ->
    n ∈ Lk -> m ∈ Lk1 -> event_node e = Some m ->
    tr = pre ++ e :: post -> EDone n ∈ pre.

(** Every invocation and every backoff sleep of a node happens while
    the node holds its slot. *)
Definition windows (tr : list event) : Prop :=
  forall pre e post n,
    tr = pre ++ e :: post -> attempt_event n e -> holds_slot pre n.

(** At no moment do more than [sem] nodes hold a slot. *)
Definition bounded (sem : nat) (tr : list event) : Prop :=
  forall pre post ms,
    tr = pre ++ post -> NoDup ms ->
    (forall m, m ∈ ms -> holds_slot pre m) -> length ms <= sem.

(** *** Invariants of the run *)

(** Where the task of [n] stands, by what it still has to do: not yet
    at the limiter, inside its attempt sequence, or through. *)
Inductive phase (tr : list event) (n : string) : list event -> Prop :=
| phase_waiting body :
    Forall (attempt_event n) body ->
    (forall e, e ∈ tr -> event_node e <> Some n) ->
    phase tr n (EAcquire n :: body ++ [ERelease n])
| phase_flight body :
    Forall (attempt_event n) body ->
    holds_slot tr n ->
    phase tr n (body ++ [ERelease n])
| phase_over :
    ~ holds_slot tr n ->
    phase tr n [].

Definition flying (todo : list event) : bool :=
  match todo with
  | [] => false
  | EAcquire _ :: _ => false
  | _ => true
  end.

Definition b2n (b : bool) : nat := if b then 1 else 0.

Fixpoint flying_count (ts : list task) : nat :=
  match ts with
  | [] => 0
  | t :: ts' => (if flying (todo t) then 1 else 0) + flying_count ts'
  end.

Definition run_invariant (layers : list (list string)) (sem : nat) (s : state) : Prop :=
  barrier layers (st_trace s) /\
  windows (st_trace s) /\
  bounded sem (st_trace s) /\
  (st_status s = Running ->
   exists c,
     st_layers s = drop c layers /\
     NoDup (map task_id (st_tasks s)) /\
     (forall t, t ∈ st_tasks s ->
        (exists c' cur, c = S c' /\ layers !! c' = Some cur /\ task_id t ∈ cur) /\
        phase (st_trace s) (task_id t) (todo t)) /\
     (forall e n, e ∈ st_trace s -> event_node e = Some n ->
        exists k Lk, k < c /\ layers !! k = Some Lk /\ n ∈ Lk) /\
     (forall k Lk n, S k < c -> layers !! k = Some Lk -> n ∈ Lk ->
        EDone n ∈ st_trace s) /\
     (forall c' cur n, c = S c' -> layers !! c' = Some cur -> n ∈ cur ->
        n ∈ map task_id (st_tasks s) \/ EDone n ∈ st_trace s) /\
     (forall m, holds_slot (st_trace s) m ->
        exists t, t ∈ st_tasks s /\ task_id t = m /\ flying (todo t) = true) /\
     flying_count (st_tasks s) + st_sem s = sem).

(** Every id under which the run has stored or is about to store a
    result satisfies [ok], and a finished run returns its context. *)
Definition records_only (ok : string -> Prop) (s : state) : Prop :=
  (forall k, k ∈ dict_keys (st_context s) -> ok k) /\
  (forall k, st_nid s = Some k -> ok k) /\
  (forall k v, inr (k, v) ∈ st_done s -> ok k) /\
  (forall t k v, t ∈ st_tasks s -> outcome t = inr (k, v) -> ok k) /\
  (forall result, st_status s = Finished result -> result = st_context s).

(** *** What one node does in a run *)

(** The events of node [n] in a trace, in order. *)
Definition events_of (n : string) (tr : list event) : list event :=
  filter (fun e => event_node e = Some n) tr.

(** [evs] is what the coroutine of the node stored under [n] does,
    against some context. *)
Definition script (w : world) (g : DiGraph) (n : string) (evs : list event) : Prop :=
  exists node context,
    dict_get n (g_attr g) = Some node /\ evs = (_run_node w node context).1.

(** A pending task has done a part of its script and has the rest to
    do; a node without a pending task has done nothing, or its whole
    script and is done. *)
Definition once_invariant (w : world) (g : DiGraph) (s : state) : Prop :=
  (forall t, t ∈ st_tasks s ->
     script w g (task_id t) (events_of (task_id t) (st_trace s) ++ todo t)) /\
  (forall n, n ∉ map task_id (st_tasks s) ->
     events_of n (st_trace s) = [] \/
     exists evs, script w g n evs /\ events_of n (st_trace s) = evs ++ [EDone n]).

(** [v] is what the node stored under [k] returned, against some
    context. *)
Definition own_result (w : world) (g : DiGraph) (k : string) (v : value) : Prop :=
  exists node context,
    dict_get k (g_attr g) = Some node /\ (_run_node w node context).2 = inr (k, v).

(** Every result the run has stored or is about to store satisfies
    [ok], and a finished run returns its context. *)
Definition entries_only (ok : string -> value -> Prop) (s : state) : Prop :=
  (forall k v, dict_get k (st_context s) = Some v -> ok k v) /\
  (forall k v, inr (k, v) ∈ st_done s -> ok k v) /\
  (forall t k v, t ∈ st_tasks s -> outcome t = inr (k, v) -> ok k v) /\
  (forall result, st_status s = Finished result -> result = st_context s).

(** ** Tools of an agent ([BaseAgent.get_tool]) *)

(** The first of the agent's tools with that name.  A tool object carries the name its class is registered
    under, which is the name of the [ToolConfig] it was built from. *)
Fixpoint get_tool (tools : list ToolConfig) (name : string) : option ToolConfig :=
  match tools with
  | [] => None
  | t :: rest => if String.eqb (tool_name t) name then Some t else get_tool rest name
  end.

(** ** The HTTP API ([app/main.py]) *)

Record RunRequest : Type := { graph : GraphSpec; concurrency : Z }.

(** [Literal["running", "succeeded", "failed"]] *)
Inductive run_status : Type := running | succeeded | failed.

Record RunResponse : Type :=
  { resp_run_id : string;
    resp_status : run_status;
    resp_result : option dict;
    resp_error : option string }.

(** An entry of [RUNS]: the dict with the keys ["status"], ["result"]
    and ["error"]. *)
Record run_entry : Type :=
  { entry_status : run_status;
    entry_result : option dict;
    entry_error : option string }.

Inductive http_error : Type :=
| HTTPException (status_code : Z) (detail : string).

Definition response_of (run_id : string) (entry : run_entry) : RunResponse :=
  {| resp_run_id := run_id;
     resp_status := entry_status entry;
     resp_result := entry_result entry;
     resp_error := entry_error entry |}.

(** [execute_graph], [fresh_id] being the id [uuid4] gives: the store
    [RUNS], and the response once [run_graph] has returned or raised.
    While the schedule has not brought the run to its end there is no
    response yet and the entry says ["running"]. *)
Definition execute_graph (w : world) (fresh_id : string) (req : RunRequest)
    (schedule : list choice) (RUNS : list (string * run_entry))
    : list (string * run_entry) * option RunResponse :=
  let RUNS :=
    dict_set fresh_id
      {| entry_status := running; entry_result := None; entry_error := None |} RUNS in
  let answer (entry : run_entry) :=
    (dict_set fresh_id entry RUNS, Some (response_of fresh_id entry)) in
  let fail (e : exn) :=
    answer {| entry_status := failed; entry_result := None;
              entry_error := Some (exn_str e) |} in
  match Orchestrator_init (concurrency req) with
  | inl e => fail e
  | inr sem =>
      match st_status (run_graph w sem (graph req) schedule) with
      | Running => (RUNS, None)
      | Finished result =>
          answer {| entry_status := succeeded; entry_result := Some result;
                    entry_error := None |}
      | Failed e => fail e
      end
  end.

Definition get_run (run_id : string) (RUNS : list (string * run_entry))
    : http_error + RunResponse :=
  match dict_get run_id RUNS with
  | None => inl (HTTPException 404 "run not found")
  | Some entry => inr (response_of run_id entry)
  end.

(** ** Runs in which no node fails *)

(** While no node fails: every pending task is going to return a
    result of its own node, every future that is ready and every entry
    of the context holds one, and the result of a node that is done is
    stored or about to be. *)
Definition success_invariant (w : world) (g : DiGraph) (s : state) : Prop :=
  (forall t, t ∈ st_tasks s ->
     exists v, outcome t = inr (task_id t, v) /\ own_result w g (task_id t) v) /\
  (forall out, out ∈ st_done s ->
     exists k v, out = inr (k, v) /\ own_result w g k v) /\
  (forall k v, dict_get k (st_context s) = Some v -> own_result w g k v) /\
  (forall n, EDone n ∈ st_trace s ->
     n ∈ dict_keys (st_context s) \/ exists v, inr (n, v) ∈ st_done s).

(** What of a state decides how the run goes on. *)
Definition view (s : state)
    : status * nat * list (list string) * list task * list (exn + string * value) * dict :=
  (st_status s, st_sem s, st_layers s, st_tasks s, st_done s, st_context s).

(** The events a task has to do when it starts: nothing, or its attempt
    sequence between taking and giving back its slot. *)
Definition whole_script (n : string) (todo : list event) : Prop :=
  todo = [] \/
  exists body, Forall (attempt_event n) body /\ todo = EAcquire n :: body ++ [ERelease n].

(** ** What a layer sees *)

(** Whatever the run has stored, is about to store or may still store
    under an id comes from a task of that id, and only once that task
    is done. *)
Definition done_invariant (s : state) : Prop :=
  (forall k, k ∈ dict_keys (st_context s) -> EDone k ∈ st_trace s) /\
  (forall k, st_nid s = Some k -> EDone k ∈ st_trace s) /\
  (forall k v, inr (k, v) ∈ st_done s -> EDone k ∈ st_trace s) /\
  (forall t k v, t ∈ st_tasks s -> outcome t = inr (k, v) -> k = task_id t).

(** ** Concrete inputs used by the examples *)

Definition demo_context : dict :=
  [("A", VDict [("x", VInt 5)]); ("B", VStr "oops")].

Definition demo_node : NodeSpec :=
  {| node_id := "C";
     agent := {| agent_name := "echo"; params := []; tools := [] |};
     inputs := [("y", VStr "${A.x} and ${A.z}, ${Z.v}, ${B.k}");
                ("n", VInt 3);
                ("l", VList [VStr "${A.x}"])];
     timeout_seconds := 20;
     max_retries := 2 |}.

(** An environment in which every step that leaves the fragment runs
    into its timeout. *)
Definition quiet_world : world := fun _ _ _ => Raised TimeoutError.

Definition plain_agent (name : string) : AgentConfig :=
  {| agent_name := name; params := []; tools := [] |}.

(** A [sum] node given a keyword [SumAgent.run] does not take: every
    attempt raises [TypeError]. *)
Definition failing_node (retries : Z) : NodeSpec :=
  {| node_id := "A"; agent := plain_agent "sum"; inputs := [("x", VInt 1)];
     timeout_seconds := 20; max_retries := retries |}.

Definition echo_node (id : string) : NodeSpec :=
  {| node_id := id; agent := plain_agent "echo"; inputs := [];
     timeout_seconds := 20; max_retries := 2 |}.

(** A node whose agent name is in no registry. *)
Definition unknown_node (id : string) : NodeSpec :=
  {| node_id := id; agent := plain_agent "nope"; inputs := [];
     timeout_seconds := 20; max_retries := 2 |}.

Definition edge (u v : string) : EdgeSpec := {| source := u; target := v |}.

(** A -> B and B -> A. *)
Definition cyclic_spec : GraphSpec :=
  {| nodes := [echo_node "A"; echo_node "B"];
     edges := [edge "A" "B"; edge "B" "A"] |}.

(** One node, and an edge to a node that does not exist. *)
Definition dangling_spec : GraphSpec :=
  {| nodes := [echo_node "A"]; edges := [edge "A" "Z"] |}.

(** Two echo nodes in two layers. *)
Definition two_layer_spec : GraphSpec :=
  {| nodes := [echo_node "A"; echo_node "B"]; edges := [edge "A" "B"] |}.

(** An echo node, and after it a node with an unknown agent. *)
Definition chain_spec : GraphSpec :=
  {| nodes := [echo_node "A"; unknown_node "B"]; edges := [edge "A" "B"] |}.

(** A single node with an unknown agent. *)
Definition lone_spec : GraphSpec :=
  {| nodes := [unknown_node "A"]; edges := [] |}.

(** A task with a registered agent takes four steps: acquire, invoke,
    release, done. *)
Definition run_task (n : string) : list choice := [Task n; Task n; Task n; Task n].

(** Start the layer, run the task of A, store its result, start the
    next layer, and so on to the end. *)
Definition two_layer_schedule : list choice :=
  [Main] ++ run_task "A" ++ [Main; Main] ++ run_task "B" ++ [Main; Main].

Definition chain_schedule : list choice :=
  [Main] ++ run_task "A" ++ [Main; Main; Task "B"; Main; Main].

Definition dangling_schedule : list choice :=
  [Main] ++ run_task "A" ++ [Main; Main].

Definition lone_schedule : list choice := [Main; Task "A"; Main].

(** Membership in a list that computes. *)
Ltac in_list :=
  vm_compute; repeat first [apply list_elem_of_here | apply list_elem_of_further].

(** The task of the node of [lone_spec], and the states its run goes
    through: before the layer, the task pending, its future ready, the
    run failed. *)
Definition lone_task : task :=
  {| task_id := "A"; todo := [];
     outcome := inl (ValueError "Unknown agent: nope") |}.

Definition lone_shape (s : state) : Prop :=
  st_context s = [] /\ st_nid s = None /\ invocations (st_trace s) = 0 /\
  ((st_status s = Running /\ st_tasks s = [] /\ st_done s = [] /\
    st_layers s = [["A"]]) \/
   (st_status s = Running /\ st_tasks s = [lone_task] /\ st_done s = [] /\
    st_layers s = []) \/
   (st_status s = Running /\ st_tasks s = [] /\
    st_done s = [inl (ValueError "Unknown agent: nope")] /\ st_layers s = []) \/
   st_status s = Failed unbound_nid).

(** A node none of whose inputs holds a dollar sign. *)
Definition literal_node : NodeSpec :=
  {| node_id := "C"; agent := plain_agent "echo";
     inputs := [("greeting", VStr "hello {A.x}"); ("n", VInt 3)];
     timeout_seconds := 20; max_retries := 2 |}.

(** A context whose stored text is itself a placeholder. *)
Definition nested_context : dict :=
  [("A", VDict [("x", VStr "${B.y}")]); ("B", VDict [("y", VInt 7)])].

(** Two nodes under one id. *)
Definition duplicate_spec : GraphSpec :=
  {| nodes := [echo_node "A"; unknown_node "A"]; edges := [] |}.



Definition cyclic_request : RunRequest := {| graph := cyclic_spec; concurrency := 4 |}.

(** The steps of [two_layer_schedule] up to the start of the second
    layer. *)
Definition first_layer_schedule : list choice := [Main] ++ run_task "A" ++ [Main].

(** * Proofs *)

(** ** Sanity checks of the embedding *)

Example py_str_examples :
  py_str (VInt 5) = "5" /\
  py_str (VStr "a b") = "a b" /\
  py_str (VDict [("x", VInt (-3)); ("it's", VList [VStr "q"; VNone])])
    = "{'x': -3, " +:+ String dquote "it's" +:+ String dquote ": ['q', None]}".
Proof. repeat split; reflexivity. Qed.

Example replace_refs_example :
  replace_refs [("A", VDict [("x", VInt 5)]); ("B", VStr "oops")]
               "y=${A.x}, ${A.z} ${Z.v}${B.k} ${A.x ${.x} $${A.x}}"
  = "y=5, <missing_key:z> <missing:Z><badctx:B> ${A.x ${.x} $5}".
Proof. reflexivity. Qed.

(** ** Strings and dictionaries *)

Lemma string_app_cons (x : ascii) (a b : string) :
  String x a +:+ b = String x (a +:+ b).
Proof. reflexivity. Qed.

Lemma string_app_nil (b : string) : EmptyString +:+ b = b.
Proof. reflexivity. Qed.

Lemma string_app_assoc (a b c : string) : (a +:+ b) +:+ c = a +:+ (b +:+ c).
Proof.
  induction a as [|x a IH]; [reflexivity|].
  rewrite !string_app_cons. f_equal. exact IH.
Qed.

Lemma string_app_length (a b : string) :
  String.length (a +:+ b) = String.length a + String.length b.
Proof.
  induction a as [|x a IH]; [reflexivity|].
  rewrite string_app_cons. simpl. f_equal. exact IH.
Qed.

Lemma dict_get_app {A} (k : string) (d1 d2 : list (string * A)) :
  dict_get k (d1 ++ d2) =
  match dict_get k d1 with Some v => Some v | None => dict_get k d2 end.
Proof.
  induction d1 as [|[k' v'] d1 IH]; simpl; [reflexivity|].
  destruct (String.eqb k k'); [reflexivity | exact IH].
Qed.

Lemma dict_get_None {A} (k : string) (d : list (string * A)) :
  dict_get k d = None <-> k ∉ dict_keys d.
Proof.
  induction d as [|[k' v'] d IH]; simpl.
  - split; [intros _; apply not_elem_of_nil | reflexivity].
  - rewrite not_elem_of_cons. destruct (String.eqb_spec k k') as [->|Hne].
    + split; [discriminate | intros [[] _]; reflexivity].
    + rewrite IH. tauto.
Qed.

Lemma dict_get_Some_keys {A} (k : string) (v : A) (d : list (string * A)) :
  dict_get k d = Some v -> k ∈ dict_keys d.
Proof.
  intros H. destruct (decide (k ∈ dict_keys d)) as [|Hn]; [assumption|].
  apply dict_get_None in Hn. congruence.
Qed.

Lemma dict_set_fresh {A} (k : string) (v : A) (d : list (string * A)) :
  k ∉ dict_keys d -> dict_set k v d = d ++ [(k, v)].
Proof.
  induction d as [|[k' v'] d IH]; simpl; [reflexivity|].
  rewrite not_elem_of_cons. intros [Hne Hd].
  destruct (String.eqb_spec k k'); [contradiction|]. now rewrite IH.
Qed.

Lemma dict_keys_set {A} (k : string) (v : A) (d : list (string * A)) :
  dict_keys (dict_set k v d) =
  if dict_mem k d then dict_keys d else dict_keys d ++ [k].
Proof.
  unfold dict_mem. induction d as [|[k' v'] d IH]; simpl; [reflexivity|].
  destruct (String.eqb_spec k k') as [->|Hne]; simpl; [reflexivity|].
  rewrite IH. now destruct (dict_get k d).
Qed.

Lemma dict_get_set {A} (k k' : string) (v : A) (d : list (string * A)) :
  dict_get k' (dict_set k v d) = if String.eqb k' k then Some v else dict_get k' d.
Proof.
  induction d as [|[k0 v0] d IH]; simpl.
  - now destruct (String.eqb k' k).
  - destruct (String.eqb_spec k k0) as [->|Hne]; simpl.
    + now destruct (String.eqb k' k0).
    + rewrite IH. destruct (String.eqb_spec k' k0) as [->|]; [|reflexivity].
      destruct (String.eqb_spec k0 k); [congruence | reflexivity].
Qed.

(** ** The pattern [REF_RE] *)

Lemma ref_char_dot : ref_char "." = false.
Proof. reflexivity. Qed.

Lemma ref_char_brace : ref_char "}" = false.
Proof. reflexivity. Qed.

Lemma span_ref_append (run rest : string) :
  all_ref_chars run = true ->
  (forall c r, rest = String c r -> ref_char c = false) ->
  span_ref (run +:+ rest) = (run, rest).
Proof.
  induction run as [|x run IH]; intros Hall Hrest.
  - rewrite string_app_nil. destruct rest as [|c r]; [reflexivity|].
    simpl. now rewrite (Hrest c r eq_refl).
  - rewrite string_app_cons. simpl in *.
    apply andb_prop in Hall as [Hx Hall]. now rewrite Hx, IH.
Qed.

Lemma span_ref_sound (s run rest : string) :
  span_ref s = (run, rest) ->
  s = run +:+ rest /\ all_ref_chars run = true /\
  (forall c r, rest = String c r -> ref_char c = false).
Proof.
  revert run rest. induction s as [|x s IH]; simpl; intros run rest H.
  - inversion H; subst. split; [reflexivity|]. split; [reflexivity | discriminate].
  - destruct (ref_char x) eqn:Hx.
    + destruct (span_ref s) as [run' rest'] eqn:Hs. inversion H; subst.
      destruct (IH run' rest eq_refl) as (-> & Hall & Hrest).
      split; [reflexivity|]. split; [simpl; now rewrite Hx, Hall | exact Hrest].
    + inversion H; subst. split; [reflexivity|]. split; [reflexivity|].
      intros c r [= <- <-]. exact Hx.
Qed.

Lemma eat_Some (c : ascii) (s s' : string) : eat c s = Some s' <-> s = String c s'.
Proof.
  destruct s as [|x s0]; simpl; [split; discriminate|].
  destruct (Ascii.eqb_spec c x) as [->|Hne]; split; intros H; inversion H; subst;
    [reflexivity | reflexivity | contradiction].
Qed.

Lemma group_Some (s run rest : string) :
  group s = Some (run, rest) <->
  is_ref_name run = true /\ s = run +:+ rest /\
  (forall c r, rest = String c r -> ref_char c = false).
Proof.
  unfold group. split.
  - destruct (span_ref s) as [run' rest'] eqn:Hs.
    destruct (span_ref_sound _ _ _ Hs) as (-> & Hall & Hrest).
    destruct run' as [|x run']; [discriminate|]. intros [= <- <-]. auto.
  - intros (Hname & -> & Hrest). destruct run as [|x run]; [discriminate|].
    rewrite span_ref_append by assumption. reflexivity.
Qed.

Lemma match_ref_complete (nid key rest : string) :
  is_ref_name nid = true -> is_ref_name key = true ->
  match_ref (placeholder nid key +:+ rest) = Some (nid, key, rest).
Proof.
  intros Hn Hk. unfold placeholder, match_ref.
  rewrite !string_app_assoc, !string_app_cons, !string_app_nil.
  assert (Hg1 : group (nid +:+ String "." (key +:+ String "}" rest))
                = Some (nid, String "." (key +:+ String "}" rest))).
  { apply group_Some. split; [assumption|]. split; [reflexivity|].
    now intros c r [= <- <-]. }
  assert (Hg2 : group (key +:+ String "}" rest) = Some (key, String "}" rest)).
  { apply group_Some. split; [assumption|]. split; [reflexivity|].
    now intros c r [= <- <-]. }
  simpl. rewrite Hg1. simpl. rewrite Hg2. reflexivity.
Qed.

Lemma match_ref_sound (s nid key rest : string) :
  match_ref s = Some (nid, key, rest) ->
  is_ref_name nid = true /\ is_ref_name key = true /\
  s = placeholder nid key +:+ rest.
Proof.
  unfold match_ref. intros H.
  destruct (eat "$" s) as [s0|] eqn:E0; simpl in H; [|discriminate].
  destruct (eat "{" s0) as [s1|] eqn:E1; simpl in H; [|discriminate].
  destruct (group s1) as [[nid' s2]|] eqn:G1; simpl in H; [|discriminate].
  destruct (eat "." s2) as [s3|] eqn:E2; simpl in H; [|discriminate].
  destruct (group s3) as [[key' s4]|] eqn:G2; simpl in H; [|discriminate].
  destruct (eat "}" s4) as [rest'|] eqn:E3; simpl in H; [|discriminate].
  inversion H; subst.
  apply eat_Some in E0, E1, E2, E3.
  apply group_Some in G1 as (Hn & -> & _), G2 as (Hk & -> & _). subst.
  split; [assumption|]. split; [assumption|].
  unfold placeholder.
  rewrite !string_app_assoc, !string_app_cons, !string_app_nil. reflexivity.
Qed.

Lemma match_ref_None (s : string) : match_ref s = None <-> ~ at_placeholder s.
Proof.
  split.
  - intros H (nid & key & rest & Hn & Hk & ->).
    rewrite match_ref_complete in H by assumption. discriminate.
  - intros H. destruct (match_ref s) as [[[nid key] rest]|] eqn:E; [|reflexivity].
    exfalso. apply H. exists nid, key, rest. now apply match_ref_sound.
Qed.

Lemma placeholder_length (nid key rest : string) :
  String.length rest < String.length (placeholder nid key +:+ rest).
Proof. unfold placeholder. rewrite !string_app_length. simpl. lia. Qed.

(** ** [re.sub] against the specification *)

Lemma re_sub_from_substituted (repl : string -> string -> string) (fuel : nat) :
  forall s, String.length s <= fuel -> substituted repl s (re_sub_from fuel repl s).
Proof.
  induction fuel as [|fuel IH]; intros [|c s] Hlen; simpl in *;
    try constructor; try lia.
  destruct (match_ref (String c s)) as [[[nid key] rest]|] eqn:E.
  - destruct (match_ref_sound _ _ _ _ E) as (Hn & Hk & Heq). rewrite Heq.
    constructor; try assumption. apply IH.
    pose proof (placeholder_length nid key rest) as Hlt.
    rewrite <- Heq in Hlt. simpl in Hlt. lia.
  - constructor; [now apply match_ref_None | apply IH; lia].
Qed.

Lemma substituted_re_sub_from (repl : string -> string -> string) (s out : string) :
  substituted repl s out ->
  forall fuel, String.length s <= fuel -> re_sub_from fuel repl s = out.
Proof.
  induction 1 as [|nid key rest out Hn Hk _ IH|c s out Hnot _ IH]; intros fuel Hlen.
  - now destruct fuel.
  - pose proof (placeholder_length nid key rest) as Hlt.
    pose proof (match_ref_complete nid key rest Hn Hk) as Hm.
    destruct (placeholder nid key +:+ rest) as [|c s] eqn:Es; [simpl in Hlt; lia|].
    destruct fuel as [|fuel]; [simpl in Hlen; lia|].
    simpl. rewrite Hm. f_equal. apply IH. simpl in *. lia.
  - destruct fuel as [|fuel]; [simpl in Hlen; lia|].
    apply match_ref_None in Hnot. simpl. rewrite Hnot. f_equal.
    apply IH. simpl in Hlen. lia.
Qed.

Lemma substituted_iff (repl : string -> string -> string) (s out : string) :
  substituted repl s out <-> out = re_sub repl s.
Proof.
  unfold re_sub. split.
  - intros H. symmetry. now apply substituted_re_sub_from.
  - intros ->. now apply re_sub_from_substituted.
Qed.



(** ** [_resolve_inputs] *)

Lemma resolve_fold (context : dict) (l acc : dict) :
  NoDup (dict_keys acc ++ dict_keys l) ->
  fold_left
    (fun resolved kv =>
       match kv with
       | (k, VStr s) => dict_set k (VStr (replace_refs context s)) resolved
       | (k, v) => dict_set k v resolved
       end) l acc
  = acc ++ map (fun kv => (kv.1, resolved_value context kv.2)) l.
Proof.
  revert acc. induction l as [|[k v] l IH]; intros acc Hnd; simpl.
  - now rewrite app_nil_r.
  - simpl in Hnd. apply NoDup_app in Hnd as (Hacc & Hdisj & Hl).
    apply NoDup_cons in Hl as [Hk Hl].
    assert (Hfresh : k ∉ dict_keys acc).
    { intros Hin. apply (Hdisj k Hin). now left. }
    assert (Hstep : forall x, dict_set k x acc = acc ++ [(k, x)])
      by (intros x; now apply dict_set_fresh).
    assert (Hnext : forall x,
      NoDup (dict_keys (acc ++ [(k, x)]) ++ dict_keys l)).
    { intros x. unfold dict_keys. rewrite map_app. simpl.
      rewrite <- app_assoc. simpl. apply NoDup_app. split; [assumption|].
      split; [|now apply NoDup_cons].
      intros y Hy Hy'. apply (Hdisj y Hy). exact Hy'. }
    replace (acc ++ (k, resolved_value context v) :: map _ l)
      with ((acc ++ [(k, resolved_value context v)])
              ++ map (fun kv => (kv.1, resolved_value context kv.2)) l)
      by (now rewrite <- app_assoc).
    rewrite <- IH by apply Hnext.
    destruct v; simpl; now rewrite Hstep.
Qed.



Example resolve_inputs_demo :
  _resolve_inputs demo_node demo_context
  = [("y", VStr "5 and <missing_key:z>, <missing:Z>, <badctx:B>");
     ("n", VInt 3);
     ("l", VList [VStr "${A.x}"])].
Proof. reflexivity. Qed.

(** ** References to a failed node *)

Lemma string_app_nil_r (s : string) : s +:+ EmptyString = s.
Proof.
  induction s as [|c s IH]; [reflexivity|].
  rewrite string_app_cons. now rewrite IH.
Qed.

Lemma replace_refs_placeholder (context : dict) (nid key : string) :
  is_ref_name nid = true -> is_ref_name key = true ->
  replace_refs context (placeholder nid key) = _rep context nid key.
Proof.
  intros Hn Hk. symmetry. unfold replace_refs. apply substituted_iff.
  rewrite <- (string_app_nil_r (placeholder nid key)).
  rewrite <- (string_app_nil_r (_rep context nid key)).
  constructor; [assumption | assumption | constructor].
Qed.

(** C10.  A reference to a node whose recorded entry is an error map is
    resolved as on any result map: the key ["error"] gives the recorded
    description, any other key the missing-key sentinel; no sentinel of
    its own marks the failed dependency. *)
Theorem failed_dependency_reference (context : dict) (A k : string) (e : exn) :
  dict_get A context = Some (error_map e) ->
  is_ref_name A = true -> is_ref_name k = true ->
  replace_refs context (placeholder A k)
  = (if String.eqb k "error"
     then "node failed after retries: " +:+ exn_str e
     else "<missing_key:" +:+ k +:+ ">").
Proof.
  intros HA Hn Hk. rewrite replace_refs_placeholder by assumption.
  unfold _rep. rewrite HA. unfold error_map, py_get. simpl.
  now destruct (String.eqb k "error").
Qed.

Lemma failed_dependency_reference_witness :
  dict_get "A" [("A", error_map TimeoutError)] = Some (error_map TimeoutError) /\
  is_ref_name "A" = true /\ is_ref_name "rows" = true /\
  replace_refs [("A", error_map TimeoutError)] (placeholder "A" "rows")
  = "<missing_key:rows>".
Proof.
  split; [reflexivity|]. split; [reflexivity|]. split; [reflexivity|].
  exact (failed_dependency_reference [("A", error_map TimeoutError)] "A" "rows"
           TimeoutError eq_refl eq_refl eq_refl).
Defined.

(** ** The retry loop *)

Lemma attempts_left_stop (m : Z) (attempt : nat) :
  attempts_left m attempt = 0 <-> stop_after_attempt m attempt = true.
Proof. unfold attempts_left, stop_after_attempt. rewrite Z.leb_le. lia. Qed.

Lemma attempts_left_succ (m : Z) (attempt : nat) :
  attempts_left m (S attempt) = pred (attempts_left m attempt).
Proof. unfold attempts_left. lia. Qed.

Lemma retrying_shape (left : nat) (invoke : nat -> attempt_result) (nid : string) :
  forall a, exists k,
    k <= left /\
    (retrying left invoke nid a).1 = attempt_events nid a k /\
    (forall j, j < k -> exists e, invoke (a + j) = Raised e) /\
    match (retrying left invoke nid a).2 with
    | inr v => invoke (a + k) = Returned v
    | inl e => invoke (a + k) = Raised e /\ k = left
    end.
Proof.
  induction left as [|left IH]; intros a; simpl.
  - exists 0. rewrite Nat.add_0_r.
    destruct (invoke a) eqn:E; simpl; (split; [lia|]); (split; [reflexivity|]);
      (split; [intros j Hj; lia|]); auto.
  - destruct (invoke a) eqn:E.
    + exists 0. rewrite Nat.add_0_r. simpl.
      split; [lia|]. split; [reflexivity|]. split; [intros j Hj; lia | exact E].
    + destruct (IH (S a)) as (k & Hk & Hev & Hfail & Hres).
      destruct (retrying left invoke nid (S a)) as [evs r]. simpl in *.
      exists (S k). split; [lia|]. split; [now rewrite Hev|]. split.
      * intros [|j] Hj; [rewrite Nat.add_0_r; eauto|].
        replace (a + S j) with (S a + j) by lia. apply Hfail. lia.
      * replace (a + S k) with (S a + k) by lia.
        destruct r; [destruct Hres; split; [assumption | lia] | assumption].
Qed.

Lemma invocations_app (l1 l2 : list event) :
  invocations (l1 ++ l2) = invocations l1 + invocations l2.
Proof.
  induction l1 as [|e l1 IH]; [reflexivity|].
  destruct e; simpl; rewrite IH; reflexivity.
Qed.

Lemma invocations_attempts (nid : string) (a k : nat) :
  invocations (attempt_events nid a k) = S k.
Proof. revert a. induction k as [|k IH]; intros a; simpl; [|rewrite IH]; reflexivity. Qed.

Lemma elem_of_attempt_events (nid : string) (a k : nat) (e : event) :
  e ∈ attempt_events nid a k <->
  (exists j, j <= k /\ e = EInvoke nid (a + j)) \/
  (exists j, j < k /\ e = ESleep nid (wait_exponential (a + j))).
Proof.
  revert a. induction k as [|k IH]; intros a; simpl.
  - rewrite list_elem_of_singleton. split.
    + intros ->. left. exists 0. rewrite Nat.add_0_r. split; [lia | reflexivity].
    + intros [(j & Hj & ->)|(j & Hj & _)]; [|lia].
      replace j with 0 by lia. now rewrite Nat.add_0_r.
  - rewrite !elem_of_cons, IH. split.
    + intros [->|[->|[(j & Hj & ->)|(j & Hj & ->)]]].
      * left. exists 0. rewrite Nat.add_0_r. split; [lia | reflexivity].
      * right. exists 0. rewrite Nat.add_0_r. split; [lia | reflexivity].
      * left. exists (S j). split; [lia|]. f_equal. lia.
      * right. exists (S j). split; [lia|]. do 2 f_equal. lia.
    + intros [([|j] & Hj & ->)|([|j] & Hj & ->)].
      * left. now rewrite Nat.add_0_r.
      * right. right. left. exists j. split; [lia|]. f_equal. lia.
      * right. left. now rewrite Nat.add_0_r.
      * right. right. right. exists j. split; [lia|]. do 2 f_equal. lia.
Qed.

Lemma invoke_in_attempt_events (nid : string) (a k m : nat) :
  EInvoke nid m ∈ attempt_events nid a k <-> a <= m <= a + k.
Proof.
  rewrite elem_of_attempt_events. split.
  - intros [(j & Hj & [= ->])|(j & _ & [=])]. lia.
  - intros Hm. left. exists (m - a). split; [lia|]. f_equal. lia.
Qed.

(** Whatever precedes the start of attempt [n+1] ends with attempt [n]
    and the sleep that follows it. *)
Lemma attempt_events_before (nid : string) (k : nat) :
  forall a n pre post,
    a <= n ->
    attempt_events nid a k = pre ++ EInvoke nid (S n) :: post ->
    exists pre', pre = pre' ++ [EInvoke nid n; ESleep nid (wait_exponential n)].
Proof.
  induction k as [|k IH]; intros a n pre post Han Heq; simpl in Heq.
  - destruct pre as [|x [|y pre]]; simplify_eq/=; lia.
  - destruct pre as [|x [|y pre]]; simplify_eq/=; try lia.
    rename select (attempt_events _ _ _ = _) into Heq.
    destruct (decide (a = n)) as [->|Hne].
    + exists []. simpl. f_equal. f_equal.
      destruct pre as [|z pre]; [reflexivity|]. exfalso.
      destruct k as [|k]; simpl in Heq.
      * destruct pre; simplify_eq/=.
      * injection Heq as _ Heq.
        assert (Hin : EInvoke nid (S n) ∈ ESleep nid (wait_exponential (S n))
                                          :: attempt_events nid (S (S n)) k).
        { rewrite Heq. apply list_elem_of_In, in_or_app. right. now left. }
        apply elem_of_cons in Hin as [[=]|Hin].
        apply invoke_in_attempt_events in Hin. lia.
    + destruct (IH (S a) n pre post) as [pre' ->]; [lia | assumption |].
      now exists (EInvoke nid a :: ESleep nid (wait_exponential a) :: pre').
Qed.

Lemma bracket_split {A} (a z e : A) (X pre post : list A) :
  a :: X ++ [z] = pre ++ e :: post -> e <> a -> e <> z ->
  exists pre1 post1, pre = a :: pre1 /\ post = post1 ++ [z] /\ X = pre1 ++ e :: post1.
Proof.
  intros Heq Ha Hz. destruct pre as [|x pre]; simpl in Heq.
  { injection Heq as Hae _. now symmetry in Hae. }
  injection Heq as <- Heq.
  destruct post as [|y post _] using rev_ind.
  - exfalso. apply Hz.
    apply (f_equal (@rev A)) in Heq. rewrite !rev_app_distr in Heq. simpl in Heq.
    congruence.
  - exists pre, post. split; [reflexivity|].
    change (pre ++ e :: post ++ [y]) with (pre ++ (e :: post) ++ [y]) in Heq.
    rewrite app_assoc in Heq. apply app_inj_tail in Heq as [-> ->]. auto.
Qed.

(** ** The backoff [wait_exponential] *)

Lemma pow2_pos (n : nat) : (1 <= pow2 n)%Z.
Proof. unfold pow2. pose proof (Z.pow_pos_nonneg 2 (Z.of_nat n)). lia. Qed.

Lemma wait_exponential_value (attempt : nat) :
  1 <= attempt ->
  wait_exponential attempt == Qmin ((1 # 2) * 2 ^ (Z.of_nat attempt - 1)) 4.
Proof.
  intros Hn. unfold wait_exponential.
  assert (Hexp : inject_Z (pow2 (attempt - 1)) == 2 ^ (Z.of_nat attempt - 1)).
  { unfold pow2. replace (Z.of_nat (attempt - 1)) with (Z.of_nat attempt - 1)%Z by lia.
    apply (Zpower_Qpower 2). lia. }
  rewrite <- Hexp.
  pose proof (pow2_pos (attempt - 1)) as Hpos.
  assert (H1 : (inject_Z 1 <= inject_Z (pow2 (attempt - 1)))%Q) by (now rewrite <- Zle_Qle).
  destruct (Z.leb_spec (pow2 1024) (pow2 (attempt - 1))) as [Hbig|Hsmall].
  - symmetry. apply Q.min_r.
    assert (H8 : (inject_Z 8 <= inject_Z (pow2 (attempt - 1)))%Q).
    { rewrite <- Zle_Qle. unfold pow2 in Hbig |- *.
      transitivity (2 ^ Z.of_nat 1024)%Z; [|exact Hbig].
      change 8%Z with (2 ^ 3)%Z. apply Z.pow_le_mono_r; lia. }
    change (inject_Z 8) with 8%Q in H8. lra.
  - change (inject_Z 1) with 1%Q in H1.
    rewrite (Q.max_r 0 (1 # 2)) by lra.
    apply Q.max_r. apply Q.min_glb; lra.
Qed.

(** ** [_run_node] *)

Lemma _run_node_registered (w : world) (node : NodeSpec) (context : dict) :
  agent_name (agent node) ∈ AGENT_REGISTRY -> unknown_tool node = None ->
  let run := retrying (attempts_left (max_retries node) 1)
               (agent_run w node (_resolve_inputs node context)) (node_id node) 1 in
  _run_node w node context
  = (EAcquire (node_id node) :: run.1 ++ [ERelease (node_id node)],
     match run.2 with
     | inr result => inr (node_id node, result)
     | inl e => inl e
     end).
Proof.
  intros Hagent Htool. unfold _run_node.
  rewrite bool_decide_eq_true_2 by assumption. rewrite Htool.
  now destruct (retrying _ _ _ _).
Qed.

Lemma _run_node_unregistered (w : world) (node : NodeSpec) (context : dict) :
  agent_name (agent node) ∉ AGENT_REGISTRY \/ unknown_tool node <> None ->
  (_run_node w node context).1 = [] /\
  exists msg, (_run_node w node context).2 = inl (ValueError msg).
Proof.
  unfold _run_node. intros H.
  destruct (bool_decide_reflect (agent_name (agent node) ∈ AGENT_REGISTRY)) as [Hin|Hnin];
    [|simpl; eauto].
  destruct (unknown_tool node) as [t|]; [simpl; eauto|].
  destruct H as [H|H]; [contradiction | congruence].
Qed.

(** The events of a node's coroutine: none at all, or one acquisition of
    the semaphore, the attempt sequence, one release. *)
Lemma _run_node_shape (w : world) (node : NodeSpec) (context : dict) :
  (_run_node w node context).1 = [] \/
  exists k, k <= attempts_left (max_retries node) 1 /\
    (_run_node w node context).1
    = EAcquire (node_id node) :: attempt_events (node_id node) 1 k
        ++ [ERelease (node_id node)].
Proof.
  destruct (decide (agent_name (agent node) ∈ AGENT_REGISTRY)) as [Hin|Hnin];
    [|left; apply _run_node_unregistered; now left].
  destruct (unknown_tool node) as [t|] eqn:Htool;
    [left; apply _run_node_unregistered; right; congruence|].
  right. rewrite _run_node_registered by assumption. simpl.
  destruct (retrying_shape (attempts_left (max_retries node) 1)
              (agent_run w node (_resolve_inputs node context)) (node_id node) 1)
    as (k & Hk & Hev & _).
  exists k. split; [assumption|]. now rewrite Hev.
Qed.

(** C8.  Whenever attempt [n+1] of a node starts, what the node did just
    before is attempt [n] and then one sleep of exactly
    min(0.5 * 2^(n-1), 4) seconds; and a failed attempt [n] below the
    attempt budget is always followed by attempt [n+1]. *)
Theorem backoff_before_next_attempt (w : world) (node : NodeSpec) (context : dict)
    (n : nat) :
  1 <= n ->
  (forall pre post,
     (_run_node w node context).1 = pre ++ EInvoke (node_id node) (S n) :: post ->
     exists pre' seconds,
       pre = pre' ++ [EInvoke (node_id node) n; ESleep (node_id node) seconds] /\
       seconds == Qmin ((1 # 2) * 2 ^ (Z.of_nat n - 1)) 4) /\
  (forall e,
     EInvoke (node_id node) n ∈ (_run_node w node context).1 ->
     agent_run w node (_resolve_inputs node context) n = Raised e ->
     (Z.of_nat n < max_retries node)%Z ->
     EInvoke (node_id node) (S n) ∈ (_run_node w node context).1).
Proof.
  intros Hn. split.
  - intros pre post Heq.
    destruct (_run_node_shape w node context) as [Hnil|(k & _ & Hev)].
    { rewrite Hnil in Heq. now destruct pre. }
    rewrite Hev in Heq.
    apply bracket_split in Heq as (pre1 & post1 & -> & -> & Heq); [|discriminate..].
    apply attempt_events_before in Heq as [pre' ->]; [|assumption].
    exists (EAcquire (node_id node) :: pre'), (wait_exponential n).
    split; [reflexivity | now apply wait_exponential_value].
  - intros e Hin Hfail Hbudget.
    destruct (decide (agent_name (agent node) ∈ AGENT_REGISTRY)) as [Hreg|Hnreg];
      [|rewrite (proj1 (_run_node_unregistered w node context (or_introl Hnreg))) in Hin;
        now apply elem_of_nil in Hin].
    destruct (unknown_tool node) as [t|] eqn:Htool.
    { assert (Hu : unknown_tool node <> None) by congruence.
      rewrite (proj1 (_run_node_unregistered w node context (or_intror Hu))) in Hin.
      now apply elem_of_nil in Hin. }
    rewrite _run_node_registered in Hin |- * by assumption. simpl in *.
    destruct (retrying_shape (attempts_left (max_retries node) 1)
                (agent_run w node (_resolve_inputs node context)) (node_id node) 1)
      as (k & Hk & Hev & _ & Hres).
    rewrite Hev in Hin |- *.
    apply elem_of_cons in Hin as [[=]|Hin].
    apply elem_of_app in Hin as [Hin|Hin];
      [|apply list_elem_of_singleton in Hin; discriminate].
    apply invoke_in_attempt_events in Hin.
    apply elem_of_cons. right. apply elem_of_app. left.
    apply invoke_in_attempt_events.
    assert (n <> 1 + k); [|lia].
    intros ->. destruct (retrying _ _ _ _).2 as [e'|v].
    + destruct Hres as [_ ->]. unfold attempts_left in Hbudget. lia.
    + simpl in Hres, Hfail. rewrite Hfail in Hres. discriminate.
Qed.

Lemma backoff_before_next_attempt_witness :
  1 <= 2 /\
  EInvoke "A" 3 ∈ (_run_node quiet_world (failing_node 3) []).1 /\
  exists pre' seconds,
    [EAcquire "A"; EInvoke "A" 1; ESleep "A" (wait_exponential 1);
     EInvoke "A" 2; ESleep "A" (wait_exponential 2)]
    = pre' ++ [EInvoke "A" 2; ESleep "A" seconds] /\
    seconds == Qmin ((1 # 2) * 2 ^ (Z.of_nat 2 - 1)) 4.
Proof.
  assert (H : 1 <= 2) by lia.
  split; [exact H|].
  destruct (backoff_before_next_attempt quiet_world (failing_node 3) [] 2 H)
    as [Hbefore Hnext].
  split.
  - apply (Hnext (TypeError "SumAgent.run() got an unexpected keyword argument 'x'")).
    + vm_compute. apply elem_of_cons. right. apply elem_of_cons. right.
      apply elem_of_cons. right. apply elem_of_cons. now left.
    + reflexivity.
    + reflexivity.
  - apply (Hbefore _ [ERelease "A"]). reflexivity.
Defined.





(** ** The graph that [_build_graph] makes *)

Lemma elem_of_add_once {A} `{EqDecision A} (x y : A) (l : list A) :
  y ∈ add_once x l <-> y = x \/ y ∈ l.
Proof.
  unfold add_once. destruct (decide (x ∈ l)) as [Hin|Hnin].
  - split; [auto | intros [->|]; assumption].
  - rewrite elem_of_app, list_elem_of_singleton. tauto.
Qed.

Lemma elem_of_map {A B} (f : A -> B) (l : list A) (y : B) :
  y ∈ map f l <-> exists x, y = f x /\ x ∈ l.
Proof.
  rewrite list_elem_of_In, in_map_iff. split; intros (x & H1 & H2); exists x.
  - now rewrite list_elem_of_In.
  - now rewrite <- list_elem_of_In.
Qed.

Lemma add_node_edges (ns : list NodeSpec) (g : DiGraph) :
  g_edges (fold_left add_node ns g) = g_edges g.
Proof. revert g. induction ns as [|n ns IH]; intros g; simpl; [|rewrite IH]; reflexivity. Qed.

Lemma add_edge_attr (es : list EdgeSpec) (g : DiGraph) :
  g_attr (fold_left add_edge es g) = g_attr g.
Proof. revert g. induction es as [|e es IH]; intros g; simpl; [|rewrite IH]; reflexivity. Qed.

Lemma add_edge_edges (es : list EdgeSpec) (g : DiGraph) (u v : string) :
  (u, v) ∈ g_edges (fold_left add_edge es g) <->
  (u, v) ∈ g_edges g \/ (u, v) ∈ map (fun e => (source e, target e)) es.
Proof.
  revert g. induction es as [|e es IH]; intros g; simpl.
  - rewrite elem_of_nil. tauto.
  - rewrite IH. simpl. rewrite elem_of_add_once, elem_of_cons. tauto.
Qed.

Lemma add_edge_nodes (es : list EdgeSpec) (g : DiGraph) (n : string) :
  n ∈ g_nodes (fold_left add_edge es g) <->
  n ∈ g_nodes g \/ exists e, e ∈ es /\ (n = source e \/ n = target e).
Proof.
  revert g. induction es as [|e es IH]; intros g; simpl.
  - split; [auto | intros [H|(e & He & _)]; [assumption | now apply elem_of_nil in He]].
  - rewrite IH. simpl. rewrite !elem_of_add_once. split.
    + intros [[->|[->|H]]|(e' & He' & H)]; eauto using list_elem_of_here.
      right. exists e'. split; [now apply list_elem_of_further | assumption].
    + intros [H|(e' & He' & H)]; [tauto|].
      apply elem_of_cons in He' as [->|He']; [tauto | eauto].
Qed.

Lemma add_node_attr_None (ns : list NodeSpec) (g : DiGraph) (n : string) :
  dict_get n (g_attr (fold_left add_node ns g)) = None <->
  dict_get n (g_attr g) = None /\ n ∉ map node_id ns.
Proof.
  revert g. induction ns as [|x ns IH]; intros g; simpl.
  - split; [intros H; split; [assumption | apply not_elem_of_nil] | tauto].
  - rewrite IH. simpl. rewrite dict_get_set, not_elem_of_cons.
    destruct (String.eqb_spec n (node_id x)); split; intros [H1 H2];
      try discriminate; tauto.
Qed.

Lemma built_edges (spec : GraphSpec) (u v : string) :
  (u, v) ∈ g_edges (built spec) <-> (u, v) ∈ spec_edges spec.
Proof.
  unfold built, spec_edges. rewrite add_edge_edges, add_node_edges. simpl.
  rewrite elem_of_nil. tauto.
Qed.

Lemma built_endpoints (spec : GraphSpec) (u v : string) :
  (u, v) ∈ spec_edges spec -> u ∈ g_nodes (built spec) /\ v ∈ g_nodes (built spec).
Proof.
  unfold spec_edges. intros H. apply elem_of_map in H as (e & [= -> ->] & He).
  unfold built. rewrite !add_edge_nodes. split; right; exists e; tauto.
Qed.

(** ** Cycles and the layering *)

Lemma path_last (es : list (string * string)) (a b : string) :
  path es a b -> (a, b) ∈ es \/ exists u, path es a u /\ (u, b) ∈ es.
Proof.
  induction 1 as [u v H|u v x H _ [IH|(y & Hy & IH)]].
  - now left.
  - right. exists v. split; [now constructor | assumption].
  - right. exists y. split; [now apply path_step with v | assumption].
Qed.

Lemma path_source (es : list (string * string)) (a b : string) :
  path es a b -> exists x, (a, x) ∈ es.
Proof. destruct 1; eauto. Qed.

Lemma cycle_pred (es : list (string * string)) (v : string) :
  path es v v -> exists u, (u, v) ∈ es /\ path es u u.
Proof.
  intros H. destruct (path_last es v v H) as [He|(u & Hvu & He)].
  - eauto.
  - exists u. split; [assumption | now apply path_step with v].
Qed.

Lemma blocked_iff (es : list (string * string)) (remaining : list string) (v : string) :
  blocked es remaining v <-> exists u, u ∈ remaining /\ (u, v) ∈ es.
Proof. unfold blocked. apply Exists_exists. Qed.

Lemma generations_cyclic (es : list (string * string)) (fuel : nat) :
  forall remaining,
    cyclic es -> (forall v, path es v v -> v ∈ remaining) ->
    generations fuel es remaining = None.
Proof.
  induction fuel as [|fuel IH]; intros remaining [c Hc] Hall.
  - destruct remaining; [|reflexivity]. apply Hall in Hc. now apply elem_of_nil in Hc.
  - destruct remaining as [|r0 remaining];
      [apply Hall in Hc; now apply elem_of_nil in Hc|].
    cbn [generations].
    destruct (filter _ (r0 :: remaining)) as [|x ready] eqn:Hready; [reflexivity|].
    rewrite IH; [reflexivity | now exists c |].
    intros v Hv. apply list_elem_of_filter. split; [|now apply Hall].
    rewrite <- Hready. rewrite list_elem_of_filter. intros [Hnb _]. apply Hnb.
    apply blocked_iff. destruct (cycle_pred es v Hv) as (u & Hu & Huu).
    exists u. split; [now apply Hall | assumption].
Qed.

Lemma walk_suffix (es : list (string * string)) (l1 l2 : list string) :
  walk es (l1 ++ l2) -> walk es l2.
Proof.
  induction l1 as [|x l1 IH]; [auto|]. simpl.
  destruct (l1 ++ l2) as [|y l] eqn:E.
  - destruct l1, l2; try discriminate. auto.
  - intros [_ H]. auto.
Qed.

Lemma walk_prefix (es : list (string * string)) (l1 l2 : list string) :
  walk es (l1 ++ l2) -> walk es l1.
Proof.
  induction l1 as [|x l1 IH]; [simpl; auto|]. simpl.
  destruct l1 as [|y l1]; [auto|].
  change (walk es ((y :: l1) ++ l2) -> walk es (y :: l1)) in IH.
  intros [H1 H2]. split; [assumption | now apply IH].
Qed.

Lemma walk_path (es : list (string * string)) (l : list string) :
  forall a b, walk es (a :: l ++ [b]) -> path es a b.
Proof.
  induction l as [|x l IH]; intros a b; simpl.
  - intros [H _]. now constructor.
  - intros [H1 H2]. apply path_step with x; [assumption | now apply IH].
Qed.

Lemma long_walk (es : list (string * string)) (remaining : list string) (v0 : string) :
  v0 ∈ remaining ->
  (forall v, v ∈ remaining -> blocked es remaining v) ->
  forall n, exists h l,
    length (h :: l) = S n /\ walk es (h :: l) /\ Forall (fun v => v ∈ remaining) (h :: l).
Proof.
  intros H0 Hstuck. induction n as [|n (h & l & Hlen & Hwalk & Hin)].
  - exists v0, []. repeat constructor. assumption.
  - assert (Hh : h ∈ remaining) by now inversion Hin.
    apply Hstuck, blocked_iff in Hh as (u & Hu & Huh).
    exists u, (h :: l). split; [simpl in *; lia|].
    split; [split; assumption | now constructor].
Qed.

Lemma stuck_cyclic (es : list (string * string)) (remaining : list string) (v0 : string) :
  v0 ∈ remaining ->
  (forall v, v ∈ remaining -> blocked es remaining v) ->
  cyclic es.
Proof.
  intros H0 Hstuck.
  destruct (long_walk es remaining v0 H0 Hstuck (length remaining))
    as (h & l & Hlen & Hwalk & Hin).
  assert (Hdup : ~ NoDup (h :: l)).
  { intros Hnd. apply NoDup_submseteq with (k := remaining) in Hnd.
    - apply submseteq_length in Hnd. lia.
    - now apply Forall_forall. }
  rewrite NoDup_ListNoDup in Hdup.
  apply not_NoDup in Hdup as (a & l1 & l2 & l3 & Heq).
  - rewrite Heq in Hwalk. apply walk_suffix in Hwalk.
    change (a :: l2 ++ a :: l3) with ((a :: l2) ++ [a] ++ l3) in Hwalk.
    rewrite app_assoc in Hwalk. apply walk_prefix in Hwalk.
    exists a. now apply walk_path with l2.
  - intros x y. destruct (decide (x = y)); [left | right]; assumption.
Qed.

Lemma generations_None (es : list (string * string)) (fuel : nat) :
  forall remaining,
    length remaining <= fuel ->
    generations fuel es remaining = None -> cyclic es.
Proof.
  induction fuel as [|fuel IH]; intros [|r0 remaining] Hlen Hnone;
    simpl in Hlen; try discriminate; try lia.
  cbn [generations] in Hnone.
  destruct (filter _ (r0 :: remaining)) as [|x ready] eqn:Hready.
  - apply stuck_cyclic with (r0 :: remaining) r0; [apply list_elem_of_here|].
    intros v Hv. destruct (decide (blocked es (r0 :: remaining) v)) as [|Hnb];
      [assumption|].
    assert (Hin : v ∈ filter (fun v => ~ blocked es (r0 :: remaining) v) (r0 :: remaining))
      by (apply list_elem_of_filter; auto).
    rewrite Hready in Hin. now apply elem_of_nil in Hin.
  - destruct (generations fuel es _) as [ls|] eqn:Hrec; [discriminate|].
    apply IH in Hrec; [assumption|].
    assert (Hx : x ∈ r0 :: remaining).
    { assert (Hin : x ∈ x :: ready) by apply list_elem_of_here.
      rewrite <- Hready in Hin. now apply list_elem_of_filter in Hin. }
    pose proof (length_filter_lt (fun v => v ∉ x :: ready) (r0 :: remaining) x Hx) as Hlt.
    simpl in Hlt. cut (length (filter (fun v => v ∉ x :: ready) (r0 :: remaining))
                       < S (length remaining)); [lia|].
    apply Hlt. intros Hnot. apply Hnot. apply list_elem_of_here.
Qed.

Lemma path_ext (es es' : list (string * string)) (a b : string) :
  (forall u v, (u, v) ∈ es -> (u, v) ∈ es') -> path es a b -> path es' a b.
Proof.
  intros Hsub. induction 1 as [u v H|u v x H _ IH].
  - apply path_edge. now apply Hsub.
  - apply path_step with v; [now apply Hsub | assumption].
Qed.

(** [_build_graph] raises exactly on the graphs with a cycle, and then
    the one error it has. *)
Lemma _build_graph_cyclic (spec : GraphSpec) :
  cyclic (spec_edges spec) ->
  _build_graph spec = inl (ValueError "Execution graph must be a DAG").
Proof.
  intros [c Hc]. unfold _build_graph. fold (built spec).
  unfold is_directed_acyclic_graph, topological_generations.
  rewrite generations_cyclic; [reflexivity | |].
  - exists c. apply path_ext with (spec_edges spec); [|assumption].
    intros u v. apply built_edges.
  - intros v Hv. apply path_source in Hv as [x Hx].
    apply built_edges, built_endpoints in Hx. tauto.
Qed.

Lemma _build_graph_acyclic (spec : GraphSpec) :
  ~ cyclic (spec_edges spec) -> _build_graph spec = inr (built spec).
Proof.
  intros Hacyc. unfold _build_graph. fold (built spec).
  unfold is_directed_acyclic_graph, topological_generations.
  destruct (generations _ _ _) eqn:Hgen; [reflexivity|]. exfalso. apply Hacyc.
  apply generations_None in Hgen as [c Hc]; [|lia].
  exists c. apply path_ext with (g_edges (built spec)); [|assumption].
  intros u v. apply built_edges.
Qed.

(** ** Traces growing by one event *)

Lemma snoc_split {A} (tr pre post : list A) (e e' : A) :
  tr ++ [e] = pre ++ e' :: post ->
  (post = [] /\ pre = tr /\ e' = e) \/
  (exists post', post = post' ++ [e] /\ tr = pre ++ e' :: post').
Proof.
  destruct post as [|y post _] using rev_ind; intros Heq.
  - left. change (pre ++ [e']) with (pre ++ [e']) in Heq.
    apply app_inj_tail in Heq as [-> ->]. auto.
  - right. exists post.
    change (pre ++ e' :: post ++ [y]) with (pre ++ (e' :: post) ++ [y]) in Heq.
    rewrite app_assoc in Heq. apply app_inj_tail in Heq as [-> ->]. auto.
Qed.

Lemma snoc_prefix {A} (tr pre post : list A) (e : A) :
  tr ++ [e] = pre ++ post ->
  (post = [] /\ pre = tr ++ [e]) \/
  (exists post', post = post' ++ [e] /\ tr = (pre ++ post')).
Proof.
  destruct post as [|y post _] using rev_ind; intros Heq.
  - left. rewrite app_nil_r in Heq. auto.
  - right. exists post. rewrite app_assoc in Heq.
    apply app_inj_tail in Heq as [-> ->]. auto.
Qed.

Lemma holds_slot_snoc (tr : list event) (e : event) (m : string) :
  holds_slot (tr ++ [e]) m <->
  (EAcquire m ∈ tr \/ e = EAcquire m) /\ (ERelease m ∉ tr) /\ e <> ERelease m.
Proof.
  unfold holds_slot. rewrite not_elem_of_app, elem_of_app, !list_elem_of_singleton.
  split; intros (H1 & H2); repeat split; try tauto.
  - destruct H1; [tauto | right; congruence].
  - intros ->. tauto.
  - destruct H1; [tauto | right; congruence].
  - intros Heq. apply (proj2 H2). congruence.
Qed.

Lemma holds_slot_other (tr : list event) (e : event) (n m : string) :
  event_node e = Some n -> n <> m ->
  holds_slot (tr ++ [e]) m <-> holds_slot tr m.
Proof.
  intros He Hnm. rewrite holds_slot_snoc. unfold holds_slot.
  split; [intros ([H | ->] & H2 & _); [tauto | simpl in He; congruence]|].
  intros [H1 H2]. repeat split; auto. intros ->. simpl in He. congruence.
Qed.

Lemma holds_slot_own (tr : list event) (e : event) (m : string) :
  e <> EAcquire m -> e <> ERelease m ->
  holds_slot (tr ++ [e]) m <-> holds_slot tr m.
Proof.
  intros Ha Hr. rewrite holds_slot_snoc. unfold holds_slot. tauto.
Qed.

Lemma barrier_snoc (layers : list (list string)) (tr : list event) (e : event) :
  barrier layers tr ->
  (forall k Lk Lk1 n m,
     layers !! k = Some Lk -> layers !! S k = Some Lk1 ->
     n ∈ Lk -> m ∈ Lk1 -> event_node e = Some m -> EDone n ∈ tr) ->
  barrier layers (tr ++ [e]).
Proof.
  intros Hb Hnew k Lk Lk1 n m e' pre post Hk Hk1 Hn Hm He' Heq.
  apply snoc_split in Heq as [(-> & -> & ->)|(post' & -> & ->)].
  - now apply (Hnew k Lk Lk1 n m).
  - now apply (Hb k Lk Lk1 n m e' pre post').
Qed.

Lemma windows_snoc (tr : list event) (e : event) :
  windows tr ->
  (forall n, attempt_event n e -> holds_slot tr n) ->
  windows (tr ++ [e]).
Proof.
  intros Hw Hnew pre e' post n Heq He'.
  apply snoc_split in Heq as [(-> & -> & ->)|(post' & -> & ->)].
  - now apply Hnew.
  - now apply (Hw pre e' post').
Qed.

Lemma bounded_snoc (sem : nat) (tr : list event) (e : event) :
  bounded sem tr ->
  (forall ms, NoDup ms -> (forall m, m ∈ ms -> holds_slot (tr ++ [e]) m) ->
              length ms <= sem) ->
  bounded sem (tr ++ [e]).
Proof.
  intros Hb Hnew pre post ms Heq Hnd Hms.
  apply snoc_prefix in Heq as [(-> & ->)|(post' & -> & ->)].
  - now apply Hnew.
  - now apply (Hb pre post').
Qed.

(** ** Tasks of a layer *)

Lemma task_unique (ts : list task) (t t' : task) :
  NoDup (map task_id ts) -> t ∈ ts -> t' ∈ ts -> task_id t = task_id t' -> t = t'.
Proof.
  induction ts as [|x ts IH]; intros Hnd Ht Ht' Hid; [now apply elem_of_nil in Ht|].
  simpl in Hnd. apply NoDup_cons in Hnd as [Hx Hnd].
  assert (Hmem : forall y, y ∈ ts -> task_id y ∈ map task_id ts).
  { intros y Hy. apply elem_of_map. eauto. }
  apply elem_of_cons in Ht as [->|Ht], Ht' as [->|Ht']; auto.
  - exfalso. apply Hx. rewrite Hid. auto.
  - exfalso. apply Hx. rewrite <- Hid. auto.
Qed.

Lemma filter_head_task (n : string) (ts : list task) (t : task) (rest : list task) :
  filter (fun t => task_id t = n) ts = t :: rest -> t ∈ ts /\ task_id t = n.
Proof.
  intros H. assert (Hin : t ∈ filter (fun t => task_id t = n) ts)
    by (rewrite H; apply list_elem_of_here).
  apply list_elem_of_filter in Hin. tauto.
Qed.

Lemma upd_ids (n : string) (rest : list event) (ts : list task) :
  map task_id (map (update_task n rest) ts) = map task_id ts.
Proof.
  rewrite map_map. apply map_ext. intros t. unfold update_task.
  now destruct (decide (task_id t = n)).
Qed.

Lemma elem_of_upd (n : string) (rest : list event) (ts : list task) (t' : task) :
  t' ∈ map (update_task n rest) ts ->
  (task_id t' = n /\ todo t' = rest) \/ (t' ∈ ts /\ task_id t' <> n).
Proof.
  intros H. apply elem_of_map in H as (t & -> & Ht). unfold update_task.
  destruct (decide (task_id t = n)); [left | right]; auto.
Qed.

Lemma elem_of_upd_own (n : string) (rest : list event) (ts : list task) (t : task) :
  t ∈ ts -> task_id t = n -> exists t', t' ∈ map (update_task n rest) ts /\ task_id t' = n /\ todo t' = rest.
Proof.
  intros Ht Hid. exists (update_task n rest t). split; [apply elem_of_map; eauto|].
  unfold update_task. now rewrite decide_True by assumption.
Qed.

Lemma elem_of_upd_other (n : string) (rest : list event) (ts : list task) (t : task) :
  t ∈ ts -> task_id t <> n -> t ∈ map (update_task n rest) ts.
Proof.
  intros Ht Hid. apply elem_of_map. exists t. split; [|assumption].
  unfold update_task. now rewrite decide_False by assumption.
Qed.

Lemma flying_count_fresh (n : string) (rest : list event) (ts : list task) :
  n ∉ map task_id ts ->
  map (update_task n rest) ts = ts /\ filter (fun t => task_id t <> n) ts = ts.
Proof.
  induction ts as [|x ts IH]; [auto|]. simpl. intros Hn.
  apply not_elem_of_cons in Hn as [Hx Hn]. destruct (IH Hn) as [IH1 IH2].
  rewrite IH1. rewrite filter_cons_True by congruence. rewrite IH2.
  unfold update_task at 1. rewrite decide_False by congruence. auto.
Qed.

Lemma flying_count_upd (n : string) (rest : list event) (ts : list task) (t : task) :
  NoDup (map task_id ts) -> t ∈ ts -> task_id t = n ->
  flying_count (map (update_task n rest) ts) + b2n (flying (todo t))
  = flying_count ts + b2n (flying rest).
Proof.
  induction ts as [|x ts IH]; intros Hnd Ht Hid; [now apply elem_of_nil in Ht|].
  simpl in Hnd. apply NoDup_cons in Hnd as [Hx Hnd].
  apply elem_of_cons in Ht as [->|Ht].
  - rewrite Hid in Hx. simpl. destruct (flying_count_fresh n rest ts Hx) as [-> _].
    unfold update_task. rewrite decide_True by assumption. simpl.
    unfold b2n. destruct (flying rest), (flying (todo x)); lia.
  - assert (Hne : task_id x <> n).
    { intros Heq. apply Hx. rewrite Heq, <- Hid. apply elem_of_map. eauto. }
    simpl. unfold update_task at 1. rewrite decide_False by assumption.
    specialize (IH Hnd Ht Hid). lia.
Qed.

Lemma flying_count_remove (n : string) (ts : list task) (t : task) :
  NoDup (map task_id ts) -> t ∈ ts -> task_id t = n ->
  flying_count (filter (fun t => task_id t <> n) ts) + b2n (flying (todo t))
  = flying_count ts.
Proof.
  induction ts as [|x ts IH]; intros Hnd Ht Hid; [now apply elem_of_nil in Ht|].
  simpl in Hnd. apply NoDup_cons in Hnd as [Hx Hnd].
  apply elem_of_cons in Ht as [->|Ht].
  - rewrite Hid in Hx. destruct (flying_count_fresh n [] ts Hx) as [_ Hf].
    rewrite filter_cons_False by (intros H; now apply H). rewrite Hf.
    simpl. unfold b2n. destruct (flying (todo x)); lia.
  - assert (Hne : task_id x <> n).
    { intros Heq. apply Hx. rewrite Heq, <- Hid. apply elem_of_map. eauto. }
    rewrite filter_cons_True by assumption. simpl.
    specialize (IH Hnd Ht Hid). lia.
Qed.

Lemma remove_ids (n : string) (ts : list task) :
  NoDup (map task_id ts) ->
  NoDup (map task_id (filter (fun t => task_id t <> n) ts)).
Proof.
  induction ts as [|x ts IH]; [auto|]. simpl. intros Hnd.
  apply NoDup_cons in Hnd as [Hx Hnd].
  destruct (decide (task_id x <> n)).
  - rewrite filter_cons_True by assumption. simpl. apply NoDup_cons. split; [|auto].
    intros Hin. apply Hx. apply elem_of_map in Hin as (y & Hy & Hin).
    apply list_elem_of_filter in Hin as [_ Hin]. apply elem_of_map. eauto.
  - rewrite filter_cons_False by assumption. auto.
Qed.

Lemma flying_count_length (ts : list task) :
  flying_count ts = length (filter (fun t => flying (todo t) = true) ts).
Proof.
  induction ts as [|x ts IH]; [reflexivity|]. simpl.
  destruct (flying (todo x)) eqn:E.
  - rewrite filter_cons_True by assumption. simpl. now f_equal.
  - rewrite filter_cons_False by congruence. exact IH.
Qed.

(** The nodes that hold a slot are among the flying tasks, so there are
    no more of them than [flying_count]. *)
Lemma flying_bound (ts : list task) (ms : list string) :
  NoDup ms ->
  (forall m, m ∈ ms -> exists t, t ∈ ts /\ task_id t = m /\ flying (todo t) = true) ->
  length ms <= flying_count ts.
Proof.
  intros Hnd Hms.
  rewrite flying_count_length, <- (length_map task_id).
  apply submseteq_length, NoDup_submseteq; [assumption|].
  intros m Hm. destruct (Hms m Hm) as (t & Ht & <- & Hfly).
  apply elem_of_map. exists t. split; [reflexivity|].
  apply list_elem_of_filter. auto.
Qed.

(** ** Layers *)

Lemma add_once_NoDup {A} `{EqDecision A} (x : A) (l : list A) :
  NoDup l -> NoDup (add_once x l).
Proof.
  unfold add_once. intros Hnd. destruct (decide (x ∈ l)); [assumption|].
  apply NoDup_app. split; [assumption|]. split; [|apply NoDup_singleton].
  intros y Hy Hy'. apply list_elem_of_singleton in Hy'. congruence.
Qed.

Lemma add_node_NoDup (ns : list NodeSpec) :
  forall g, NoDup (g_nodes g) -> NoDup (g_nodes (fold_left add_node ns g)).
Proof.
  induction ns as [|n ns IH]; intros g Hg; simpl; [assumption|].
  apply IH. simpl. now apply add_once_NoDup.
Qed.

Lemma add_edge_NoDup (es : list EdgeSpec) :
  forall g, NoDup (g_nodes g) -> NoDup (g_nodes (fold_left add_edge es g)).
Proof.
  induction es as [|e es IH]; intros g Hg; simpl; [assumption|].
  apply IH. simpl. now do 2 apply add_once_NoDup.
Qed.

Lemma built_nodes_NoDup (spec : GraphSpec) : NoDup (g_nodes (built spec)).
Proof. apply add_edge_NoDup, add_node_NoDup. constructor. Qed.

Lemma add_node_attr_ids (ns : list NodeSpec) :
  forall g,
    (forall m x, dict_get m (g_attr g) = Some x -> node_id x = m) ->
    forall m x, dict_get m (g_attr (fold_left add_node ns g)) = Some x -> node_id x = m.
Proof.
  induction ns as [|y ns IH]; intros g Hg; simpl; [apply Hg|].
  apply IH. intros m x. simpl. rewrite dict_get_set.
  destruct (String.eqb_spec m (node_id y)) as [->|]; [now intros [= <-] | apply Hg].
Qed.

Lemma built_attr_ids (spec : GraphSpec) (n : string) (node : NodeSpec) :
  dict_get n (g_attr (built spec)) = Some node -> node_id node = n.
Proof.
  unfold built. rewrite add_edge_attr. apply add_node_attr_ids.
  intros m x. discriminate.
Qed.

Lemma _build_graph_inr (spec : GraphSpec) (g : DiGraph) :
  _build_graph spec = inr g -> g = built spec.
Proof.
  unfold _build_graph. fold (built spec).
  destruct (is_directed_acyclic_graph (built spec)); congruence.
Qed.

Lemma generations_NoDup (es : list (string * string)) (fuel : nat) :
  forall remaining ls,
    NoDup remaining -> generations fuel es remaining = Some ls ->
    NoDup (concat ls) /\ forall x, x ∈ concat ls -> x ∈ remaining.
Proof.
  induction fuel as [|fuel IH]; intros [|r0 remaining] ls Hnd Hgen;
    simpl in Hgen; try discriminate.
  - injection Hgen as <-. split; [constructor | auto].
  - injection Hgen as <-. split; [constructor | auto].
  - change (generations (S fuel) es (r0 :: remaining) = Some ls) in Hgen.
    cbn [generations] in Hgen.
    destruct (filter _ (r0 :: remaining)) as [|x ready] eqn:Hready; [discriminate|].
    destruct (generations fuel es _) as [ls'|] eqn:Hrec; [|discriminate].
    injection Hgen as <-.
    apply IH in Hrec as [Hnd' Hsub]; [|now apply NoDup_filter].
    assert (Hr : NoDup (x :: ready) /\ forall y, y ∈ x :: ready -> y ∈ r0 :: remaining).
    { rewrite <- Hready. split; [now apply NoDup_filter|].
      intros y Hy. now apply list_elem_of_filter in Hy. }
    destruct Hr as [Hr1 Hr2]. simpl. split.
    + change (NoDup ((x :: ready) ++ concat ls')). apply NoDup_app.
      split; [assumption|]. split; [|assumption].
      intros y Hy Hy'. apply Hsub, list_elem_of_filter in Hy' as [Hy' _]. auto.
    + intros y Hy. change (y ∈ (x :: ready) ++ concat ls') in Hy.
      apply elem_of_app in Hy as [Hy|Hy]; [auto|].
      now apply Hsub, list_elem_of_filter in Hy.
Qed.

Lemma layers_NoDup (spec : GraphSpec) (g : DiGraph) :
  _build_graph spec = inr g -> NoDup (concat (layers_of g)).
Proof.
  intros H. apply _build_graph_inr in H as ->. unfold layers_of, topological_generations.
  destruct (generations _ _ _) as [ls|] eqn:Hgen; [|constructor].
  eapply generations_NoDup; [apply built_nodes_NoDup | exact Hgen].
Qed.

Lemma elem_of_concat {A} (L : list (list A)) (x : A) :
  x ∈ concat L <-> exists l, l ∈ L /\ x ∈ l.
Proof.
  rewrite list_elem_of_In, in_concat. split; intros (l & H1 & H2); exists l.
  - now rewrite !list_elem_of_In.
  - now rewrite <- !list_elem_of_In.
Qed.

Lemma concat_lookup_unique {A} (L : list (list A)) :
  NoDup (concat L) ->
  forall i j Li Lj n,
    L !! i = Some Li -> L !! j = Some Lj -> n ∈ Li -> n ∈ Lj -> i = j.
Proof.
  induction L as [|l L IH]; intros Hnd i j Li Lj n Hi Hj Hni Hnj;
    [discriminate|].
  simpl in Hnd. apply NoDup_app in Hnd as (Hl & Hdisj & HL).
  assert (Hin : forall k Lk, L !! k = Some Lk -> n ∈ Lk -> n ∈ concat L).
  { intros k Lk Hk Hn. apply elem_of_concat. exists Lk.
    split; [|assumption]. eapply list_elem_of_lookup_2; eauto. }
  destruct i as [|i], j as [|j]; simpl in *; simplify_eq; auto.
  - exfalso. eapply Hdisj; eauto.
  - exfalso. eapply Hdisj; eauto.
  - f_equal. eapply IH; eauto.
Qed.

Lemma concat_lookup_NoDup {A} (L : list (list A)) (i : nat) (Li : list A) :
  NoDup (concat L) -> L !! i = Some Li -> NoDup Li.
Proof.
  revert i. induction L as [|l L IH]; intros i Hnd Hi; [discriminate|].
  simpl in Hnd. apply NoDup_app in Hnd as (Hl & _ & HL).
  destruct i; simpl in Hi; [now simplify_eq | eauto].
Qed.

(** ** Tasks when a layer starts *)

Lemma start_layer_spec (w : world) (g : DiGraph) (context : dict) (layer : list string) :
  forall ts,
    start_layer w g context layer = inr ts ->
    map task_id ts = layer /\
    forall t, t ∈ ts -> exists node,
      dict_get (task_id t) (g_attr g) = Some node /\
      todo t = (_run_node w node context).1.
Proof.
  induction layer as [|n layer IH]; intros ts Hstart; simpl in Hstart.
  - injection Hstart as <-. split; [reflexivity|].
    intros t Ht. now apply elem_of_nil in Ht.
  - destruct (dict_get n (g_attr g)) as [node|] eqn:Hn; [|discriminate].
    destruct (start_layer w g context layer) as [e|ts']; [discriminate|].
    destruct (IH ts' eq_refl) as [Hids Hts].
    destruct (_run_node w node context) as [evs r] eqn:Hrun.
    injection Hstart as <-. simpl. split; [now rewrite Hids|].
    intros t Ht. apply elem_of_cons in Ht as [->|Ht]; [|auto].
    exists node. simpl. now rewrite Hrun.
Qed.

Lemma attempt_events_Forall (n : string) (k : nat) :
  forall a, Forall (attempt_event n) (attempt_events n a k).
Proof.
  induction k as [|k IH]; intros a; simpl.
  - constructor; [left; eauto | constructor].
  - constructor; [left; eauto|]. constructor; [right; eauto | apply IH].
Qed.

(** ** Phases of a task *)

Lemma phase_fresh (tr : list event) (w : world) (node : NodeSpec) (context : dict) :
  (forall e, e ∈ tr -> event_node e <> Some (node_id node)) ->
  phase tr (node_id node) (_run_node w node context).1.
Proof.
  intros Hfresh. destruct (_run_node_shape w node context) as [->|(k & _ & ->)].
  - apply phase_over. intros [Ha _]. now apply (Hfresh _ Ha).
  - apply phase_waiting; [apply attempt_events_Forall | assumption].
Qed.

Lemma phase_other (tr : list event) (e : event) (m : string) (todo : list event) :
  event_node e <> Some m -> phase tr m todo -> phase (tr ++ [e]) m todo.
Proof.
  intros He [body Hbody Hfresh|body Hbody [Ha Hr]|Hover].
  - apply phase_waiting; [assumption|]. intros e' He'.
    apply elem_of_app in He' as [He'|He']; [auto|].
    apply list_elem_of_singleton in He'. now subst.
  - apply phase_flight; [assumption|]. split.
    + apply elem_of_app. now left.
    + apply not_elem_of_app. split; [assumption|].
      intros Hin. apply list_elem_of_singleton in Hin. subst. now apply He.
  - apply phase_over. intros [Ha Hr]. apply Hover.
    apply not_elem_of_app in Hr as [Hr _]. split; [|assumption].
    apply elem_of_app in Ha as [Ha|Ha]; [assumption|].
    apply list_elem_of_singleton in Ha. subst. now contradiction He.
Qed.

Lemma flying_flight (n : string) (body : list event) :
  Forall (attempt_event n) body -> flying (body ++ [ERelease n]) = true.
Proof.
  intros [|e body' [[a ->]|[d ->]] _]; reflexivity.
Qed.

Lemma phase_holds_flying (tr : list event) (n : string) (todo : list event) :
  phase tr n todo -> holds_slot tr n -> flying todo = true.
Proof.
  intros [body Hbody Hfresh|body Hbody _|Hover] Hh.
  - exfalso. destruct Hh as [Ha _]. now apply (Hfresh _ Ha).
  - now apply flying_flight.
  - contradiction.
Qed.

(** What one event of its own does to a task. *)
Lemma phase_step (tr : list event) (n : string) (e : event) (rest : list event) :
  phase tr n (e :: rest) ->
  event_node e = Some n /\
  e <> EDone n /\
  phase (tr ++ [e]) n rest /\
  (attempt_event n e -> holds_slot tr n) /\
  match e with
  | EAcquire _ => flying (e :: rest) = false /\ flying rest = true
  | ERelease _ => flying (e :: rest) = true /\ flying rest = false
  | _ => flying (e :: rest) = true /\ flying rest = true
  end.
Proof.
  intros Hph. inversion Hph as [body Hbody Hfresh Heq|body Hbody Hhold Heq|]; subst.
  - split; [reflexivity|]. split; [discriminate|]. split.
    + apply phase_flight; [assumption|]. split.
      * apply elem_of_app. right. apply list_elem_of_here.
      * apply not_elem_of_app. split.
        -- intros Hin. now apply (Hfresh _ Hin).
        -- intros Hin. apply list_elem_of_singleton in Hin. discriminate.
    + split; [intros [[a [=]]|[d [=]]]|].
      split; [reflexivity | now apply flying_flight].
  - destruct body as [|e' body]; simpl in Heq; injection Heq as <- <-.
    + split; [reflexivity|]. split; [discriminate|]. split.
      * apply phase_over. intros [_ Hr]. apply Hr.
        apply elem_of_app. right. apply list_elem_of_here.
      * split; [intros [[a [=]]|[d [=]]]|]. split; reflexivity.
    + apply Forall_cons in Hbody as [He Hbody].
      assert (Hnode : event_node e' = Some n)
        by (destruct He as [[a ->]|[d ->]]; reflexivity).
      split; [assumption|].
      split; [destruct He as [[a ->]|[d ->]]; discriminate|]. split.
      * apply phase_flight; [assumption|].
        apply holds_slot_own; [| |assumption];
          destruct He as [[a ->]|[d ->]]; discriminate.
      * split; [auto|].
        destruct He as [[a ->]|[d ->]]; (split; [reflexivity | now apply flying_flight]).
Qed.

(** ** The invariant of the run *)

Lemma flying_fresh (w : world) (node : NodeSpec) (context : dict) :
  flying (_run_node w node context).1 = false.
Proof. destruct (_run_node_shape w node context) as [->|(k & _ & ->)]; reflexivity. Qed.

Lemma flying_count_zero (ts : list task) :
  (forall t, t ∈ ts -> flying (todo t) = false) -> flying_count ts = 0.
Proof.
  induction ts as [|t ts IH]; intros H; [reflexivity|]. simpl.
  rewrite (H t) by apply list_elem_of_here. rewrite IH; [reflexivity|].
  intros t' Ht'. apply H. now apply list_elem_of_further.
Qed.

Lemma attempt_event_node (n : string) (e : event) :
  attempt_event n e -> event_node e = Some n.
Proof. intros [[a ->]|[d ->]]; reflexivity. Qed.

Section RunInvariant.
Variables (w : world) (g : DiGraph) (sem0 : nat).
Hypothesis layers_disjoint : NoDup (concat (layers_of g)).
Hypothesis attr_ids :
  forall n node, dict_get n (g_attr g) = Some node -> node_id node = n.

Lemma bounded_of_state (tr : list event) (ts : list task) (sem : nat) :
  (forall m, holds_slot tr m ->
     exists t, t ∈ ts /\ task_id t = m /\ flying (todo t) = true) ->
  flying_count ts + sem = sem0 ->
  forall ms, NoDup ms -> (forall m, m ∈ ms -> holds_slot tr m) -> length ms <= sem0.
Proof.
  intros Hopen Hcount ms Hnd Hms.
  assert (length ms <= flying_count ts); [|lia].
  apply flying_bound; [assumption|]. intros m Hm. apply Hopen. now apply Hms.
Qed.

Lemma inv_initial : run_invariant (layers_of g) sem0 (initial sem0 g).
Proof.
  split; [|split; [|split]]; simpl.
  - intros k Lk Lk1 n m e pre post _ _ _ _ _ Heq. now destruct pre.
  - intros pre e post n Heq. now destruct pre.
  - intros pre post ms Heq Hnd Hms. destruct pre; [|discriminate].
    destruct ms as [|m ms]; [simpl; lia|].
    destruct (Hms m (list_elem_of_here _ _)) as [Ha _]. now apply elem_of_nil in Ha.
  - intros _. exists 0. split; [reflexivity|]. split; [constructor|].
    split; [intros t Ht; now apply elem_of_nil in Ht|].
    split; [intros e n He; now apply elem_of_nil in He|].
    split; [intros k Lk n Hk; lia|].
    split; [intros c' cur n [=]|].
    split; [intros m [Ha _]; now apply elem_of_nil in Ha | reflexivity].
Qed.

Lemma inv_halt (s s' : state) :
  run_invariant (layers_of g) sem0 s ->
  st_trace s' = st_trace s -> st_status s' <> Running ->
  run_invariant (layers_of g) sem0 s'.
Proof.
  intros (Hb & Hw & Hbd & _) Htr Hst. unfold run_invariant. rewrite Htr.
  split; [assumption|]. split; [assumption|]. split; [assumption|].
  intros Hrun. contradiction.
Qed.

Lemma inv_silent (s s' : state) (e : event) :
  run_invariant (layers_of g) sem0 s -> st_status s = Running ->
  event_node e = None ->
  st_trace s' = st_trace s ++ [e] -> st_tasks s' = st_tasks s ->
  st_sem s' = st_sem s -> st_layers s' = st_layers s ->
  run_invariant (layers_of g) sem0 s'.
Proof.
  intros (Hb & Hw & Hbd & Hrun) Hst He Htr Hts Hsem Hlay.
  destruct (Hrun Hst) as (c & Hc & Hnd & Htasks & Hev & Hdone & Hcur & Hopen & Hcount).
  assert (Hhold : forall m, holds_slot (st_trace s ++ [e]) m -> holds_slot (st_trace s) m).
  { intros m. apply holds_slot_own; intros ->; discriminate. }
  unfold run_invariant. rewrite Htr, Hts, Hsem, Hlay.
  split; [|split; [|split]].
  - apply barrier_snoc; [assumption|]. intros. congruence.
  - apply windows_snoc; [assumption|]. intros n Hn.
    apply attempt_event_node in Hn. congruence.
  - apply bounded_snoc; [assumption|]. intros ms Hms Hall.
    apply (bounded_of_state (st_trace s) (st_tasks s) (st_sem s)); auto.
  - intros _. exists c. split; [assumption|]. split; [assumption|].
    split; [|split; [|split; [|split; [|split]]]].
    + intros t Ht. destruct (Htasks t Ht) as [Hin Hph]. split; [assumption|].
      apply phase_other; [congruence | assumption].
    + intros e' n He' Hn. apply elem_of_app in He' as [He'|He']; [eauto|].
      apply list_elem_of_singleton in He'. congruence.
    + intros k Lk n Hk HLk Hn. apply elem_of_app. left. eauto.
    + intros c' cur n Hc' Hcur' Hn. destruct (Hcur c' cur n Hc' Hcur' Hn); [now left|].
      right. apply elem_of_app. now left.
    + intros m Hm. auto.
    + assumption.
Qed.

Lemma inv_start (s s' : state) (layer : list string) (rest : list (list string))
    (ts : list task) :
  run_invariant (layers_of g) sem0 s -> st_status s = Running ->
  st_tasks s = [] -> st_layers s = layer :: rest ->
  start_layer w g (st_context s) layer = inr ts ->
  st_trace s' = st_trace s -> st_tasks s' = ts ->
  st_sem s' = st_sem s -> st_layers s' = rest ->
  run_invariant (layers_of g) sem0 s'.
Proof.
  intros (Hb & Hw & Hbd & Hrun) Hst Hnone Hlayers Hstart Htr Hts Hsem Hlay.
  destruct (Hrun Hst) as (c & Hc & Hnd & Htasks & Hev & Hdone & Hcur & Hopen & Hcount).
  rewrite Hnone in *. simpl in Hcount.
  apply start_layer_spec in Hstart as [Hids Hspec].
  assert (Hlook : layers_of g !! c = Some layer).
  { assert (H0 : drop c (layers_of g) !! 0 = Some layer)
      by (rewrite <- Hc, Hlayers; reflexivity).
    now rewrite lookup_drop, Nat.add_0_r in H0. }
  assert (Hdrop : rest = drop (S c) (layers_of g)).
  { change rest with (drop 1 (layer :: rest)).
    rewrite <- Hlayers, Hc, drop_drop. f_equal. lia. }
  assert (Hfresh : forall n e, n ∈ layer -> e ∈ st_trace s -> event_node e <> Some n).
  { intros n e Hn He Hnode. destruct (Hev e n He Hnode) as (k & Lk & Hk & HLk & HnLk).
    assert (k = c); [|lia].
    now apply (concat_lookup_unique _ layers_disjoint k c Lk layer n). }
  unfold run_invariant. rewrite Htr, Hts, Hsem, Hlay.
  split; [assumption|]. split; [assumption|]. split; [assumption|].
  intros _. exists (S c). split; [assumption|].
  split; [rewrite Hids; now apply (concat_lookup_NoDup _ c layer layers_disjoint)|].
  assert (Hmem : forall t, t ∈ ts -> task_id t ∈ layer).
  { intros t Ht. rewrite <- Hids. apply elem_of_map. eauto. }
  split; [|split; [|split; [|split; [|split]]]].
  - intros t Ht. split; [exists c, layer; auto|].
    destruct (Hspec t Ht) as (node & Hnode & ->).
    rewrite <- (attr_ids _ _ Hnode). apply phase_fresh.
    rewrite (attr_ids _ _ Hnode). intros e He. apply Hfresh; auto.
  - intros e n He Hn. destruct (Hev e n He Hn) as (k & Lk & Hk & H). exists k, Lk.
    split; [lia | assumption].
  - intros k Lk n Hk HLk Hn. destruct (decide (S k = c)) as [Heq|Hne].
    + destruct (Hcur k Lk n (eq_sym Heq) HLk Hn) as [Hin|Hd]; [|assumption].
      now apply elem_of_nil in Hin.
    + apply (Hdone k Lk n); [lia | assumption | assumption].
  - intros c' cur n [= <-] Hcur' Hn. left. rewrite Hids. congruence.
  - intros m Hm. destruct (Hopen m Hm) as (t & Ht & _). now apply elem_of_nil in Ht.
  - rewrite flying_count_zero; [assumption|].
    intros t Ht. destruct (Hspec t Ht) as (node & _ & ->). apply flying_fresh.
Qed.

Lemma inv_main (s : state) :
  run_invariant (layers_of g) sem0 s -> st_status s = Running ->
  run_invariant (layers_of g) sem0 (main_step w g s).
Proof.
  intros Hinv Hst. unfold main_step.
  destruct (st_done s) as [|[e|[n res]] ready].
  - destruct (st_tasks s) as [|t ts] eqn:Hts; [|assumption].
    destruct (st_layers s) as [|layer rest] eqn:Hlay.
    + apply (inv_halt s); [assumption | reflexivity | discriminate].
    + destruct (start_layer w g (st_context s) layer) as [e|ts] eqn:Hstart.
      * apply (inv_halt s); [assumption | reflexivity | discriminate].
      * apply (inv_start s _ layer rest ts); auto.
  - destruct (st_nid s) as [n|].
    + apply (inv_silent s _ (EWrite n)); auto.
    + apply (inv_halt s); [assumption | reflexivity | discriminate].
  - apply (inv_silent s _ (EWrite n)); auto.
Qed.

Lemma inv_event (s s' : state) (t : task) (e : event) (ts' : list task) :
  run_invariant (layers_of g) sem0 s -> st_status s = Running ->
  t ∈ st_tasks s ->
  event_node e = Some (task_id t) ->
  (forall m, attempt_event m e -> holds_slot (st_trace s) m) ->
  st_trace s' = st_trace s ++ [e] -> st_tasks s' = ts' -> st_layers s' = st_layers s ->
  NoDup (map task_id ts') ->
  (forall t', t' ∈ ts' ->
     (task_id t' = task_id t /\ phase (st_trace s ++ [e]) (task_id t) (todo t')) \/
     (t' ∈ st_tasks s /\ task_id t' <> task_id t)) ->
  (forall t', t' ∈ st_tasks s -> task_id t' <> task_id t -> t' ∈ ts') ->
  (forall n, n ∈ map task_id (st_tasks s) ->
     n ∈ map task_id ts' \/ e = EDone n) ->
  (holds_slot (st_trace s ++ [e]) (task_id t) ->
     exists t', t' ∈ ts' /\ task_id t' = task_id t /\ flying (todo t') = true) ->
  flying_count ts' + st_sem s' = sem0 ->
  run_invariant (layers_of g) sem0 s'.
Proof.
  intros (Hb & Hw & Hbd & Hrun) Hst Ht He Hwin Htr Hts Hlay Hnd' Hts' Hkeep Hids Hown Hcount'.
  destruct (Hrun Hst) as (c & Hc & Hnd & Htasks & Hev & Hdone & Hcur & Hopen & Hcount).
  destruct (Htasks t Ht) as [(c' & cur & -> & Hcur' & Hncur) Hph].
  assert (Hopen' : forall m, holds_slot (st_trace s ++ [e]) m ->
            exists t', t' ∈ ts' /\ task_id t' = m /\ flying (todo t') = true).
  { intros m Hm. destruct (decide (m = task_id t)) as [->|Hne]; [auto|].
    apply (holds_slot_other (st_trace s) e (task_id t) m) in Hm; [|assumption | congruence].
    destruct (Hopen m Hm) as (t' & Ht' & Hid & Hfly). exists t'.
    split; [apply Hkeep; congruence | auto]. }
  unfold run_invariant. rewrite Htr, Hts, Hlay.
  split; [|split; [|split]].
  - apply barrier_snoc; [assumption|].
    intros k Lk Lk1 n m Hk Hk1 Hn Hm Hnode.
    assert (m = task_id t) as -> by congruence.
    assert (S k = c') as <-
      by now apply (concat_lookup_unique _ layers_disjoint (S k) c' Lk1 cur (task_id t)).
    apply (Hdone k Lk n); [lia | assumption | assumption].
  - now apply windows_snoc.
  - apply bounded_snoc; [assumption|]. intros ms Hms Hall.
    apply (bounded_of_state (st_trace s ++ [e]) ts' (st_sem s')); auto.
  - intros _. exists (S c'). split; [assumption|]. split; [assumption|].
    split; [|split; [|split; [|split; [|split]]]].
    + intros t' Ht'. destruct (Hts' t' Ht') as [[Hid Hph']|[Hold Hne]].
      * rewrite Hid. split; [exists c', cur; auto | assumption].
      * destruct (Htasks t' Hold) as [Hin Hph']. split; [assumption|].
        apply phase_other; [congruence | assumption].
    + intros e' n He' Hn. apply elem_of_app in He' as [He'|He']; [eauto|].
      apply list_elem_of_singleton in He'. subst e'.
      exists c', cur. split; [lia|]. split; [assumption | congruence].
    + intros k Lk n Hk HLk Hn. apply elem_of_app. left. eauto.
    + intros c'' cur' n [= <-] Hcur'' Hn.
      destruct (Hcur c' cur' n eq_refl Hcur'' Hn) as [Hin|Hd].
      * destruct (Hids n Hin) as [Hin' | ->]; [now left|].
        right. apply elem_of_app. right. apply list_elem_of_here.
      * right. apply elem_of_app. now left.
    + assumption.
    + assumption.
Qed.

Lemma inv_advance (s s' : state) (t : task) (e : event) (rest : list event) :
  run_invariant (layers_of g) sem0 s -> st_status s = Running ->
  t ∈ st_tasks s -> todo t = e :: rest ->
  st_trace s' = st_trace s ++ [e] ->
  st_tasks s' = map (update_task (task_id t) rest) (st_tasks s) ->
  st_layers s' = st_layers s ->
  b2n (flying rest) + st_sem s' = b2n (flying (e :: rest)) + st_sem s ->
  run_invariant (layers_of g) sem0 s'.
Proof.
  intros Hinv Hst Ht Htodo Htr Hts Hlay Hacc.
  pose proof Hinv as (_ & _ & _ & Hrun).
  destruct (Hrun Hst) as (c & _ & Hnd & Htasks & _ & _ & _ & _ & Hcount).
  destruct (Htasks t Ht) as [_ Hph]. rewrite Htodo in Hph.
  apply phase_step in Hph as (Hnode & _ & Hph' & Hwin & _).
  apply (inv_event s s' t e (map (update_task (task_id t) rest) (st_tasks s)));
    try assumption.
  - intros m Hm. pose proof (attempt_event_node m e Hm) as Hm'.
    assert (m = task_id t) as -> by congruence. auto.
  - now rewrite upd_ids.
  - intros t' Ht'. apply elem_of_upd in Ht' as [[Hid Hrest]|Hold]; [|now right].
    left. split; [assumption | now rewrite Hrest].
  - intros t' Ht' Hne. now apply elem_of_upd_other.
  - intros n Hn. left. now rewrite upd_ids.
  - intros Hh. destruct (elem_of_upd_own (task_id t) rest (st_tasks s) t Ht eq_refl)
      as (t' & Ht' & Hid & Hrest).
    exists t'. split; [assumption|]. split; [assumption|]. rewrite Hrest.
    now apply (phase_holds_flying _ _ _ Hph').
  - pose proof (flying_count_upd (task_id t) rest (st_tasks s) t Hnd Ht eq_refl)
      as Hupd.
    rewrite Htodo in Hupd. lia.
Qed.

Lemma inv_task (n : string) (s : state) :
  run_invariant (layers_of g) sem0 s -> st_status s = Running ->
  run_invariant (layers_of g) sem0 (task_step n s).
Proof.
  intros Hinv Hst. unfold task_step.
  destruct (filter _ (st_tasks s)) as [|t others] eqn:Hf; [assumption|].
  apply filter_head_task in Hf as [Ht Hid].
  pose proof Hinv as (_ & _ & _ & Hrun).
  destruct (Hrun Hst) as (c & _ & Hnd & Htasks & _ & _ & _ & _ & Hcount).
  destruct (Htasks t Ht) as [_ Hph].
  destruct (todo t) as [|e rest] eqn:Htodo.
  - apply (inv_event s _ t (EDone n)
             (filter (fun t' => task_id t' <> n) (st_tasks s)));
      try assumption; try reflexivity.
    + simpl. congruence.
    + intros m [[a [=]]|[d [=]]].
    + now apply remove_ids.
    + intros t' Ht'. apply list_elem_of_filter in Ht' as [Hne Ht']. right.
      split; [assumption | congruence].
    + intros t' Ht' Hne. apply list_elem_of_filter. split; [congruence | assumption].
    + intros n' Hn'. destruct (decide (n' = n)) as [->|Hne]; [now right|]. left.
      apply elem_of_map in Hn' as (t' & -> & Ht'). apply elem_of_map. exists t'.
      split; [reflexivity|]. apply list_elem_of_filter. auto.
    + intros Hh. apply holds_slot_own in Hh; [|discriminate..].
      now apply (phase_holds_flying _ _ _ Hph) in Hh.
    + simpl. pose proof (flying_count_remove n (st_tasks s) t Hnd Ht Hid) as Hrem.
      rewrite Htodo in Hrem. simpl in Hrem. lia.
  - subst n.
    pose proof (phase_step _ _ _ _ Hph) as (_ & _ & _ & _ & Hacc).
    destruct e as [m|m a|m d|m|m|m].
    + destruct (st_sem s) as [|sem] eqn:Hsem; [assumption|].
      apply (inv_advance s _ t (EAcquire m) rest); try assumption; try reflexivity.
      simpl st_sem. rewrite Hsem. destruct Hacc as [-> ->]. simpl. lia.
    + apply (inv_advance s _ t (EInvoke m a) rest); try assumption; try reflexivity.
      simpl st_sem. now destruct Hacc as [-> ->].
    + apply (inv_advance s _ t (ESleep m d) rest); try assumption; try reflexivity.
      simpl st_sem. now destruct Hacc as [-> ->].
    + apply (inv_advance s _ t (ERelease m) rest); try assumption; try reflexivity.
      simpl st_sem. destruct Hacc as [-> ->]. simpl. lia.
    + apply (inv_advance s _ t (EDone m) rest); try assumption; try reflexivity.
      simpl st_sem. now destruct Hacc as [-> ->].
    + apply (inv_advance s _ t (EWrite m) rest); try assumption; try reflexivity.
      simpl st_sem. now destruct Hacc as [-> ->].
Qed.

Lemma inv_step (s : state) (c : choice) :
  run_invariant (layers_of g) sem0 s -> run_invariant (layers_of g) sem0 (step w g s c).
Proof.
  intros Hinv. unfold step. destruct (st_status s) eqn:Hst; [|assumption..].
  destruct c; [now apply inv_main | now apply inv_task].
Qed.

Lemma inv_run (schedule : list choice) :
  forall s, run_invariant (layers_of g) sem0 s ->
            run_invariant (layers_of g) sem0 (fold_left (step w g) schedule s).
Proof.
  induction schedule as [|c schedule IH]; intros s Hinv; simpl; [assumption|].
  apply IH. now apply inv_step.
Qed.

End RunInvariant.

Lemma run_invariant_holds (w : world) (sem : nat) (spec : GraphSpec) (g : DiGraph)
    (schedule : list choice) :
  _build_graph spec = inr g ->
  run_invariant (layers_of g) sem (run_graph w sem spec schedule).
Proof.
  intros Hg. unfold run_graph. rewrite Hg.
  pose proof (layers_NoDup spec g Hg) as Hnd.
  apply _build_graph_inr in Hg as ->.
  apply inv_run; [assumption | apply built_attr_ids |].
  now apply inv_initial.
Qed.

(** ** Validation *)

(** C3.  A specification whose edges contain a cycle is refused by
    [run_graph] before anything runs: whatever the schedule, the run is
    in the failed state of the validation error, no event has happened
    and the context holds no entry. *)
Theorem cyclic_graph_rejected (w : world) (sem : nat) (spec : GraphSpec)
    (schedule : list choice) :
  cyclic (spec_edges spec) ->
  st_status (run_graph w sem spec schedule)
  = Failed (ValueError "Execution graph must be a DAG") /\
  st_trace (run_graph w sem spec schedule) = [] /\
  st_context (run_graph w sem spec schedule) = [].
Proof.
  intros Hcyc. unfold run_graph. rewrite (_build_graph_cyclic spec Hcyc). auto.
Qed.

Lemma cyclic_spec_cyclic : cyclic (spec_edges cyclic_spec).
Proof.
  exists "A". apply path_step with "B"; [|apply path_edge];
    apply (bool_decide_unpack _); vm_compute; exact I.
Qed.

Lemma cyclic_graph_rejected_witness :
  cyclic (spec_edges cyclic_spec) /\
  st_status (run_graph quiet_world 4 cyclic_spec two_layer_schedule)
  = Failed (ValueError "Execution graph must be a DAG") /\
  st_trace (run_graph quiet_world 4 cyclic_spec two_layer_schedule) = [] /\
  st_context (run_graph quiet_world 4 cyclic_spec two_layer_schedule) = [].
Proof.
  split; [exact cyclic_spec_cyclic|].
  exact (cyclic_graph_rejected quiet_world 4 cyclic_spec two_layer_schedule
           cyclic_spec_cyclic).
Defined.

(** C2, as the code has it.  An edge to or from a node that does not
    exist is not looked for: the graph is refused exactly when its
    edges have a cycle, and otherwise it is accepted, the missing
    endpoint being a vertex of it without node data. *)
Theorem dangling_edge_passes_validation (spec : GraphSpec) (e : EdgeSpec) :
  e ∈ edges spec -> dangling spec e ->
  (cyclic (spec_edges spec) ->
   _build_graph spec = inl (ValueError "Execution graph must be a DAG")) /\
  (~ cyclic (spec_edges spec) ->
   exists g, _build_graph spec = inr g /\
     source e ∈ g_nodes g /\ target e ∈ g_nodes g /\
     forall n, n ∉ map node_id (nodes spec) -> dict_get n (g_attr g) = None).
Proof.
  intros He _. split; [apply _build_graph_cyclic|].
  intros Hacyc. exists (built spec). split; [now apply _build_graph_acyclic|].
  unfold built. rewrite !add_edge_nodes, add_edge_attr.
  split; [right; exists e; tauto|]. split; [right; exists e; tauto|].
  intros n Hn. apply add_node_attr_None. split; [reflexivity | assumption].
Qed.

Lemma dangling_spec_acyclic : ~ cyclic (spec_edges dangling_spec).
Proof.
  intros Hcyc. apply _build_graph_cyclic in Hcyc. vm_compute in Hcyc. discriminate.
Qed.

Lemma dangling_edge_passes_validation_witness :
  edge "A" "Z" ∈ edges dangling_spec /\
  dangling dangling_spec (edge "A" "Z") /\
  exists g, _build_graph dangling_spec = inr g /\
    "A" ∈ g_nodes g /\ "Z" ∈ g_nodes g /\
    forall n, n ∉ map node_id (nodes dangling_spec) -> dict_get n (g_attr g) = None.
Proof.
  assert (H1 : edge "A" "Z" ∈ edges dangling_spec) by apply list_elem_of_here.
  assert (H2 : dangling dangling_spec (edge "A" "Z")).
  { right. simpl. intros Hin. apply list_elem_of_singleton in Hin. discriminate. }
  split; [exact H1|]. split; [exact H2|].
  exact (proj2 (dangling_edge_passes_validation dangling_spec (edge "A" "Z") H1 H2)
           dangling_spec_acyclic).
Defined.

(** C2 as stated fails: with an edge from A to a node Z that does not
    exist, validation raises nothing, node A is invoked, and only then
    does the run stop, on a [KeyError]. *)
Lemma dangling_edge_counterexample :
  edge "A" "Z" ∈ edges dangling_spec /\
  dangling dangling_spec (edge "A" "Z") /\
  _build_graph dangling_spec = inr (built dangling_spec) /\
  EInvoke "A" 1 ∈ st_trace (run_graph quiet_world 4 dangling_spec dangling_schedule) /\
  st_status (run_graph quiet_world 4 dangling_spec dangling_schedule)
  = Failed (KeyError "node").
Proof.
  split; [apply list_elem_of_here|]. split.
  { right. simpl. intros Hin. apply list_elem_of_singleton in Hin. discriminate. }
  split; [apply _build_graph_acyclic, dangling_spec_acyclic|].
  split; [in_list | reflexivity].
Qed.

(** ** The layer barrier *)


(** C7.  In every run, under every schedule, an event of a node of
    layer [k+1] (its first invocation in particular) comes only after
    every node of layer [k] is done, retries and all. *)
Theorem layer_barrier (w : world) (sem : nat) (spec : GraphSpec) (g : DiGraph)
    (schedule : list choice) :
  _build_graph spec = inr g ->
  barrier (layers_of g) (st_trace (run_graph w sem spec schedule)).
Proof. intros Hg. now apply (run_invariant_holds w sem spec g schedule Hg). Qed.

Lemma two_layer_spec_built : _build_graph two_layer_spec = inr (built two_layer_spec).
Proof. vm_compute. reflexivity. Qed.

Lemma layer_barrier_witness :
  _build_graph two_layer_spec = inr (built two_layer_spec) /\
  barrier (layers_of (built two_layer_spec))
    (st_trace (run_graph quiet_world 1 two_layer_spec two_layer_schedule)).
Proof.
  split; [exact two_layer_spec_built|].
  exact (layer_barrier quiet_world 1 two_layer_spec (built two_layer_spec)
           two_layer_schedule two_layer_spec_built).
Defined.

Example two_layer_run :
  layers_of (built two_layer_spec) = [["A"]; ["B"]] /\
  st_trace (run_graph quiet_world 1 two_layer_spec two_layer_schedule)
  = [EAcquire "A"; EInvoke "A" 1; ERelease "A"; EDone "A"; EWrite "A";
     EAcquire "B"; EInvoke "B" 1; ERelease "B"; EDone "B"; EWrite "B"] /\
  st_status (run_graph quiet_world 1 two_layer_spec two_layer_schedule)
  = Finished [("A", VDict [("echo", VDict []); ("params", VDict [])]);
              ("B", VDict [("echo", VDict []); ("params", VDict [])])].
Proof. split; [|split]; vm_compute; reflexivity. Qed.

(** ** The limiter *)



(** ** What the run records *)

Lemma dict_keys_set_elem {A} (k k' : string) (v : A) (d : list (string * A)) :
  k' ∈ dict_keys (dict_set k v d) -> k' = k \/ k' ∈ dict_keys d.
Proof.
  rewrite dict_keys_set. destruct (dict_mem k d); [now right|].
  rewrite elem_of_app, list_elem_of_singleton. tauto.
Qed.

Lemma add_node_attr_other (ns : list NodeSpec) (n : string) :
  forall g, n ∉ map node_id ns ->
            dict_get n (g_attr (fold_left add_node ns g)) = dict_get n (g_attr g).
Proof.
  induction ns as [|x ns IH]; intros g Hn; simpl; [reflexivity|].
  simpl in Hn. apply not_elem_of_cons in Hn as [Hx Hn].
  rewrite IH by assumption. simpl. rewrite dict_get_set.
  destruct (String.eqb_spec n (node_id x)); [contradiction | reflexivity].
Qed.

Lemma built_attr_lookup (spec : GraphSpec) (node : NodeSpec) :
  NoDup (map node_id (nodes spec)) -> node ∈ nodes spec ->
  dict_get (node_id node) (g_attr (built spec)) = Some node.
Proof.
  unfold built. rewrite add_edge_attr. generalize empty_graph.
  induction (nodes spec) as [|x ns IH]; intros g Hnd Hin;
    [now apply elem_of_nil in Hin|].
  simpl in Hnd. apply NoDup_cons in Hnd as [Hx Hnd]. simpl.
  apply elem_of_cons in Hin as [->|Hin]; [|now apply IH].
  rewrite add_node_attr_other by assumption. simpl.
  now rewrite dict_get_set, String.eqb_refl.
Qed.

Lemma _run_node_id (w : world) (node : NodeSpec) (context : dict) (k : string)
    (v : value) :
  (_run_node w node context).2 = inr (k, v) -> k = node_id node.
Proof.
  unfold _run_node. destruct (bool_decide _); [|discriminate].
  destruct (unknown_tool node); [discriminate|].
  destruct (retrying _ _ _ _) as [evs [e|r]]; simpl; congruence.
Qed.

Lemma start_layer_outcome (w : world) (g : DiGraph) (context : dict)
    (layer : list string) :
  forall ts t,
    start_layer w g context layer = inr ts -> t ∈ ts ->
    exists node,
      dict_get (task_id t) (g_attr g) = Some node /\
      outcome t = (_run_node w node context).2.
Proof.
  induction layer as [|n layer IH]; intros ts t Hstart Ht; simpl in Hstart.
  - injection Hstart as <-. now apply elem_of_nil in Ht.
  - destruct (dict_get n (g_attr g)) as [node|] eqn:Hn; [|discriminate].
    destruct (start_layer w g context layer) as [e|ts']; [discriminate|].
    destruct (_run_node w node context) as [evs r] eqn:Hrun.
    injection Hstart as <-. apply elem_of_cons in Ht as [->|Ht]; [|eauto].
    exists node. simpl. now rewrite Hrun.
Qed.

Section Records.
Variables (w : world) (g : DiGraph) (ok : string -> Prop).
Hypothesis new_tasks_ok :
  forall context layer ts t k v,
    start_layer w g context layer = inr ts -> t ∈ ts ->
    outcome t = inr (k, v) -> ok k.

Lemma records_change (s s' : state) :
  records_only ok s ->
  (forall k, k ∈ dict_keys (st_context s') -> k ∈ dict_keys (st_context s) \/ ok k) ->
  (forall k, st_nid s' = Some k -> st_nid s = Some k \/ ok k) ->
  (forall k v, inr (k, v) ∈ st_done s' -> inr (k, v) ∈ st_done s \/ ok k) ->
  (forall t k v, t ∈ st_tasks s' -> outcome t = inr (k, v) -> ok k) ->
  (forall result, st_status s' = Finished result -> result = st_context s') ->
  records_only ok s'.
Proof.
  intros (Hctx & Hnid & Hdone & Htasks & Hfin) H1 H2 H3 H4 H5.
  split; [|split; [|split; [|split]]]; try assumption.
  - intros k Hk. destruct (H1 k Hk); auto.
  - intros k Hk. destruct (H2 k Hk); auto.
  - intros k v Hk. destruct (H3 k v Hk); eauto.
Qed.

Lemma records_main (s : state) :
  records_only ok s -> st_status s = Running -> records_only ok (main_step w g s).
Proof.
  intros Hrec Hst. pose proof Hrec as (Hctx & Hnid & Hdone & Htasks & Hfin).
  unfold main_step.
  destruct (st_done s) as [|[e|[n res]] ready] eqn:Hd.
  - destruct (st_tasks s) as [|t ts] eqn:Hts; [|assumption].
    destruct (st_layers s) as [|layer rest].
    + apply (records_change s _ Hrec); simpl.
      * intros k Hk. now left.
      * intros k Hk. now left.
      * intros k v Hin. now apply elem_of_nil in Hin.
      * intros t k v Hin. now apply elem_of_nil in Hin.
      * now intros result [= <-].
    + destruct (start_layer w g (st_context s) layer) as [e|ts] eqn:Hstart;
        apply (records_change s _ Hrec); simpl.
      * intros k Hk. now left.
      * intros k Hk. now left.
      * intros k v Hin. now apply elem_of_nil in Hin.
      * intros t k v Hin. now apply elem_of_nil in Hin.
      * discriminate.
      * intros k Hk. now left.
      * intros k Hk. now left.
      * intros k v Hin. now apply elem_of_nil in Hin.
      * intros t k v Hin Hout. eapply new_tasks_ok; eauto.
      * discriminate.
  - destruct (st_nid s) as [n|] eqn:Hn; apply (records_change s _ Hrec); simpl.
    + intros k Hk. apply dict_keys_set_elem in Hk as [->|Hk]; auto.
    + intros k Hk. rewrite Hn. now left.
    + intros k v Hin. left. rewrite Hd. now apply list_elem_of_further.
    + exact Htasks.
    + discriminate.
    + intros k Hk. now left.
    + intros k Hk. discriminate.
    + intros k v Hin. left. rewrite Hd. now apply list_elem_of_further.
    + exact Htasks.
    + discriminate.
  - assert (Hok : ok n) by (apply (Hdone n res); apply list_elem_of_here).
    apply (records_change s _ Hrec); simpl.
    + intros k Hk. apply dict_keys_set_elem in Hk as [->|Hk]; auto.
    + intros k [= <-]. now right.
    + intros k v Hin. left. rewrite Hd. now apply list_elem_of_further.
    + exact Htasks.
    + discriminate.
Qed.

Lemma records_advance (s : state) (n : string) (rest : list event) (sem : nat)
    (e : event) :
  records_only ok s ->
  records_only ok
    {| st_context := st_context s; st_nid := st_nid s; st_sem := sem;
       st_tasks := map (update_task n rest) (st_tasks s);
       st_done := st_done s; st_layers := st_layers s;
       st_trace := st_trace s ++ [e]; st_status := Running |}.
Proof.
  intros Hrec. pose proof Hrec as (Hctx & Hnid & Hdone & Htasks & Hfin).
  apply (records_change s _ Hrec); simpl; [now left..| |discriminate].
  intros t' k v Hin Hout. apply elem_of_map in Hin as (t0 & -> & Ht0).
  apply (Htasks t0 k v Ht0). unfold update_task in Hout.
  now destruct (decide (task_id t0 = n)).
Qed.

Lemma records_task (n : string) (s : state) :
  records_only ok s -> st_status s = Running -> records_only ok (task_step n s).
Proof.
  intros Hrec Hst. pose proof Hrec as (Hctx & Hnid & Hdone & Htasks & Hfin).
  unfold task_step.
  destruct (filter _ (st_tasks s)) as [|t others] eqn:Hf; [assumption|].
  apply filter_head_task in Hf as [Ht Hid].
  destruct (todo t) as [|e rest].
  - apply (records_change s _ Hrec); simpl.
    + intros k Hk. now left.
    + intros k Hk. now left.
    + intros k v Hin. apply elem_of_app in Hin as [Hin|Hin]; [now left|].
      apply list_elem_of_singleton in Hin. right. eauto.
    + intros t' k v Hin. apply list_elem_of_filter in Hin as [_ Hin]. eauto.
    + discriminate.
  - destruct e; try now apply records_advance.
    destruct (st_sem s); [assumption | now apply records_advance].
Qed.

Lemma records_run (schedule : list choice) :
  forall s, records_only ok s -> records_only ok (fold_left (step w g) schedule s).
Proof.
  induction schedule as [|c schedule IH]; intros s Hrec; simpl; [assumption|].
  apply IH. unfold step. destruct (st_status s) eqn:Hst; [|assumption..].
  destruct c; [now apply records_main | now apply records_task].
Qed.

End Records.

(** C1, what the code does instead.  A node whose coroutine raises,
    whatever the context it is started in, never gets an entry of its
    own: under no schedule is its id a key of the context, nor of the
    mapping a finished run returns. *)
Theorem failed_node_never_recorded (w : world) (sem : nat) (spec : GraphSpec)
    (schedule : list choice) (node : NodeSpec) :
  NoDup (map node_id (nodes spec)) ->
  node ∈ nodes spec ->
  (forall context, exists e, (_run_node w node context).2 = inl e) ->
  (node_id node ∉ dict_keys (st_context (run_graph w sem spec schedule))) /\
  forall result,
    st_status (run_graph w sem spec schedule) = Finished result ->
    node_id node ∉ dict_keys result.
Proof.
  intros Hnd Hin Hfail.
  assert (Hrec : records_only (fun k => k <> node_id node)
                   (run_graph w sem spec schedule)).
  { unfold run_graph. destruct (_build_graph spec) as [e|g] eqn:Hg.
    - split; [|split; [|split; [|split]]]; simpl; try discriminate.
      + intros k Hk. now apply elem_of_nil in Hk.
      + intros k v Hk. now apply elem_of_nil in Hk.
      + intros t k v Hk. now apply elem_of_nil in Hk.
    - apply _build_graph_inr in Hg as ->. apply records_run.
      + intros context layer ts t k v Hstart Ht Hout ->.
        destruct (start_layer_outcome w _ context layer ts t Hstart Ht)
          as (node' & Hattr & Hout').
        rewrite Hout' in Hout. pose proof (_run_node_id _ _ _ _ _ Hout) as Hk.
        pose proof (built_attr_ids _ _ _ Hattr) as Hid.
        rewrite <- Hid, <- Hk in Hattr.
        rewrite (built_attr_lookup spec node Hnd Hin) in Hattr.
        injection Hattr as <-. destruct (Hfail context) as [e He]. congruence.
      + split; [|split; [|split; [|split]]]; simpl; try discriminate.
        * intros k Hk. now apply elem_of_nil in Hk.
        * intros k v Hk. now apply elem_of_nil in Hk.
        * intros t k v Hk. now apply elem_of_nil in Hk. }
  destruct Hrec as (Hctx & _ & _ & _ & Hfin). split.
  - intros Hk. now apply (Hctx _ Hk).
  - intros result Hres Hk. rewrite (Hfin _ Hres) in Hk. now apply (Hctx _ Hk).
Qed.

Lemma unknown_node_fails (w : world) (id : string) (context : dict) :
  _run_node w (unknown_node id) context = ([], inl (ValueError "Unknown agent: nope")).
Proof. reflexivity. Qed.

Lemma failed_node_never_recorded_witness :
  NoDup (map node_id (nodes chain_spec)) /\
  unknown_node "B" ∈ nodes chain_spec /\
  (forall context, exists e,
     (_run_node quiet_world (unknown_node "B") context).2 = inl e) /\
  "B" ∉ dict_keys (st_context (run_graph quiet_world 4 chain_spec chain_schedule)).
Proof.
  assert (H1 : NoDup (map node_id (nodes chain_spec)))
    by (apply (bool_decide_unpack _); vm_compute; exact I).
  assert (H2 : unknown_node "B" ∈ nodes chain_spec) by in_list.
  assert (H3 : forall context, exists e,
             (_run_node quiet_world (unknown_node "B") context).2 = inl e)
    by (intros context; eexists; reflexivity).
  split; [exact H1|]. split; [exact H2|]. split; [exact H3|].
  exact (proj1 (failed_node_never_recorded quiet_world 4 chain_spec chain_schedule
                  (unknown_node "B") H1 H2 H3)).
Defined.

(** The failing input of C1 run to its end: the error of B is stored
    under A, over the result of A, and B has no entry. *)
Example chain_run (w : world) :
  st_status (run_graph w 4 chain_spec chain_schedule)
  = Finished [("A", error_map (ValueError "Unknown agent: nope"))] /\
  st_trace (run_graph w 4 chain_spec chain_schedule)
  = [EAcquire "A"; EInvoke "A" 1; ERelease "A"; EDone "A"; EWrite "A";
     EDone "B"; EWrite "A"].
Proof. split; vm_compute; reflexivity. Qed.

(** ** A run with an unknown agent *)

Lemma invocations_snoc_done (tr : list event) (n : string) :
  invocations (tr ++ [EDone n]) = invocations tr.
Proof. rewrite invocations_app. simpl. lia. Qed.

Lemma lone_step (w : world) (s : state) (c : choice) :
  lone_shape s -> lone_shape (step w (built lone_spec) s c).
Proof.
  intros (Hctx & Hnid & Hinv & Hshape). unfold step.
  destruct Hshape as [(Hst & Hts & Hd & Hl)|[(Hst & Hts & Hd & Hl)|[(Hst & Hts & Hd & Hl)|Hst]]];
    rewrite Hst; [| | |repeat split; auto].
  - destruct c as [|n].
    + unfold main_step. rewrite Hd, Hts, Hl, Hctx.
      change (start_layer w (built lone_spec) [] ["A"]) with (@inr exn _ [lone_task]).
      unfold lone_shape. simpl. rewrite Hnid. auto 10.
    + unfold task_step. rewrite Hts. simpl. unfold lone_shape. auto 10.
  - destruct c as [|n].
    + unfold main_step. rewrite Hd, Hts. unfold lone_shape. auto 10.
    + unfold task_step. rewrite Hts.
      destruct (decide ("A" = n)) as [<-|Hne].
      * rewrite filter_cons_True by reflexivity. simpl.
        rewrite filter_cons_False by (intros H; now apply H). rewrite Hd.
        unfold lone_shape. simpl. rewrite invocations_snoc_done. auto 10.
      * rewrite filter_cons_False by assumption. simpl.
        unfold lone_shape. auto 10.
  - destruct c as [|n].
    + unfold main_step. rewrite Hd, Hnid. unfold lone_shape. simpl. auto 10.
    + unfold task_step. rewrite Hts. simpl. unfold lone_shape. auto 10.
Qed.

Lemma lone_run (w : world) (sem : nat) (schedule : list choice) :
  lone_shape (run_graph w sem lone_spec schedule).
Proof.
  unfold run_graph.
  change (_build_graph lone_spec) with (@inr exn _ (built lone_spec)).
  cbv beta iota.
  assert (H0 : lone_shape (initial sem (built lone_spec))).
  { split; [reflexivity|]. split; [reflexivity|]. split; [reflexivity|].
    left. simpl. split; [reflexivity|]. split; [reflexivity|].
    split; reflexivity. }
  revert H0. generalize (initial sem (built lone_spec)).
  induction schedule as [|c schedule IH]; intros s Hs; [exact Hs|].
  cbn [fold_left]. apply IH. now apply lone_step.
Qed.

(** C6 on its failing input: the node with the unknown agent fails at
    once, without an attempt; but under no schedule does the run record
    that failure or return: it stops on the unbound local [nid]. *)
Theorem unknown_agent_fault (w : world) (sem : nat) (schedule : list choice) :
  _run_node w (unknown_node "A") [] = ([], inl (ValueError "Unknown agent: nope")) /\
  st_context (run_graph w sem lone_spec schedule) = [] /\
  invocations (st_trace (run_graph w sem lone_spec schedule)) = 0 /\
  (forall result, st_status (run_graph w sem lone_spec schedule) <> Finished result) /\
  st_status (run_graph w sem lone_spec lone_schedule) = Failed unbound_nid.
Proof.
  destruct (lone_run w sem schedule) as (Hctx & _ & Hinv & Hshape).
  split; [reflexivity|]. split; [assumption|]. split; [assumption|].
  split; [|reflexivity].
  intros result Hres. rewrite Hres in Hshape.
  destruct Hshape as [(H & _)|[(H & _)|[(H & _)|H]]]; discriminate.
Qed.

(** ** Inputs without references *)

Lemma re_sub_from_no_dollar (repl : string -> string -> string) (fuel : nat) :
  forall s, contains_char "$" s = false -> re_sub_from fuel repl s = s.
Proof.
  induction fuel as [|fuel IH]; intros [|c s] Hs; simpl; try reflexivity.
  simpl in Hs. apply orb_false_iff in Hs as [Hc Hs].
  unfold match_ref. simpl. rewrite Hc. simpl. by rewrite IH.
Qed.

Lemma not_at_placeholder (c : ascii) (s : string) :
  Ascii.eqb "$" c = false -> ~ at_placeholder (String c s).
Proof.
  intros Hc (nid & key & rest & _ & _ & Heq).
  unfold placeholder in Heq. rewrite !string_app_cons in Heq.
  injection Heq as -> _. by rewrite Ascii.eqb_refl in Hc.
Qed.

Lemma substituted_literal (f : string -> string -> string) (lit s out : string) :
  contains_char "$" lit = false ->
  substituted f s out -> substituted f (lit +:+ s) (lit +:+ out).
Proof.
  induction lit as [|c lit IH]; intros Hlit Hs.
  - by rewrite !string_app_nil.
  - simpl in Hlit. apply orb_false_iff in Hlit as [Hc Hlit].
    rewrite !string_app_cons. apply substituted_lit; [by apply not_at_placeholder|auto].
Qed.

(** X1.  An input mapping with distinct keys whose string values hold
    no dollar sign is passed to the agent as it is, whatever the
    context. *)
Theorem inputs_without_dollar_unchanged (node : NodeSpec) (context : dict) :
  NoDup (dict_keys (inputs node)) ->
  (forall k s, (k, VStr s) ∈ inputs node -> contains_char "$" s = false) ->
  _resolve_inputs node context = inputs node.
Proof.
  intros Hnd Hs. unfold _resolve_inputs. rewrite resolve_fold by done. simpl.
  induction (inputs node) as [|[k v] l IH]; [done|]. simpl. f_equal.
  - f_equal. destruct v; try reflexivity. simpl. unfold replace_refs, re_sub.
    rewrite re_sub_from_no_dollar; [done|]. apply (Hs k). apply list_elem_of_here.
  - apply IH.
    + simpl in Hnd. by apply NoDup_cons in Hnd as [_ ?].
    + intros k' s' Hin. apply (Hs k'). by apply list_elem_of_further.
Qed.

Lemma inputs_without_dollar_unchanged_witness :
  NoDup (dict_keys (inputs literal_node)) /\
  (forall k s, (k, VStr s) ∈ inputs literal_node -> contains_char "$" s = false) /\
  _resolve_inputs literal_node demo_context = inputs literal_node.
Proof.
  assert (H1 : NoDup (dict_keys (inputs literal_node)))
    by (apply (bool_decide_unpack _); vm_compute; exact I).
  assert (H2 : forall k s, (k, VStr s) ∈ inputs literal_node ->
                           contains_char "$" s = false).
  { intros k s Hin. simpl in Hin.
    repeat (apply elem_of_cons in Hin as [Hin|Hin]; [by simplify_eq|]).
    by apply elem_of_nil in Hin. }
  split; [exact H1|]. split; [exact H2|].
  exact (inputs_without_dollar_unchanged literal_node demo_context H1 H2).
Defined.

(** X2.  Resolution goes left to right and does not rescan what it
    puts in: literal text without a dollar sign is kept, the
    placeholder after it becomes the text [_rep] gives, and the rest is
    resolved on its own. *)
Theorem replace_refs_compose (context : dict) (lit nid key rest : string) :
  contains_char "$" lit = false ->
  is_ref_name nid = true -> is_ref_name key = true ->
  replace_refs context (lit +:+ placeholder nid key +:+ rest)
  = lit +:+ _rep context nid key +:+ replace_refs context rest.
Proof.
  intros Hlit Hn Hk. symmetry. apply substituted_iff.
  apply substituted_literal; [done|].
  apply substituted_ref; [done..|]. by apply substituted_iff.
Qed.

Lemma replace_refs_compose_witness :
  contains_char "$" "x=" = false /\
  is_ref_name "A" = true /\ is_ref_name "x" = true /\
  replace_refs nested_context ("x=" +:+ placeholder "A" "x" +:+ ";${B.y}")
  = "x=" +:+ _rep nested_context "A" "x" +:+ replace_refs nested_context ";${B.y}".
Proof.
  split; [reflexivity|]. split; [reflexivity|]. split; [reflexivity|].
  exact (replace_refs_compose nested_context "x=" "A" "x" ";${B.y}"
           eq_refl eq_refl eq_refl).
Defined.

(** The text stored for A is itself a placeholder; it is not resolved
    again. *)
Example replace_refs_not_rescanned :
  replace_refs nested_context "x=${A.x};${B.y}" = "x=${B.y};7".
Proof. reflexivity. Qed.

(** ** The retry loop on a step that succeeds *)




(** ** Bounds of the backoff *)

Lemma wait_exponential_min (attempt : nat) :
  wait_exponential attempt == Qmin ((1 # 2) * inject_Z (pow2 (attempt - 1))) 4.
Proof.
  destruct attempt as [|n].
  - change (wait_exponential 0) with (wait_exponential 1).
    rewrite wait_exponential_value by lia. reflexivity.
  - rewrite wait_exponential_value by lia.
    assert (Hexp : inject_Z (pow2 (S n - 1)) == 2 ^ (Z.of_nat (S n) - 1)).
    { unfold pow2. replace (Z.of_nat (S n - 1)) with (Z.of_nat (S n) - 1)%Z by lia.
      apply (Zpower_Qpower 2). lia. }
    by rewrite Hexp.
Qed.

Lemma pow2_mono (a b : nat) : a <= b -> (pow2 a <= pow2 b)%Z.
Proof. intros H. unfold pow2. apply Z.pow_le_mono_r; lia. Qed.

Lemma wait_exponential_bounds (attempt : nat) :
  (1 # 2 <= wait_exponential attempt)%Q /\ (wait_exponential attempt <= 4)%Q.
Proof.
  rewrite wait_exponential_min.
  pose proof (pow2_pos (attempt - 1)) as Hpos.
  assert (H1 : (inject_Z 1 <= inject_Z (pow2 (attempt - 1)))%Q) by (now rewrite <- Zle_Qle).
  change (inject_Z 1) with 1%Q in H1.
  split; [apply Q.min_glb; lra | apply Q.le_min_r].
Qed.

Lemma wait_exponential_mono (a b : nat) :
  a <= b -> (wait_exponential a <= wait_exponential b)%Q.
Proof.
  intros Hab. rewrite !wait_exponential_min.
  apply Q.min_le_compat_r.
  assert (H : (inject_Z (pow2 (a - 1)) <= inject_Z (pow2 (b - 1)))%Q).
  { rewrite <- Zle_Qle. apply pow2_mono. lia. }
  lra.
Qed.

Lemma wait_exponential_cap (attempt : nat) :
  4 <= attempt -> wait_exponential attempt == 4.
Proof.
  intros H. rewrite wait_exponential_min. apply Q.min_r.
  assert (H8 : (inject_Z (pow2 3) <= inject_Z (pow2 (attempt - 1)))%Q).
  { rewrite <- Zle_Qle. apply pow2_mono. lia. }
  change (inject_Z (pow2 3)) with 8%Q in H8. lra.
Qed.

Lemma sleep_in_run_node (w : world) (node : NodeSpec) (context : dict) (n : string)
    (d : Q) :
  ESleep n d ∈ (_run_node w node context).1 ->
  n = node_id node /\ exists a, 1 <= a /\ d = wait_exponential a /\
    EInvoke n a ∈ (_run_node w node context).1 /\
    EInvoke n (S a) ∈ (_run_node w node context).1.
Proof.
  intros Hin. destruct (_run_node_shape w node context) as [Hnil|(k & _ & Hev)].
  - rewrite Hnil in Hin. by apply elem_of_nil in Hin.
  - rewrite Hev in Hin |- *.
    apply elem_of_cons in Hin as [Hin|Hin]; [discriminate|].
    apply elem_of_app in Hin as [Hin|Hin].
    + apply elem_of_attempt_events in Hin as [(j & _ & Hj)|(j & Hj & Heq)]; [discriminate|].
      injection Heq as -> ->. split; [done|]. exists (1 + j).
      split; [lia|]. split; [done|].
      split; apply list_elem_of_further, elem_of_app; left;
        apply invoke_in_attempt_events; lia.
    + apply list_elem_of_singleton in Hin. discriminate.
Qed.

(** X4.  Every backoff sleep of a node lasts between half a second
    and four seconds; the sleep never shrinks from one attempt to the
    next and is four seconds from the fourth attempt on. *)
Theorem backoff_sleep_bounds (w : world) (node : NodeSpec) (context : dict) :
  (forall n d, ESleep n d ∈ (_run_node w node context).1 ->
     (1 # 2 <= d)%Q /\ (d <= 4)%Q) /\
  (forall a b, a <= b -> (wait_exponential a <= wait_exponential b)%Q) /\
  (forall a, 4 <= a -> wait_exponential a == 4).
Proof.
  split; [|split].
  - intros n d Hin. apply sleep_in_run_node in Hin as (_ & a & _ & -> & _).
    apply wait_exponential_bounds.
  - apply wait_exponential_mono.
  - apply wait_exponential_cap.
Qed.

(** ** The layers of an accepted graph *)

Lemma generations_layers (es : list (string * string)) (fuel : nat) :
  forall remaining ls,
    generations fuel es remaining = Some ls ->
    (forall x, x ∈ remaining -> x ∈ concat ls) /\
    (forall L, L ∈ ls -> L <> []) /\
    (forall j Lj u v,
       ls !! j = Some Lj -> v ∈ Lj -> (u, v) ∈ es -> u ∈ remaining ->
       exists i Li, i < j /\ ls !! i = Some Li /\ u ∈ Li).
Proof.
  induction fuel as [|fuel IH]; intros [|r0 remaining] ls Hgen;
    simpl in Hgen; try discriminate.
  - injection Hgen as <-. split; [|split].
    + intros x Hx. by apply elem_of_nil in Hx.
    + intros L HL. by apply elem_of_nil in HL.
    + intros j Lj u v Hj. by rewrite lookup_nil in Hj.
  - injection Hgen as <-. split; [|split].
    + intros x Hx. by apply elem_of_nil in Hx.
    + intros L HL. by apply elem_of_nil in HL.
    + intros j Lj u v Hj. by rewrite lookup_nil in Hj.
  - change (generations (S fuel) es (r0 :: remaining) = Some ls) in Hgen.
    cbn [generations] in Hgen.
    destruct (filter _ (r0 :: remaining)) as [|x ready] eqn:Hready; [discriminate|].
    destruct (generations fuel es _) as [ls'|] eqn:Hrec; [|discriminate].
    injection Hgen as <-.
    apply IH in Hrec as (Hcov & Hne & Hedge).
    split; [|split].
    + intros y Hy. change (y ∈ (x :: ready) ++ concat ls'). apply elem_of_app.
      destruct (decide (y ∈ x :: ready)) as [Hin|Hout]; [by left|right].
      apply Hcov. by apply list_elem_of_filter.
    + intros L HL. apply elem_of_cons in HL as [->|HL]; [done|by apply Hne].
    + intros j Lj u v Hj Hv Huv Hu. destruct j as [|j]; simpl in Hj.
      * injection Hj as <-. rewrite <- Hready in Hv.
        apply list_elem_of_filter in Hv as [Hfree _].
        exfalso. apply Hfree. apply blocked_iff. eauto.
      * destruct (decide (u ∈ x :: ready)) as [Hin|Hout].
        -- exists 0, (x :: ready). split; [lia|]. split; [done|done].
        -- destruct (Hedge j Lj u v Hj Hv Huv) as (i & Li & Hi & HLi & HuLi).
           { by apply list_elem_of_filter. }
           exists (S i), Li. split; [lia|]. split; [done|done].
Qed.

Lemma accepted_layers (spec : GraphSpec) (g : DiGraph) :
  _build_graph spec = inr g ->
  topological_generations g = Some (layers_of g).
Proof.
  unfold _build_graph, is_directed_acyclic_graph, layers_of. intros H.
  destruct (topological_generations (fold_left add_edge _ _)) as [ls|] eqn:Hls;
    [|discriminate].
  injection H as <-. by rewrite Hls.
Qed.

Lemma built_layers (spec : GraphSpec) (g : DiGraph) :
  _build_graph spec = inr g ->
  (forall n, n ∈ concat (layers_of g) <->
             n ∈ map node_id (nodes spec) \/
             exists e, e ∈ edges spec /\ (n = source e \/ n = target e)) /\
  NoDup (concat (layers_of g)) /\
  (forall L, L ∈ layers_of g -> L <> []) /\
  (forall e, e ∈ edges spec ->
     exists i j Li Lj,
       i < j /\ layers_of g !! i = Some Li /\ layers_of g !! j = Some Lj /\
       source e ∈ Li /\ target e ∈ Lj).
Proof.
  intros Hg. pose proof (accepted_layers spec g Hg) as Hls.
  pose proof (layers_NoDup spec g Hg) as Hnd.
  pose proof (_build_graph_inr spec g Hg) as ->.
  unfold topological_generations in Hls.
  pose proof (generations_NoDup _ _ _ _ (built_nodes_NoDup spec) Hls) as [_ Hsub].
  apply generations_layers in Hls as (Hcov & Hne & Hedge).
  assert (Hnodes : forall n, n ∈ g_nodes (built spec) <->
             n ∈ map node_id (nodes spec) \/
             exists e, e ∈ edges spec /\ (n = source e \/ n = target e)).
  { intros n. unfold built. rewrite add_edge_nodes.
    assert (Hn : forall ns g0, n ∈ g_nodes (fold_left add_node ns g0)
                               <-> n ∈ g_nodes g0 \/ n ∈ map node_id ns).
    { induction ns as [|x ns IH]; intros g0; simpl.
      - split; [auto|]. intros [H|H]; [done|by apply elem_of_nil in H].
      - rewrite IH. simpl. rewrite elem_of_add_once, elem_of_cons. tauto. }
    rewrite Hn. simpl. split.
    - intros [[H|H]|H]; [by apply elem_of_nil in H|auto..].
    - intros [H|H]; auto. }
  split; [|split; [done|split; [done|]]].
  - intros n. rewrite <- Hnodes. split; [apply Hsub | apply Hcov].
  - intros e He.
    assert (Huv : (source e, target e) ∈ spec_edges spec).
    { apply elem_of_map. by exists e. }
    pose proof (built_endpoints spec _ _ Huv) as [Hu Hv].
    apply Hcov, elem_of_concat in Hv as (Lj & HLj & Hv).
    apply list_elem_of_lookup_1 in HLj as [j Hj].
    destruct (Hedge j Lj (source e) (target e) Hj Hv) as (i & Li & Hi & HLi & HuLi);
      [by apply built_edges|done|].
    by exists i, j, Li, Lj.
Qed.

(** X5.  The layers of an accepted graph: their members are the
    node ids and the edge endpoints, no vertex is in two layers, no
    layer is empty, and every edge goes from a layer to a strictly
    later one. *)
Theorem layers_partition_and_order (spec : GraphSpec) (g : DiGraph) :
  _build_graph spec = inr g ->
  (forall n, n ∈ concat (layers_of g) <->
             n ∈ map node_id (nodes spec) \/
             exists e, e ∈ edges spec /\ (n = source e \/ n = target e)) /\
  NoDup (concat (layers_of g)) /\
  (forall L, L ∈ layers_of g -> L <> []) /\
  (forall e, e ∈ edges spec ->
     exists i j Li Lj,
       i < j /\ layers_of g !! i = Some Li /\ layers_of g !! j = Some Lj /\
       source e ∈ Li /\ target e ∈ Lj).
Proof. apply built_layers. Qed.

Lemma layers_partition_and_order_witness :
  _build_graph two_layer_spec = inr (built two_layer_spec) /\
  NoDup (concat (layers_of (built two_layer_spec))).
Proof.
  split; [exact two_layer_spec_built|].
  exact (proj1 (proj2 (layers_partition_and_order two_layer_spec (built two_layer_spec)
                         two_layer_spec_built))).
Defined.

(** ** Duplicate node ids *)

Lemma add_node_attr_last (front back : list NodeSpec) (node : NodeSpec) (g : DiGraph) :
  node_id node ∉ map node_id back ->
  dict_get (node_id node) (g_attr (fold_left add_node (front ++ node :: back) g))
  = Some node.
Proof.
  intros Hback. rewrite fold_left_app. simpl.
  rewrite add_node_attr_other by done. simpl.
  by rewrite dict_get_set, String.eqb_refl.
Qed.

(** X6.  Two nodes with the same id are not refused: the last one
    in the list is the one the graph keeps, and the task of that id
    runs it. *)
Theorem duplicate_id_last_definition_wins (spec : GraphSpec) (g : DiGraph)
    (front back : list NodeSpec) (node : NodeSpec) :
  _build_graph spec = inr g ->
  nodes spec = front ++ node :: back ->
  node_id node ∉ map node_id back ->
  dict_get (node_id node) (g_attr g) = Some node /\
  forall w context layer ts t,
    start_layer w g context layer = inr ts -> t ∈ ts ->
    task_id t = node_id node ->
    todo t = (_run_node w node context).1 /\
    outcome t = (_run_node w node context).2.
Proof.
  intros Hg Hnodes Hback. apply _build_graph_inr in Hg as ->.
  assert (Hattr : dict_get (node_id node) (g_attr (built spec)) = Some node).
  { unfold built. rewrite add_edge_attr, Hnodes. by apply add_node_attr_last. }
  split; [done|]. intros w context layer ts t Hstart Ht Hid.
  destruct (start_layer_spec _ _ _ _ _ Hstart) as [_ Htodo].
  destruct (Htodo t Ht) as (n1 & Hn1 & Htodo1).
  destruct (start_layer_outcome _ _ _ _ _ _ Hstart Ht) as (n2 & Hn2 & Hout2).
  rewrite Hid, Hattr in Hn1, Hn2. injection Hn1 as <-. injection Hn2 as <-. done.
Qed.

Lemma duplicate_id_last_definition_wins_witness :
  _build_graph duplicate_spec = inr (built duplicate_spec) /\
  nodes duplicate_spec = [echo_node "A"] ++ unknown_node "A" :: [] /\
  (node_id (unknown_node "A") ∉ map node_id []) /\
  dict_get "A" (g_attr (built duplicate_spec)) = Some (unknown_node "A").
Proof.
  assert (H : node_id (unknown_node "A") ∉ map node_id []) by apply not_elem_of_nil.
  assert (Hg : _build_graph duplicate_spec = inr (built duplicate_spec))
    by (vm_compute; reflexivity).
  assert (Hn : nodes duplicate_spec = [echo_node "A"] ++ unknown_node "A" :: [])
    by reflexivity.
  split; [exact Hg|]. split; [exact Hn|]. split; [exact H|].
  exact (proj1 (duplicate_id_last_definition_wins duplicate_spec (built duplicate_spec)
                  [echo_node "A"] [] (unknown_node "A") Hg Hn H)).
Defined.

(** ** Dependencies *)

Lemma task_step_status (n : string) (s : state) :
  st_status s = Running -> st_status (task_step n s) = Running.
Proof.
  intros Hrun. unfold task_step.
  destruct (filter _ (st_tasks s)) as [|t ?]; [done|].
  destruct (todo t) as [|[] rest]; try done. by destruct (st_sem s).
Qed.

Lemma halting_step (w : world) (g : DiGraph) (s : state) (c : choice) :
  st_status s = Running -> st_status (step w g s c) <> Running ->
  c = Main /\ st_done s = [] /\ st_tasks s = [] /\
  st_trace (step w g s c) = st_trace s /\ st_context (step w g s c) = st_context s /\
  (forall result, st_status (step w g s c) = Finished result ->
     st_layers s = [] /\ result = st_context s)
  \/ c = Main /\ (exists e ready, st_done s = inl e :: ready) /\
     st_trace (step w g s c) = st_trace s /\ st_context (step w g s c) = st_context s /\
     (forall result, st_status (step w g s c) <> Finished result).
Proof.
  intros Hrun Hhalt. unfold step in *. rewrite Hrun in *.
  destruct c as [|n]; [|by rewrite task_step_status in Hhalt].
  unfold main_step in *.
  destruct (st_done s) as [|[e|[k v]] ready] eqn:Hdone.
  - destruct (st_tasks s) eqn:Hts; [|by rewrite Hrun in Hhalt].
    destruct (st_layers s) as [|layer layers] eqn:Hls.
    + left. simpl. repeat split; try done. by injection H.
    + destruct (start_layer w g (st_context s) layer); simpl in *; [|done].
      left. repeat split; try done.
  - destruct (st_nid s); simpl in *; [done|]. right.
    split; [done|]. split; [eauto|]. repeat split; done.
  - simpl in Hhalt. done.
Qed.

Lemma step_halted (w : world) (g : DiGraph) (s : state) (c : choice) :
  st_status s <> Running -> step w g s c = s.
Proof. intros H. unfold step. by destruct (st_status s). Qed.

(** A halted run has the trace of a run that has not halted yet. *)
Lemma trace_of_running (w : world) (g : DiGraph) (schedule : list choice) :
  forall s, st_status s = Running ->
    exists schedule',
      st_status (fold_left (step w g) schedule' s) = Running /\
      st_trace (fold_left (step w g) schedule' s)
      = st_trace (fold_left (step w g) schedule s).
Proof.
  induction schedule as [|c schedule IH] using rev_ind; intros s Hrun.
  - by exists [].
  - rewrite fold_left_app. simpl.
    destruct (IH s Hrun) as (sched' & Hrun' & Htr').
    destruct (st_status (fold_left (step w g) schedule s)) eqn:Hst.
    + destruct (st_status (step w g (fold_left (step w g) schedule s) c)) eqn:Hst'.
      * exists (schedule ++ [c]). rewrite fold_left_app. simpl. by rewrite Hst'.
      * exists schedule. split; [done|]. symmetry.
        destruct (halting_step w g _ c Hst) as [H|H]; [by rewrite Hst'|..];
          by destruct_and? H.
      * exists schedule. split; [done|]. symmetry.
        destruct (halting_step w g _ c Hst) as [H|H]; [by rewrite Hst'|..];
          by destruct_and? H.
    + exists sched'. split; [done|]. rewrite Htr'. rewrite step_halted; [done|by rewrite Hst].
    + exists sched'. split; [done|]. rewrite Htr'. rewrite step_halted; [done|by rewrite Hst].
Qed.

Lemma barrier_chain (layers : list (list string)) (tr : list event) :
  barrier layers tr ->
  (forall L, L ∈ layers -> L <> []) ->
  forall d i Li Lj n m e pre post,
    layers !! i = Some Li -> layers !! (i + S d) = Some Lj ->
    n ∈ Li -> m ∈ Lj -> event_node e = Some m ->
    tr = pre ++ e :: post -> EDone n ∈ pre.
Proof.
  intros Hbar Hne. induction d as [|d IH]; intros i Li Lj n m e pre post Hi Hj Hn Hm He Htr.
  - replace (i + 1) with (S i) in Hj by lia.
    exact (Hbar i Li Lj n m e pre post Hi Hj Hn Hm He Htr).
  - replace (i + S (S d)) with (S (i + S d)) in Hj by lia.
    destruct (layers !! (i + S d)) as [L'|] eqn:HL'.
    2:{ apply lookup_ge_None in HL'. apply lookup_lt_Some in Hj. lia. }
    destruct L' as [|n' L'].
    { exfalso. apply (Hne []); [|done]. by eapply list_elem_of_lookup_2. }
    assert (Hdone : EDone n' ∈ pre).
    { exact (Hbar (i + S d) (n' :: L') Lj n' m e pre post HL' Hj
               (list_elem_of_here _ _) Hm He Htr). }
    apply list_elem_of_split in Hdone as (pre1 & post1 & ->).
    apply elem_of_app. left.
    eapply (IH i Li (n' :: L') n n' (EDone n') pre1 (post1 ++ e :: post));
      [done|done|done|apply list_elem_of_here|done|].
    rewrite Htr. by rewrite <- app_assoc.
Qed.

(** X7.  Under every schedule, a node does nothing, not even ask
    for its slot, before the task of each node it has an edge from is
    done. *)
Theorem dependency_done_before_dependent (w : world) (sem : nat) (spec : GraphSpec)
    (schedule : list choice) (e : EdgeSpec) (ev : event) (pre post : list event) :
  e ∈ edges spec ->
  event_node ev = Some (target e) ->
  st_trace (run_graph w sem spec schedule) = pre ++ ev :: post ->
  EDone (source e) ∈ pre.
Proof.
  intros He Hev Htr. unfold run_graph in Htr.
  destruct (_build_graph spec) as [err|g] eqn:Hg.
  { simpl in Htr. by destruct pre. }
  destruct (built_layers spec g Hg) as (_ & _ & Hne & Hedge).
  destruct (trace_of_running w g schedule (initial sem g) eq_refl)
    as (sched' & Hrun & Htr').
  pose proof (run_invariant_holds w sem spec g sched' Hg) as Hinv.
  unfold run_graph in Hinv. rewrite Hg in Hinv.
  destruct Hinv as (Hbar & _ & _ & Hst).
  destruct (Hst Hrun) as (c & _ & _ & _ & Hseen & _).
  rewrite Htr', Htr in Hbar, Hseen.
  destruct (Hedge e He) as (i & j & Li & Lj & Hij & Hi & Hj & Hu & Hv).
  replace j with (i + S (j - i - 1)) in Hj by lia.
  exact (barrier_chain _ _ Hbar Hne (j - i - 1) i Li Lj _ _ ev pre post Hi Hj Hu Hv Hev eq_refl).
Qed.

Lemma dependency_done_before_dependent_witness :
  edge "A" "B" ∈ edges two_layer_spec /\
  event_node (EAcquire "B") = Some (target (edge "A" "B")) /\
  st_trace (run_graph quiet_world 1 two_layer_spec two_layer_schedule)
  = [EAcquire "A"; EInvoke "A" 1; ERelease "A"; EDone "A"; EWrite "A"]
      ++ EAcquire "B" :: [EInvoke "B" 1; ERelease "B"; EDone "B"; EWrite "B"] /\
  EDone (source (edge "A" "B"))
    ∈ [EAcquire "A"; EInvoke "A" 1; ERelease "A"; EDone "A"; EWrite "A"].
Proof.
  assert (H : edge "A" "B" ∈ edges two_layer_spec) by in_list.
  assert (Hev : event_node (EAcquire "B") = Some (target (edge "A" "B")))
    by reflexivity.
  assert (Htr : st_trace (run_graph quiet_world 1 two_layer_spec two_layer_schedule)
                = [EAcquire "A"; EInvoke "A" 1; ERelease "A"; EDone "A"; EWrite "A"]
                    ++ EAcquire "B" :: [EInvoke "B" 1; ERelease "B"; EDone "B"; EWrite "B"])
    by (vm_compute; reflexivity).
  split; [exact H|]. split; [exact Hev|]. split; [exact Htr|].
  exact (dependency_done_before_dependent quiet_world 1 two_layer_spec two_layer_schedule
           (edge "A" "B") (EAcquire "B") _ _ H Hev Htr).
Defined.

(** ** No slot at all *)

Lemma invocations_none (tr : list event) :
  (forall n a, EInvoke n a ∉ tr) -> invocations tr = 0.
Proof.
  induction tr as [|e tr IH]; intros H; [done|].
  assert (Htr : invocations tr = 0).
  { apply IH. intros n a Hin. apply (H n a). by apply list_elem_of_further. }
  destruct e; simpl; try done. exfalso. eapply H. apply list_elem_of_here.
Qed.

(** X8.  An orchestrator made with concurrency 0 never runs a step:
    under every schedule the trace holds no invocation and no backoff
    sleep. *)
Theorem zero_concurrency_runs_no_step (w : world) (spec : GraphSpec)
    (schedule : list choice) :
  Orchestrator_init 0 = inr 0 /\
  (forall n e, e ∈ st_trace (run_graph w 0 spec schedule) -> ~ attempt_event n e) /\
  invocations (st_trace (run_graph w 0 spec schedule)) = 0.
Proof.
  split; [reflexivity|].
  assert (Hnone : forall n e, e ∈ st_trace (run_graph w 0 spec schedule) ->
                              ~ attempt_event n e).
  { intros n e Hin Hatt.
    destruct (_build_graph spec) as [err|g] eqn:Hg.
    { unfold run_graph in Hin. rewrite Hg in Hin. by apply elem_of_nil in Hin. }
    destruct (run_invariant_holds w 0 spec g schedule Hg) as (_ & Hwin & Hbd & _).
    apply list_elem_of_split in Hin as (pre & post & Htr).
    pose proof (Hwin pre e post n Htr Hatt) as Hslot.
    assert (Hlen : length [n] <= 0).
    { apply (Hbd pre (e :: post) [n] Htr).
      - apply NoDup_singleton.
      - intros m Hm. apply list_elem_of_singleton in Hm. by subst. }
    simpl in Hlen. lia. }
  split; [done|]. apply invocations_none. intros n a Hin.
  apply (Hnone n _ Hin). left. by exists a.
Qed.
(** ** Every node at most once *)

Lemma events_of_snoc (n : string) (tr : list event) (e : event) :
  events_of n (tr ++ [e]) =
  if decide (event_node e = Some n) then events_of n tr ++ [e] else events_of n tr.
Proof.
  unfold events_of. rewrite filter_app. simpl.
  rewrite filter_cons, filter_nil.
  destruct (decide (event_node e = Some n)); [done|by rewrite app_nil_r].
Qed.

Lemma events_of_other (n : string) (tr : list event) (e : event) :
  event_node e <> Some n -> events_of n (tr ++ [e]) = events_of n tr.
Proof. intros H. rewrite events_of_snoc. by destruct (decide _). Qed.

Lemma events_of_own (n : string) (tr : list event) (e : event) :
  event_node e = Some n -> events_of n (tr ++ [e]) = events_of n tr ++ [e].
Proof. intros H. rewrite events_of_snoc. by destruct (decide _). Qed.

Lemma events_of_none (n : string) (tr : list event) :
  (forall e, e ∈ tr -> event_node e <> Some n) -> events_of n tr = [].
Proof.
  intros H. induction tr as [|e tr IH]; [done|].
  unfold events_of. rewrite filter_cons.
  destruct (decide (event_node e = Some n)) as [He|He].
  - exfalso. apply (H e); [apply list_elem_of_here|done].
  - apply IH. intros e' He'. apply H. by apply list_elem_of_further.
Qed.

Lemma _run_node_events (w : world) (node : NodeSpec) (context : dict) (e : event) :
  e ∈ (_run_node w node context).1 -> event_node e = Some (node_id node).
Proof.
  intros Hin. destruct (_run_node_shape w node context) as [Hnil|(k & _ & Hev)].
  - rewrite Hnil in Hin. by apply elem_of_nil in Hin.
  - rewrite Hev in Hin. apply elem_of_cons in Hin as [->|Hin]; [done|].
    apply elem_of_app in Hin as [Hin|Hin].
    + apply attempt_event_node.
      pose proof (attempt_events_Forall (node_id node) k 1) as Hall.
      rewrite Forall_forall in Hall. by apply Hall.
    + apply list_elem_of_singleton in Hin. by subst.
Qed.

Lemma invocations_run_node (w : world) (node : NodeSpec) (context : dict) :
  invocations (_run_node w node context).1 <= Z.to_nat (Z.max 1 (max_retries node)).
Proof.
  destruct (_run_node_shape w node context) as [Hnil|(k & Hk & Hev)].
  - rewrite Hnil. simpl. lia.
  - rewrite Hev. simpl. rewrite invocations_app, invocations_attempts. simpl.
    unfold attempts_left in Hk. lia.
Qed.

Lemma built_attr_In (spec : GraphSpec) (n : string) (node : NodeSpec) :
  dict_get n (g_attr (built spec)) = Some node -> node ∈ nodes spec.
Proof.
  unfold built. rewrite add_edge_attr.
  assert (H : forall ns g,
             dict_get n (g_attr (fold_left add_node ns g)) = Some node ->
             dict_get n (g_attr g) = Some node \/ node ∈ ns).
  { induction ns as [|x ns IH]; intros g Hget; simpl in *; [by left|].
    apply IH in Hget as [Hget|Hin]; [|right; by apply list_elem_of_further].
    simpl in Hget. rewrite dict_get_set in Hget.
    destruct (String.eqb n (node_id x)); [|by left].
    injection Hget as ->. right. apply list_elem_of_here. }
  intros Hget. by apply H in Hget as [Hget|Hin].
Qed.

Section Once.
Variables (w : world) (g : DiGraph) (sem0 : nat).
Hypothesis layers_disjoint : NoDup (concat (layers_of g)).
Hypothesis attr_ids :
  forall n node, dict_get n (g_attr g) = Some node -> node_id node = n.

Lemma script_events (n : string) (evs : list event) (e : event) :
  script w g n evs -> e ∈ evs -> event_node e = Some n.
Proof.
  intros (node & context & Hnode & ->) Hin.
  rewrite <- (attr_ids _ _ Hnode). by eapply _run_node_events.
Qed.

Lemma once_same (s s' : state) :
  st_trace s' = st_trace s -> st_tasks s' = st_tasks s ->
  once_invariant w g s -> once_invariant w g s'.
Proof. unfold once_invariant. by intros -> ->. Qed.

Lemma once_write (s s' : state) (k : string) :
  st_trace s' = st_trace s ++ [EWrite k] -> st_tasks s' = st_tasks s ->
  once_invariant w g s -> once_invariant w g s'.
Proof.
  unfold once_invariant. intros -> -> [H1 H2]. split.
  - intros t Ht. rewrite events_of_other by done. by apply H1.
  - intros n Hn. rewrite events_of_other by done. by apply H2.
Qed.

Lemma once_main (s : state) :
  run_invariant (layers_of g) sem0 s -> st_status s = Running ->
  once_invariant w g s -> once_invariant w g (main_step w g s).
Proof.
  intros Hinv Hst Honce. unfold main_step.
  destruct (st_done s) as [|[e|[n res]] ready].
  - destruct (st_tasks s) as [|t0 ts0] eqn:Hts; [|done].
    destruct (st_layers s) as [|layer rest] eqn:Hlayers.
    + apply (once_same s); [done|by rewrite Hts|done].
    + destruct (start_layer w g (st_context s) layer) as [e|ts] eqn:Hstart.
      * apply (once_same s); [done|by rewrite Hts|done].
      * destruct Hinv as (_ & _ & _ & Hrun).
        destruct (Hrun Hst) as (c & Hc & _ & _ & Hev & _).
        assert (Hlook : layers_of g !! c = Some layer).
        { assert (H0 : drop c (layers_of g) !! 0 = Some layer)
            by (rewrite <- Hc, Hlayers; reflexivity).
          by rewrite lookup_drop, Nat.add_0_r in H0. }
        assert (Hfresh : forall n, n ∈ layer -> events_of n (st_trace s) = []).
        { intros n Hn. apply events_of_none. intros e He Hnode.
          destruct (Hev e n He Hnode) as (k & Lk & Hk & HLk & HnLk).
          assert (k = c); [|lia].
          by apply (concat_lookup_unique _ layers_disjoint k c Lk layer n). }
        destruct (start_layer_spec _ _ _ _ _ Hstart) as [Hids Hspec].
        destruct Honce as [_ H2]. split; simpl.
        -- intros t Ht. destruct (Hspec t Ht) as (node & Hnode & Htodo).
           rewrite Hfresh; [|rewrite <- Hids; apply elem_of_map; eauto].
           simpl. exists node, (st_context s). done.
        -- intros n Hn. apply H2. rewrite Hts. apply not_elem_of_nil.
  - destruct (st_nid s); [by apply (once_write s _ s0)|by apply (once_same s)].
  - by apply (once_write s _ n).
Qed.

Lemma once_task (n : string) (s : state) :
  once_invariant w g s -> once_invariant w g (task_step n s).
Proof.
  intros Honce. unfold task_step.
  destruct (filter _ (st_tasks s)) as [|t others] eqn:Hf; [done|].
  apply filter_head_task in Hf as [Ht Hid].
  pose proof Honce as [H1 H2].
  pose proof (H1 t Ht) as Hscript. rewrite Hid in Hscript.
  destruct (todo t) as [|e rest] eqn:Htodo.
  - rewrite app_nil_r in Hscript. split; simpl.
    + intros t' Ht'. apply list_elem_of_filter in Ht' as [Hne Ht'].
      rewrite events_of_other by (simpl; congruence). by apply H1.
    + intros m Hm. destruct (decide (m = n)) as [->|Hne].
      * right. exists (events_of n (st_trace s)). split; [done|].
        by rewrite events_of_own.
      * rewrite events_of_other by (simpl; congruence). apply H2.
        intros Hin. apply Hm. apply elem_of_map in Hin as (t' & -> & Ht').
        apply elem_of_map. exists t'. split; [done|]. by apply list_elem_of_filter.
  - assert (He : event_node e = Some n).
    { apply (script_events n _ e Hscript). apply elem_of_app. right.
      apply list_elem_of_here. }
    assert (Hadv : forall sem,
               once_invariant w g
                 {| st_context := st_context s; st_nid := st_nid s; st_sem := sem;
                    st_tasks := map (update_task n rest) (st_tasks s);
                    st_done := st_done s; st_layers := st_layers s;
                    st_trace := st_trace s ++ [e]; st_status := Running |}).
    { intros sem. split; simpl.
      - intros t' Ht'. apply elem_of_upd in Ht' as [[Hid' Htodo']|[Ht' Hne]].
        + rewrite Hid', Htodo', events_of_own by done.
          by rewrite <- app_assoc.
        + rewrite events_of_other by congruence. by apply H1.
      - intros m Hm. rewrite upd_ids in Hm.
        assert (Hne : m <> n).
        { intros ->. apply Hm. apply elem_of_map. by exists t. }
        rewrite events_of_other by congruence. by apply H2. }
    destruct e; try apply Hadv. destruct (st_sem s); [done|apply Hadv].
Qed.

Lemma once_step (s : state) (c : choice) :
  run_invariant (layers_of g) sem0 s ->
  once_invariant w g s -> once_invariant w g (step w g s c).
Proof.
  intros Hinv Honce. unfold step. destruct (st_status s) eqn:Hst; [|done..].
  destruct c; [by apply once_main | by apply once_task].
Qed.

Lemma once_run (schedule : list choice) :
  forall s, run_invariant (layers_of g) sem0 s -> once_invariant w g s ->
            once_invariant w g (fold_left (step w g) schedule s).
Proof.
  induction schedule as [|c schedule IH]; intros s Hinv Honce; simpl; [done|].
  apply IH; [by apply inv_step | by apply once_step].
Qed.

End Once.

Lemma once_holds (w : world) (sem : nat) (spec : GraphSpec) (g : DiGraph)
    (schedule : list choice) :
  _build_graph spec = inr g ->
  once_invariant w g (run_graph w sem spec schedule).
Proof.
  intros Hg. unfold run_graph. rewrite Hg.
  pose proof (layers_NoDup spec g Hg) as Hnd.
  apply _build_graph_inr in Hg as ->.
  apply (once_run w (built spec) sem Hnd (built_attr_ids spec)).
  - by apply inv_initial.
  - split; simpl.
    + intros t Ht. by apply elem_of_nil in Ht.
    + intros n _. by left.
Qed.

Lemma invocations_prefix (l1 l2 : list event) :
  l1 `prefix_of` l2 -> invocations l1 <= invocations l2.
Proof. intros [k ->]. rewrite invocations_app. lia. Qed.

(** X9.  Under every schedule a node takes part in a run at most
    once: what the trace holds of it is a beginning of the one sequence
    its coroutine performs, followed by its completion, so the step of
    a node is invoked at most [max(1, max_retries)] times in the whole
    run. *)
Theorem node_runs_at_most_once (w : world) (sem : nat) (spec : GraphSpec)
    (schedule : list choice) (n : string) :
  events_of n (st_trace (run_graph w sem spec schedule)) = [] \/
  exists node context,
    node ∈ nodes spec /\ node_id node = n /\
    events_of n (st_trace (run_graph w sem spec schedule))
      `prefix_of` (_run_node w node context).1 ++ [EDone n] /\
    invocations (events_of n (st_trace (run_graph w sem spec schedule)))
    <= Z.to_nat (Z.max 1 (max_retries node)).
Proof.
  destruct (_build_graph spec) as [err|g] eqn:Hg.
  { left. unfold run_graph. by rewrite Hg. }
  pose proof (once_holds w sem spec g schedule Hg) as [H1 H2].
  pose proof (_build_graph_inr spec g Hg) as ->.
  assert (Hpre : forall evs,
             script w (built spec) n evs ->
             events_of n (st_trace (run_graph w sem spec schedule))
               `prefix_of` evs ++ [EDone n] ->
             exists node context,
               node ∈ nodes spec /\ node_id node = n /\
               events_of n (st_trace (run_graph w sem spec schedule))
                 `prefix_of` (_run_node w node context).1 ++ [EDone n] /\
               invocations (events_of n (st_trace (run_graph w sem spec schedule)))
               <= Z.to_nat (Z.max 1 (max_retries node))).
  { intros evs (node & context & Hnode & ->) Hprefix.
    exists node, context. split; [by eapply built_attr_In|].
    split; [by eapply built_attr_ids|]. split; [done|].
    apply invocations_prefix in Hprefix.
    rewrite invocations_snoc_done in Hprefix.
    pose proof (invocations_run_node w node context). lia. }
  destruct (decide (n ∈ map task_id (st_tasks (run_graph w sem spec schedule))))
    as [Hin|Hout].
  - right. apply elem_of_map in Hin as (t & -> & Ht).
    apply (Hpre _ (H1 t Ht)). rewrite <- app_assoc. by apply prefix_app_r.
  - destruct (H2 n Hout) as [Hnil|(evs & Hscript & Hev)]; [by left|right].
    apply (Hpre evs Hscript). by rewrite Hev.
Qed.
(** ** A run that returns *)

(** A finished run was, one step earlier, a run with nothing pending. *)
Lemma finished_from (w : world) (g : DiGraph) (result : dict) (schedule : list choice) :
  forall s0, st_status s0 = Running ->
    st_status (fold_left (step w g) schedule s0) = Finished result ->
    exists schedule',
      st_status (fold_left (step w g) schedule' s0) = Running /\
      st_tasks (fold_left (step w g) schedule' s0) = [] /\
      st_done (fold_left (step w g) schedule' s0) = [] /\
      st_layers (fold_left (step w g) schedule' s0) = [] /\
      st_trace (fold_left (step w g) schedule' s0)
      = st_trace (fold_left (step w g) schedule s0) /\
      st_context (fold_left (step w g) schedule' s0) = result.
Proof.
  induction schedule as [|c schedule IH] using rev_ind; intros s0 Hrun Hfin.
  - simpl in Hfin. congruence.
  - rewrite fold_left_app in Hfin |- *. simpl in Hfin |- *.
    destruct (st_status (fold_left (step w g) schedule s0)) eqn:Hst.
    + destruct (halting_step w g _ c Hst) as [H|H]; [by rewrite Hfin| |].
      * destruct H as (_ & Hdone & Htasks & Htr & _ & Hres).
        destruct (Hres result Hfin) as [Hlayers ->].
        exists schedule. by rewrite Htr.
      * destruct H as (_ & _ & _ & _ & Hno). by destruct (Hno result).
    + rewrite step_halted in Hfin |- * by (by rewrite Hst).
      apply IH; [done|]. congruence.
    + rewrite step_halted in Hfin by (by rewrite Hst). congruence.
Qed.

Lemma events_of_elem (n : string) (tr : list event) (e : event) :
  e ∈ tr -> event_node e = Some n -> e ∈ events_of n tr.
Proof. intros Hin He. by apply list_elem_of_filter. Qed.

(** X10.  A run that returns has run every vertex of the graph, once
    and to its end: each node id and each edge endpoint is the id of a
    node of the specification, and the trace holds of it exactly the
    events of that node's coroutine and then its completion. *)
Theorem finished_run_completed_every_node (w : world) (sem : nat) (spec : GraphSpec)
    (schedule : list choice) (result : dict) (n : string) :
  st_status (run_graph w sem spec schedule) = Finished result ->
  n ∈ map node_id (nodes spec) \/
    (exists e, e ∈ edges spec /\ (n = source e \/ n = target e)) ->
  exists node context,
    node ∈ nodes spec /\ node_id node = n /\
    events_of n (st_trace (run_graph w sem spec schedule))
    = (_run_node w node context).1 ++ [EDone n].
Proof.
  intros Hfin Hn. unfold run_graph in Hfin |- *.
  destruct (_build_graph spec) as [err|g] eqn:Hg; [discriminate|].
  destruct (finished_from w g result schedule (initial sem g) eq_refl Hfin)
    as (sched' & Hrun & Htasks & _ & Hlayers & Htr & _).
  rewrite <- Htr.
  pose proof (run_invariant_holds w sem spec g sched' Hg) as Hinv.
  pose proof (once_holds w sem spec g sched' Hg) as [_ H2].
  unfold run_graph in Hinv, H2. rewrite Hg in Hinv, H2.
  destruct Hinv as (_ & _ & _ & Hst).
  destruct (Hst Hrun) as (c & Hc & _ & _ & _ & Hdone & Hcur & _).
  destruct (built_layers spec g Hg) as (Hmem & _).
  apply Hmem, elem_of_concat in Hn as (L & HL & HnL).
  apply list_elem_of_lookup_1 in HL as [k Hk].
  assert (Hlen : length (layers_of g) <= c).
  { rewrite Hlayers in Hc. symmetry in Hc. apply drop_nil_inv in Hc. done. }
  pose proof (lookup_lt_Some _ _ _ Hk) as Hlt.
  assert (Hd : EDone n ∈ st_trace (fold_left (step w g) sched' (initial sem g))).
  { destruct (decide (S k < c)) as [Hsk|Hsk].
    - by apply (Hdone k L n).
    - destruct (Hcur k L n) as [Hin|Hin]; [lia|done|done| |done].
      rewrite Htasks in Hin. by apply elem_of_nil in Hin. }
  destruct (H2 n) as [Hnil|(evs & (node & context & Hnode & ->) & Hev)].
  { rewrite Htasks. apply not_elem_of_nil. }
  - apply (events_of_elem n) in Hd; [|done]. rewrite Hnil in Hd.
    by apply elem_of_nil in Hd.
  - pose proof (_build_graph_inr spec g Hg) as ->.
    exists node, context. split; [by eapply built_attr_In|].
    split; [by eapply built_attr_ids|done].
Qed.

Lemma finished_run_completed_every_node_witness :
  st_status (run_graph quiet_world 1 two_layer_spec two_layer_schedule)
  = Finished [("A", VDict [("echo", VDict []); ("params", VDict [])]);
              ("B", VDict [("echo", VDict []); ("params", VDict [])])] /\
  ("B" ∈ map node_id (nodes two_layer_spec) \/
   (exists e, e ∈ edges two_layer_spec /\ ("B" = source e \/ "B" = target e))) /\
  exists node context,
    node ∈ nodes two_layer_spec /\ node_id node = "B" /\
    events_of "B" (st_trace (run_graph quiet_world 1 two_layer_spec two_layer_schedule))
    = (_run_node quiet_world node context).1 ++ [EDone "B"].
Proof.
  assert (H1 : st_status (run_graph quiet_world 1 two_layer_spec two_layer_schedule)
               = Finished [("A", VDict [("echo", VDict []); ("params", VDict [])]);
                           ("B", VDict [("echo", VDict []); ("params", VDict [])])])
    by (vm_compute; reflexivity).
  assert (H2 : "B" ∈ map node_id (nodes two_layer_spec) \/
               (exists e, e ∈ edges two_layer_spec /\ ("B" = source e \/ "B" = target e)))
    by (left; in_list).
  split; [exact H1|]. split; [exact H2|].
  exact (finished_run_completed_every_node quiet_world 1 two_layer_spec
           two_layer_schedule _ "B" H1 H2).
Defined.

(** ** What the context holds *)

Section Entries.
Variables (w : world) (g : DiGraph) (ok : string -> value -> Prop).
Hypothesis new_tasks_ok :
  forall context layer ts t k v,
    start_layer w g context layer = inr ts -> t ∈ ts ->
    outcome t = inr (k, v) -> ok k v.
Hypothesis errors_ok : forall k e, ok k (error_map e).

Lemma entries_set (k : string) (v : value) (context : dict) :
  ok k v ->
  (forall k' v', dict_get k' context = Some v' -> ok k' v') ->
  forall k' v', dict_get k' (dict_set k v context) = Some v' -> ok k' v'.
Proof.
  intros Hok Hctx k' v' Hget. rewrite dict_get_set in Hget.
  destruct (String.eqb_spec k' k) as [->|Hne]; [|by apply Hctx].
  by injection Hget as <-.
Qed.

Lemma entries_main (s : state) :
  entries_only ok s -> st_status s = Running -> entries_only ok (main_step w g s).
Proof.
  intros (Hctx & Hdone & Htasks & Hfin) Hst. unfold main_step.
  destruct (st_done s) as [|[e|[n res]] ready] eqn:Hd.
  - destruct (st_tasks s) as [|t ts] eqn:Hts.
    2:{ split; [done|]. split; [by rewrite Hd|]. split; [by rewrite Hts|done]. }
    destruct (st_layers s) as [|layer rest].
    + split; [done|]. split; [done|]. split; [done|]. simpl. by intros result [= <-].
    + destruct (start_layer w g (st_context s) layer) as [e|ts] eqn:Hstart.
      * split; [done|]. split; [done|]. split; [done|]. simpl. discriminate.
      * split; [done|]. split; [done|]. split; [|simpl; discriminate].
        simpl. intros t k v Ht Hout. by eapply new_tasks_ok.
  - assert (Hready : forall k v, inr (k, v) ∈ ready -> ok k v).
    { intros k v Hin. apply Hdone. by apply list_elem_of_further. }
    destruct (st_nid s) as [n|].
    + split; [simpl; by apply entries_set|]. split; [done|]. split; [done|].
      simpl. discriminate.
    + split; [done|]. split; [done|]. split; [done|]. simpl. discriminate.
  - assert (Hready : forall k v, inr (k, v) ∈ ready -> ok k v).
    { intros k v Hin. apply Hdone. by apply list_elem_of_further. }
    split; [simpl; apply entries_set; [apply Hdone, list_elem_of_here|done]|].
    split; [done|]. split; [done|]. simpl. discriminate.
Qed.

Lemma entries_task (n : string) (s : state) :
  entries_only ok s -> st_status s = Running -> entries_only ok (task_step n s).
Proof.
  intros Hent Hst. pose proof Hent as (Hctx & Hdone & Htasks & Hfin).
  unfold task_step.
  destruct (filter _ (st_tasks s)) as [|t others] eqn:Hf; [done|].
  apply filter_head_task in Hf as [Ht Hid].
  assert (Hadv : forall sem e rest,
             entries_only ok
               {| st_context := st_context s; st_nid := st_nid s; st_sem := sem;
                  st_tasks := map (update_task n rest) (st_tasks s);
                  st_done := st_done s; st_layers := st_layers s;
                  st_trace := st_trace s ++ [e]; st_status := Running |}).
  { intros sem e rest. split; [done|]. split; [done|]. split; [|simpl; discriminate].
    simpl. intros t' k v Hin Hout. apply elem_of_map in Hin as (t0 & -> & Ht0).
    apply (Htasks t0 k v Ht0). unfold update_task in Hout.
    by destruct (decide (task_id t0 = n)). }
  destruct (todo t) as [|e rest].
  - split; [done|]. split; [|split; [|simpl; discriminate]]; simpl.
    + intros k v Hin. apply elem_of_app in Hin as [Hin|Hin]; [by apply Hdone|].
      apply list_elem_of_singleton in Hin. by eapply Htasks.
    + intros t' k v Hin. apply list_elem_of_filter in Hin as [_ Hin]. by apply Htasks.
  - destruct e; try apply Hadv. destruct (st_sem s); [done|apply Hadv].
Qed.

Lemma entries_run (schedule : list choice) :
  forall s, entries_only ok s -> entries_only ok (fold_left (step w g) schedule s).
Proof.
  induction schedule as [|c schedule IH]; intros s Hent; simpl; [done|].
  apply IH. unfold step. destruct (st_status s) eqn:Hst; [|done..].
  destruct c; [by apply entries_main | by apply entries_task].
Qed.

End Entries.

(** X11.  At every moment of a run, under every schedule, each entry
    of the context is either what the node of that id returned, run
    against some context, or an error record; a finished run returns
    that context. *)
Theorem context_entries (w : world) (sem : nat) (spec : GraphSpec)
    (schedule : list choice) :
  (forall k v,
     dict_get k (st_context (run_graph w sem spec schedule)) = Some v ->
     (exists node context,
        node ∈ nodes spec /\ node_id node = k /\
        (_run_node w node context).2 = inr (k, v)) \/
     (exists e, v = error_map e)) /\
  (forall result,
     st_status (run_graph w sem spec schedule) = Finished result ->
     result = st_context (run_graph w sem spec schedule)).
Proof.
  set (ok := fun k v =>
    (exists node context,
       node ∈ nodes spec /\ node_id node = k /\
       (_run_node w node context).2 = inr (k, v)) \/
    (exists e, v = error_map e)).
  assert (Hent : entries_only ok (run_graph w sem spec schedule)).
  { unfold run_graph. destruct (_build_graph spec) as [e|g] eqn:Hg.
    - split; [|split; [|split]]; simpl; try discriminate.
      + intros k v Hk. by apply elem_of_nil in Hk.
      + intros t k v Hk. by apply elem_of_nil in Hk.
    - apply _build_graph_inr in Hg as ->. apply entries_run.
      + intros context layer ts t k v Hstart Ht Hout.
        destruct (start_layer_outcome w _ context layer ts t Hstart Ht)
          as (node & Hattr & Hout').
        rewrite Hout' in Hout. pose proof (_run_node_id _ _ _ _ _ Hout) as ->.
        left. exists node, context. split; [by eapply built_attr_In|done].
      + intros k e. right. by exists e.
      + split; [|split; [|split]]; simpl; try discriminate.
        * intros k v Hk. by apply elem_of_nil in Hk.
        * intros t k v Hk. by apply elem_of_nil in Hk. }
  destruct Hent as (Hctx & _ & _ & Hfin). split; [exact Hctx|exact Hfin].
Qed.

(** ** Agents *)







Lemma get_tool_None (tools : list ToolConfig) (name : string) :
  get_tool tools name = None <-> name ∉ map tool_name tools.
Proof.
  induction tools as [|t tools IH]; simpl.
  - split; [intros _; apply not_elem_of_nil|done].
  - rewrite not_elem_of_cons.
    destruct (String.eqb_spec (tool_name t) name) as [->|Hne].
    + split; [done|]. by intros [? _].
    + rewrite IH. split; [intros H; split; [congruence|done]|by intros [_ ?]].
Qed.

Lemma get_tool_Some (tools : list ToolConfig) (name : string) (t : ToolConfig) :
  get_tool tools name = Some t ->
  exists front back,
    tools = front ++ t :: back /\ tool_name t = name /\
    name ∉ map tool_name front.
Proof.
  induction tools as [|t0 tools IH]; simpl; [done|].
  destruct (String.eqb_spec (tool_name t0) name) as [Heq|Hne].
  - intros [= ->]. exists [], tools. split; [done|]. split; [done|apply not_elem_of_nil].
  - intros Hget. destruct (IH Hget) as (front & back & -> & Hname & Hfront).
    exists (t0 :: front), back. split; [done|]. split; [done|].
    simpl. apply not_elem_of_cons. split; [congruence|done].
Qed.

(** X14.  [get_tool] gives the first tool of the wanted name, and
    nothing exactly when no tool has that name. *)
Theorem get_tool_finds_first (tools : list ToolConfig) (name : string) :
  match get_tool tools name with
  | Some t =>
      exists front back,
        tools = front ++ t :: back /\ tool_name t = name /\
        name ∉ map tool_name front
  | None => name ∉ map tool_name tools
  end.
Proof.
  destruct (get_tool tools name) as [t|] eqn:Hget.
  - by apply get_tool_Some.
  - by apply get_tool_None.
Qed.





(** ** The HTTP API *)

Lemma get_run_set (run_id other : string) (entry : run_entry)
    (RUNS : list (string * run_entry)) :
  get_run other (dict_set run_id entry RUNS)
  = if String.eqb other run_id then inr (response_of run_id entry)
    else get_run other RUNS.
Proof.
  unfold get_run. rewrite dict_get_set.
  destruct (String.eqb_spec other run_id) as [->|_]; done.
Qed.

(** X16.  What [execute_graph] stores is what [get_run] gives back:
    the response itself once the run has ended, the running entry
    before; a response carries the id it was stored under and is either
    succeeded with a result and no error or failed with an error and no
    result; the entries of other runs are not touched, and an id that
    was never stored is answered with 404. *)
Theorem stored_run_round_trip (w : world) (fresh_id : string) (req : RunRequest)
    (schedule : list choice) (RUNS : list (string * run_entry)) :
  get_run fresh_id (execute_graph w fresh_id req schedule RUNS).1
  = inr (match (execute_graph w fresh_id req schedule RUNS).2 with
         | Some resp => resp
         | None => {| resp_run_id := fresh_id; resp_status := running;
                      resp_result := None; resp_error := None |}
         end) /\
  (forall resp,
     (execute_graph w fresh_id req schedule RUNS).2 = Some resp ->
     resp_run_id resp = fresh_id /\
     ((resp_status resp = succeeded /\ resp_result resp <> None /\ resp_error resp = None) \/
      (resp_status resp = failed /\ resp_result resp = None /\ resp_error resp <> None))) /\
  (forall other,
     other <> fresh_id ->
     get_run other (execute_graph w fresh_id req schedule RUNS).1 = get_run other RUNS) /\
  (forall other,
     other ∉ dict_keys RUNS -> get_run other RUNS = inl (HTTPException 404 "run not found")).
Proof.
  assert (Hother : forall other e1 e2,
             other <> fresh_id ->
             get_run other (dict_set fresh_id e1 (dict_set fresh_id e2 RUNS))
             = get_run other RUNS).
  { intros other e1 e2 Hne. rewrite !get_run_set.
    by destruct (String.eqb_spec other fresh_id). }
  assert (Hother1 : forall other e1,
             other <> fresh_id ->
             get_run other (dict_set fresh_id e1 RUNS) = get_run other RUNS).
  { intros other e1 Hne. rewrite !get_run_set.
    by destruct (String.eqb_spec other fresh_id). }
  unfold execute_graph.
  destruct (Orchestrator_init (concurrency req)) as [e|sem]; simpl.
  - split; [by rewrite get_run_set, String.eqb_refl|].
    split; [intros resp [= <-]; split; [done|right; done]|].
    split; [by intros other Hne; apply Hother|].
    intros other Hout. unfold get_run. apply dict_get_None in Hout. by rewrite Hout.
  - destruct (st_status (run_graph w sem (graph req) schedule)) as [|result|e]; simpl.
    + split; [by rewrite get_run_set, String.eqb_refl|].
      split; [done|].
      split; [by intros other Hne; apply Hother1|].
      intros other Hout. unfold get_run. apply dict_get_None in Hout. by rewrite Hout.
    + split; [by rewrite get_run_set, String.eqb_refl|].
      split; [intros resp [= <-]; split; [done|left; done]|].
      split; [by intros other Hne; apply Hother|].
      intros other Hout. unfold get_run. apply dict_get_None in Hout. by rewrite Hout.
    + split; [by rewrite get_run_set, String.eqb_refl|].
      split; [intros resp [= <-]; split; [done|right; done]|].
      split; [by intros other Hne; apply Hother|].
      intros other Hout. unfold get_run. apply dict_get_None in Hout. by rewrite Hout.
Qed.

(** X17.  A request with a negative concurrency, or whose graph has a
    cycle, is answered, under every schedule, with the status failed,
    no result, and the error text of the semaphore or, for a
    concurrency that is not negative, of the graph validation. *)
Theorem rejected_request_is_answered_failed (w : world) (fresh_id : string)
    (req : RunRequest) (schedule : list choice) (RUNS : list (string * run_entry)) :
  (concurrency req < 0)%Z \/ cyclic (spec_edges (graph req)) ->
  (execute_graph w fresh_id req schedule RUNS).2
  = Some {| resp_run_id := fresh_id; resp_status := failed; resp_result := None;
            resp_error :=
              Some (if (concurrency req <? 0)%Z
                    then "Semaphore initial value must be >= 0"
                    else "Execution graph must be a DAG") |}.
Proof.
  intros Hbad. unfold execute_graph, Orchestrator_init.
  destruct (Z.ltb_spec (concurrency req) 0) as [Hneg|Hpos]; [done|].
  destruct Hbad as [Hneg|Hcyc]; [lia|].
  unfold run_graph. by rewrite (_build_graph_cyclic _ Hcyc).
Qed.

Lemma rejected_request_is_answered_failed_witness :
  ((concurrency cyclic_request < 0)%Z \/ cyclic (spec_edges (graph cyclic_request))) /\
  (execute_graph quiet_world "run-1" cyclic_request [Main] []).2
  = Some {| resp_run_id := "run-1"; resp_status := failed; resp_result := None;
            resp_error := Some "Execution graph must be a DAG" |}.
Proof.
  assert (H : (concurrency cyclic_request < 0)%Z \/
              cyclic (spec_edges (graph cyclic_request)))
    by (right; exact cyclic_spec_cyclic).
  split; [exact H|].
  exact (rejected_request_is_answered_failed quiet_world "run-1" cyclic_request
           [Main] [] H).
Defined.

(** ** A run in which no node fails *)

Lemma _run_node_not_done (w : world) (node : NodeSpec) (context : dict) (m : string) :
  EDone m ∉ (_run_node w node context).1.
Proof.
  intros Hin. destruct (_run_node_shape w node context) as [Hnil|(k & _ & Hev)].
  - rewrite Hnil in Hin. by apply elem_of_nil in Hin.
  - rewrite Hev in Hin. apply elem_of_cons in Hin as [Hin|Hin]; [discriminate|].
    apply elem_of_app in Hin as [Hin|Hin].
    + apply elem_of_attempt_events in Hin as [(j & _ & Hj)|(j & _ & Hj)]; discriminate.
    + apply list_elem_of_singleton in Hin. discriminate.
Qed.

Lemma dict_keys_set_own {A} (k : string) (v : A) (d : list (string * A)) :
  k ∈ dict_keys (dict_set k v d).
Proof.
  apply (dict_get_Some_keys k v). by rewrite dict_get_set, String.eqb_refl.
Qed.

Lemma dict_keys_set_mono {A} (k k' : string) (v : A) (d : list (string * A)) :
  k' ∈ dict_keys d -> k' ∈ dict_keys (dict_set k v d).
Proof.
  intros Hin. rewrite dict_keys_set. destruct (dict_mem k d); [done|].
  apply elem_of_app. by left.
Qed.

Section Success.
Variables (w : world) (g : DiGraph).
Hypothesis attr_ids :
  forall n node, dict_get n (g_attr g) = Some node -> node_id node = n.
Hypothesis all_return :
  forall n node context,
    dict_get n (g_attr g) = Some node ->
    exists v, (_run_node w node context).2 = inr (node_id node, v).

Lemma success_main (s : state) :
  success_invariant w g s -> success_invariant w g (main_step w g s).
Proof.
  intros (Htasks & Hdone & Hctx & Hkeys). unfold main_step.
  destruct (st_done s) as [|[e|[n res]] ready] eqn:Hd.
  - destruct (st_tasks s) as [|t0 ts0] eqn:Hts.
    2:{ split; [by rewrite Hts|]. split; [by rewrite Hd|]. split; [done|by rewrite Hd]. }
    destruct (st_layers s) as [|layer rest]; [done|].
    destruct (start_layer w g (st_context s) layer) as [e|ts] eqn:Hstart; [done|].
    split; [|done]. simpl. intros t Ht.
    destruct (start_layer_outcome w g _ layer ts t Hstart Ht) as (node & Hattr & Hout).
    destruct (all_return _ node (st_context s) Hattr) as [v Hv].
    rewrite (attr_ids _ _ Hattr) in Hv. exists v. split; [congruence|].
    by exists node, (st_context s).
  - destruct (Hdone (inl e)) as (k & v & Hk & _); [apply list_elem_of_here|discriminate].
  - destruct (Hdone (inr (n, res))) as (k & v & Hk & Hown); [apply list_elem_of_here|].
    injection Hk as -> ->.
    split; [done|]. split; [|split]; simpl.
    + intros out Hout. apply Hdone. by apply list_elem_of_further.
    + intros k' v' Hget. rewrite dict_get_set in Hget.
      destruct (String.eqb_spec k' k) as [->|_]; [|by apply Hctx].
      by injection Hget as <-.
    + intros m Hm. apply elem_of_app in Hm as [Hm|Hm].
      2:{ apply list_elem_of_singleton in Hm. discriminate. }
      destruct (Hkeys m Hm) as [Hin|[v' Hin]].
      * left. by apply dict_keys_set_mono.
      * apply elem_of_cons in Hin as [Heq|Hin]; [|right; by exists v'].
        injection Heq as -> ->. left. apply dict_keys_set_own.
Qed.

Lemma success_task (n : string) (s : state) :
  once_invariant w g s -> success_invariant w g s ->
  success_invariant w g (task_step n s).
Proof.
  intros [Honce _] (Htasks & Hdone & Hctx & Hkeys). unfold task_step.
  destruct (filter _ (st_tasks s)) as [|t others] eqn:Hf; [done|].
  apply filter_head_task in Hf as [Ht Hid].
  destruct (todo t) as [|e rest] eqn:Htodo.
  - destruct (Htasks t Ht) as (v & Hout & Hown). rewrite Hid in Hout, Hown.
    split; [|split; [|split]]; simpl.
    + intros t' Ht'. apply list_elem_of_filter in Ht' as [_ Ht']. by apply Htasks.
    + intros out Hin. apply elem_of_app in Hin as [Hin|Hin]; [by apply Hdone|].
      apply list_elem_of_singleton in Hin as ->. by exists n, v.
    + done.
    + intros m Hm. apply elem_of_app in Hm as [Hm|Hm].
      * destruct (Hkeys m Hm) as [Hin|[v' Hin]]; [by left|right].
        exists v'. apply elem_of_app. by left.
      * apply list_elem_of_singleton in Hm. injection Hm as ->. right.
        exists v. apply elem_of_app. right. rewrite Hout. apply list_elem_of_here.
  - assert (Hnot : forall m, e <> EDone m).
    { intros m ->. destruct (Honce t Ht) as (node & context & _ & Hscript).
      apply (_run_node_not_done w node context m). rewrite <- Hscript, Htodo.
      apply elem_of_app. right. apply list_elem_of_here. }
    assert (Hadv : forall sem,
               success_invariant w g
                 {| st_context := st_context s; st_nid := st_nid s; st_sem := sem;
                    st_tasks := map (update_task n rest) (st_tasks s);
                    st_done := st_done s; st_layers := st_layers s;
                    st_trace := st_trace s ++ [e]; st_status := Running |}).
    { intros sem. split; [|split; [|split]]; simpl; [|done|done|].
      - intros t' Ht'. apply elem_of_map in Ht' as (t0 & -> & Ht0).
        destruct (Htasks t0 Ht0) as (v & Hout & Hown).
        unfold update_task. destruct (decide (task_id t0 = n)) as [Heq|_]; simpl.
        + exists v. by rewrite <- Heq.
        + by exists v.
      - intros m Hm. apply elem_of_app in Hm as [Hm|Hm]; [by apply Hkeys|].
        apply list_elem_of_singleton in Hm. by destruct (Hnot m). }
    destruct e; try apply Hadv. destruct (st_sem s); [done|apply Hadv].
Qed.

Lemma success_run (sem0 : nat) (schedule : list choice) :
  NoDup (concat (layers_of g)) ->
  forall s, run_invariant (layers_of g) sem0 s -> once_invariant w g s ->
            success_invariant w g s ->
            success_invariant w g (fold_left (step w g) schedule s).
Proof.
  intros Hnd. induction schedule as [|c schedule IH]; intros s Hinv Honce Hsucc;
    simpl; [done|].
  apply IH; [by apply inv_step | by apply (once_step w g sem0) |].
  unfold step. destruct (st_status s); [|done..].
  destruct c; [by apply success_main | by apply success_task].
Qed.

End Success.

(** X18.  When no node of the specification can fail, whatever the
    context, a run that returns, under whatever schedule, returns a
    mapping whose keys are exactly the node ids, each with the result
    the node of that id returned. *)
Theorem all_success_result (w : world) (sem : nat) (spec : GraphSpec)
    (schedule : list choice) (result : dict) :
  (forall node context,
     node ∈ nodes spec -> exists v, (_run_node w node context).2 = inr (node_id node, v)) ->
  st_status (run_graph w sem spec schedule) = Finished result ->
  (forall n, n ∈ dict_keys result <-> n ∈ map node_id (nodes spec)) /\
  (forall k v,
     dict_get k result = Some v ->
     exists node context,
       node ∈ nodes spec /\ node_id node = k /\
       (_run_node w node context).2 = inr (k, v)).
Proof.
  intros Hall Hfin. unfold run_graph in Hfin.
  destruct (_build_graph spec) as [err|g] eqn:Hg; [discriminate|].
  destruct (finished_from w g result schedule (initial sem g) eq_refl Hfin)
    as (sched' & Hrun & Htasks & Hdone & Hlayers & _ & Hres).
  pose proof (run_invariant_holds w sem spec g sched' Hg) as Hinv.
  pose proof (once_holds w sem spec g sched' Hg) as Honce.
  pose proof (layers_NoDup spec g Hg) as Hnd.
  destruct (built_layers spec g Hg) as (Hmem & _).
  unfold run_graph in Hinv, Honce. rewrite Hg in Hinv, Honce.
  pose proof (_build_graph_inr spec g Hg) as ->.
  assert (Hsucc : success_invariant w (built spec)
                    (fold_left (step w (built spec)) sched' (initial sem (built spec)))).
  { apply (success_run w (built spec) (built_attr_ids spec)) with (sem0 := sem);
      [|done|by apply inv_initial| |].
    - intros n node context Hattr. apply Hall. by eapply built_attr_In.
    - split; simpl; [|by left]. intros t Ht. by apply elem_of_nil in Ht.
    - split; [|split; [|split]]; simpl.
      + intros t Ht. by apply elem_of_nil in Ht.
      + intros out Ht. by apply elem_of_nil in Ht.
      + done.
      + intros n Hn. by apply elem_of_nil in Hn. }
  destruct Hsucc as (_ & _ & Hctx & Hkeys). rewrite Hres in Hctx, Hkeys.
  assert (Hown : forall k v,
             dict_get k result = Some v ->
             exists node context,
               node ∈ nodes spec /\ node_id node = k /\
               (_run_node w node context).2 = inr (k, v)).
  { intros k v Hget. destruct (Hctx k v Hget) as (node & context & Hattr & Hout).
    exists node, context. split; [by eapply built_attr_In|].
    split; [by eapply built_attr_ids|done]. }
  split; [|exact Hown]. intros n. split.
  - intros Hin. destruct (dict_get n result) as [v|] eqn:Hget.
    + destruct (Hown n v Hget) as (node & _ & Hnode & <- & _).
      apply elem_of_map. by exists node.
    + by apply dict_get_None in Hget.
  - intros Hn.
    assert (Hv : n ∈ concat (layers_of (built spec))) by (apply Hmem; by left).
    apply elem_of_concat in Hv as (L & HL & HnL).
    apply list_elem_of_lookup_1 in HL as [k Hk].
    destruct Hinv as (_ & _ & _ & Hst).
    destruct (Hst Hrun) as (c & Hc & _ & _ & _ & Hdn & Hcur & _).
    assert (Hlen : length (layers_of (built spec)) <= c).
    { rewrite Hlayers in Hc. symmetry in Hc. by apply drop_nil_inv in Hc. }
    pose proof (lookup_lt_Some _ _ _ Hk) as Hlt.
    assert (Hd : EDone n ∈ st_trace (fold_left (step w (built spec)) sched'
                                       (initial sem (built spec)))).
    { destruct (decide (S k < c)) as [Hsk|Hsk].
      - by apply (Hdn k L n).
      - destruct (Hcur k L n) as [Hin|Hin]; [lia|done|done| |done].
        rewrite Htasks in Hin. by apply elem_of_nil in Hin. }
    destruct (Hkeys n Hd) as [Hin|[v Hin]]; [done|].
    rewrite Hdone in Hin. by apply elem_of_nil in Hin.
Qed.

Lemma echo_node_returns (w : world) (id : string) (context : dict) :
  (_run_node w (echo_node id) context).2
  = inr (id, VDict [("echo", VDict []); ("params", VDict [])]).
Proof. reflexivity. Qed.

Lemma all_success_result_witness :
  (forall node context,
     node ∈ nodes two_layer_spec ->
     exists v, (_run_node quiet_world node context).2 = inr (node_id node, v)) /\
  st_status (run_graph quiet_world 1 two_layer_spec two_layer_schedule)
  = Finished [("A", VDict [("echo", VDict []); ("params", VDict [])]);
              ("B", VDict [("echo", VDict []); ("params", VDict [])])] /\
  forall n,
    n ∈ dict_keys [("A", VDict [("echo", VDict []); ("params", VDict [])]);
                   ("B", VDict [("echo", VDict []); ("params", VDict [])])]
    <-> n ∈ map node_id (nodes two_layer_spec).
Proof.
  assert (H1 : forall node context,
             node ∈ nodes two_layer_spec ->
             exists v, (_run_node quiet_world node context).2 = inr (node_id node, v)).
  { intros node context Hin. simpl in Hin.
    apply elem_of_cons in Hin as [->|Hin];
      [eexists; apply echo_node_returns|].
    apply elem_of_cons in Hin as [->|Hin];
      [eexists; apply echo_node_returns|].
    by apply elem_of_nil in Hin. }
  assert (H2 : st_status (run_graph quiet_world 1 two_layer_spec two_layer_schedule)
               = Finished [("A", VDict [("echo", VDict []); ("params", VDict [])]);
                           ("B", VDict [("echo", VDict []); ("params", VDict [])])])
    by (vm_compute; reflexivity).
  split; [exact H1|]. split; [exact H2|].
  exact (proj1 (all_success_result quiet_world 1 two_layer_spec two_layer_schedule
                  _ H1 H2)).
Defined.

(** ** A schedule that brings the run to its end *)

Section Liveness.
Variables (w : world) (g : DiGraph).

Lemma view_task_head (s : state) (st : status) (sem : nat) (L : list (list string))
    (t : task) (ts : list task) (dn : list (exn + string * value)) (ctx : dict) :
  view s = (st, sem, L, t :: ts, dn, ctx) -> task_id t ∉ map task_id ts ->
  filter (fun t' => task_id t' = task_id t) (st_tasks s)
  = t :: filter (fun t' => task_id t' = task_id t) ts /\
  filter (fun t' => task_id t' <> task_id t) (st_tasks s) = ts /\
  forall rest, map (update_task (task_id t) rest) (st_tasks s)
               = {| task_id := task_id t; todo := rest; outcome := outcome t |} :: ts.
Proof.
  intros Hv Hfresh. unfold view in Hv. injection Hv as _ _ _ -> _ _.
  destruct (flying_count_fresh (task_id t) [] ts Hfresh) as [_ Hfilter].
  split; [by rewrite filter_cons, decide_True|].
  split.
  - rewrite filter_cons, decide_False by (intros H; by apply H). done.
  - intros rest. simpl. unfold update_task at 1. rewrite decide_True by done.
    f_equal. by destruct (flying_count_fresh (task_id t) rest ts Hfresh).
Qed.

Lemma step_attempt (s : state) (sem : nat) (L : list (list string)) (n : string)
    (e : event) (rest : list event) (out : exn + string * value) (ts : list task)
    (dn : list (exn + string * value)) (ctx : dict) :
  view s = (Running, sem, L, {| task_id := n; todo := e :: rest; outcome := out |} :: ts,
            dn, ctx) ->
  n ∉ map task_id ts -> attempt_event n e ->
  view (step w g s (Task n))
  = (Running, sem, L, {| task_id := n; todo := rest; outcome := out |} :: ts, dn, ctx).
Proof.
  intros Hv Hfresh He.
  destruct (view_task_head s _ _ _ _ _ _ _ Hv Hfresh) as (Hf & _ & Hupd). simpl in *.
  unfold view in Hv. injection Hv as Hst Hsem HL Hts Hdn Hctx.
  unfold step, task_step. rewrite Hst, Hf. simpl.
  destruct He as [[a ->]|[d ->]]; unfold view; simpl; by rewrite Hupd, Hsem, HL, Hdn, Hctx.
Qed.

Lemma run_body (body : list event) :
  forall (s : state) (sem : nat) (L : list (list string)) (n : string)
         (tail : list event) (out : exn + string * value) (ts : list task)
         (dn : list (exn + string * value)) (ctx : dict),
    view s = (Running, sem, L,
              {| task_id := n; todo := body ++ tail; outcome := out |} :: ts, dn, ctx) ->
    n ∉ map task_id ts -> Forall (attempt_event n) body ->
    exists schedule,
      view (fold_left (step w g) schedule s)
      = (Running, sem, L, {| task_id := n; todo := tail; outcome := out |} :: ts, dn, ctx).
Proof.
  induction body as [|e body IH]; intros s sem L n tail out ts dn ctx Hv Hfresh Hall.
  - by exists [].
  - apply Forall_cons in Hall as [He Hall].
    pose proof (step_attempt s sem L n e (body ++ tail) out ts dn ctx Hv Hfresh He) as Hv1.
    destruct (IH _ _ _ _ _ _ _ _ _ Hv1 Hfresh Hall) as [schedule Hv2].
    by exists (Task n :: schedule).
Qed.

Lemma run_one_task (s : state) (k : nat) (L : list (list string)) (t : task)
    (ts : list task) (dn : list (exn + string * value)) (ctx : dict) :
  view s = (Running, S k, L, t :: ts, dn, ctx) ->
  task_id t ∉ map task_id ts -> whole_script (task_id t) (todo t) ->
  exists schedule,
    view (fold_left (step w g) schedule s)
    = (Running, S k, L, ts, dn ++ [outcome t], ctx).
Proof.
  intros Hv Hfresh Hscript. destruct t as [n td out]. simpl in *.
  assert (Hend : forall s0,
             view s0 = (Running, S k, L,
                        {| task_id := n; todo := []; outcome := out |} :: ts, dn, ctx) ->
             view (step w g s0 (Task n)) = (Running, S k, L, ts, dn ++ [out], ctx)).
  { intros s0 Hv0.
    destruct (view_task_head s0 _ _ _ _ _ _ _ Hv0 Hfresh) as (Hf & Hothers & _).
    simpl in *. unfold view in Hv0. injection Hv0 as Hst Hsem HL Hts Hdn Hctx.
    unfold step, task_step. rewrite Hst, Hf. simpl. unfold view. simpl.
    by rewrite Hothers, Hsem, HL, Hdn, Hctx. }
  destruct Hscript as [->|(body & Hbody & ->)].
  - exists [Task n]. simpl. by apply Hend.
  - set (s1 := step w g s (Task n)).
    assert (Hv1 : view s1
                  = (Running, k, L,
                     {| task_id := n; todo := body ++ [ERelease n]; outcome := out |} :: ts,
                     dn, ctx)).
    { destruct (view_task_head s _ _ _ _ _ _ _ Hv Hfresh) as (Hf & _ & Hupd).
      simpl in *. unfold view in Hv. injection Hv as Hst Hsem HL Hts Hdn Hctx.
      unfold s1, step, task_step. rewrite Hst, Hf. simpl. rewrite Hsem.
      unfold view. simpl. by rewrite Hupd, HL, Hdn, Hctx. }
    destruct (run_body body s1 _ _ _ _ _ _ _ _ Hv1 Hfresh Hbody) as [sched2 Hv2].
    set (s2 := fold_left (step w g) sched2 s1) in *.
    assert (Hv3 : view (step w g s2 (Task n))
                  = (Running, S k, L,
                     {| task_id := n; todo := []; outcome := out |} :: ts, dn, ctx)).
    { destruct (view_task_head s2 _ _ _ _ _ _ _ Hv2 Hfresh) as (Hf & _ & Hupd).
      simpl in *. unfold view in Hv2. injection Hv2 as Hst Hsem HL Hts Hdn Hctx.
      unfold step, task_step. rewrite Hst, Hf. simpl.
      unfold view. simpl. by rewrite Hupd, Hsem, HL, Hdn, Hctx. }
    exists (Task n :: sched2 ++ [Task n; Task n]).
    simpl. fold s1. rewrite fold_left_app. fold s2. simpl. by apply Hend.
Qed.

Lemma run_tasks (ts : list task) :
  forall (s : state) (k : nat) (L : list (list string))
         (dn : list (exn + string * value)) (ctx : dict),
    view s = (Running, S k, L, ts, dn, ctx) ->
    NoDup (map task_id ts) ->
    (forall t, t ∈ ts -> whole_script (task_id t) (todo t)) ->
    exists schedule,
      view (fold_left (step w g) schedule s)
      = (Running, S k, L, [], dn ++ map outcome ts, ctx).
Proof.
  induction ts as [|t ts IH]; intros s k L dn ctx Hv Hnd Hscripts.
  - exists []. simpl. by rewrite app_nil_r.
  - simpl in Hnd. apply NoDup_cons in Hnd as [Hfresh Hnd].
    destruct (run_one_task s k L t ts dn ctx Hv Hfresh) as [sched1 Hv1].
    { apply Hscripts, list_elem_of_here. }
    destruct (IH _ _ _ _ _ Hv1 Hnd) as [sched2 Hv2].
    { intros t' Ht'. by apply Hscripts, list_elem_of_further. }
    exists (sched1 ++ sched2). rewrite fold_left_app, Hv2. simpl.
    by rewrite <- app_assoc.
Qed.

Lemma consume (kvs : list (string * value)) :
  forall (s : state) (sem : nat) (L : list (list string)) (ctx : dict),
    view s = (Running, sem, L, [], map inr kvs, ctx) ->
    exists schedule,
      view (fold_left (step w g) schedule s)
      = (Running, sem, L, [], [],
         fold_left (fun c kv => dict_set kv.1 kv.2 c) kvs ctx).
Proof.
  induction kvs as [|[n res] kvs IH]; intros s sem L ctx Hv.
  - by exists [].
  - assert (Hv1 : view (step w g s Main)
                  = (Running, sem, L, [], map inr kvs, dict_set n res ctx)).
    { unfold view in Hv. injection Hv as Hst Hsem HL Hts Hdn Hctx.
      unfold step, main_step. rewrite Hst, Hdn. simpl. unfold view. simpl.
      by rewrite Hsem, HL, Hts, Hctx. }
    destruct (IH _ _ _ _ Hv1) as [schedule Hv2].
    by exists (Main :: schedule).
Qed.

Lemma fold_set_keys (kvs : list (string * value)) :
  forall (ctx : dict) (n : string),
    n ∈ dict_keys (fold_left (fun c kv => dict_set kv.1 kv.2 c) kvs ctx)
    <-> n ∈ dict_keys ctx \/ n ∈ map fst kvs.
Proof.
  induction kvs as [|[k v] kvs IH]; intros ctx n; simpl.
  - split; [by left|]. intros [H|H]; [done|by apply elem_of_nil in H].
  - rewrite IH, elem_of_cons. split.
    + intros [H|H]; [|by right; right].
      apply dict_keys_set_elem in H as [->|H]; [right; by left|by left].
    + intros [H|[->|H]]; [left; by apply dict_keys_set_mono
                         |left; apply dict_keys_set_own|by right].
Qed.

Lemma outcomes_returned (ts : list task) :
  (forall t, t ∈ ts -> exists v, outcome t = inr (task_id t, v)) ->
  exists kvs, map outcome ts = map inr kvs /\ map fst kvs = map task_id ts.
Proof.
  induction ts as [|t ts IH]; intros H.
  - by exists [].
  - destruct (H t) as [v Hv]; [apply list_elem_of_here|].
    destruct IH as (kvs & Hout & Hids).
    { intros t' Ht'. by apply H, list_elem_of_further. }
    exists ((task_id t, v) :: kvs). simpl. by rewrite Hv, Hout, Hids.
Qed.

Lemma start_layer_total (context : dict) (layer : list string) :
  (forall n, n ∈ layer -> exists node, dict_get n (g_attr g) = Some node) ->
  exists ts, start_layer w g context layer = inr ts.
Proof.
  induction layer as [|n layer IH]; intros H; simpl; [by exists []|].
  destruct (H n) as [node ->]; [apply list_elem_of_here|].
  destruct IH as [ts ->]; [intros m Hm; by apply H, list_elem_of_further|].
  destruct (_run_node w node context). eauto.
Qed.

Hypothesis attr_ids :
  forall n node, dict_get n (g_attr g) = Some node -> node_id node = n.
Hypothesis all_return :
  forall n node context,
    dict_get n (g_attr g) = Some node ->
    exists v, (_run_node w node context).2 = inr (node_id node, v).

Lemma run_layer (s : state) (k : nat) (layer : list string) (rest : list (list string))
    (ctx : dict) :
  view s = (Running, S k, layer :: rest, [], [], ctx) ->
  NoDup layer ->
  (forall n, n ∈ layer -> exists node, dict_get n (g_attr g) = Some node) ->
  exists schedule ctx',
    view (fold_left (step w g) schedule s) = (Running, S k, rest, [], [], ctx') /\
    forall n, n ∈ dict_keys ctx' <-> n ∈ dict_keys ctx \/ n ∈ layer.
Proof.
  intros Hv Hnd Hattr.
  destruct (start_layer_total ctx layer Hattr) as [ts Hstart].
  destruct (start_layer_spec _ _ _ _ _ Hstart) as [Hids Htodo].
  assert (Hv1 : view (step w g s Main) = (Running, S k, rest, ts, [], ctx)).
  { unfold view in Hv. injection Hv as Hst Hsem HL Hts Hdn Hctx.
    unfold step, main_step. rewrite Hst, Hdn, Hts, HL, Hctx, Hstart.
    unfold view. simpl. by rewrite Hsem. }
  destruct (run_tasks ts _ _ _ _ _ Hv1) as [sched2 Hv2].
  { by rewrite Hids. }
  { intros t Ht. destruct (Htodo t Ht) as (node & Hnode & ->).
    rewrite <- (attr_ids _ _ Hnode).
    destruct (_run_node_shape w node ctx) as [->|(j & _ & ->)]; [by left|right].
    eexists. split; [apply attempt_events_Forall|done]. }
  destruct (outcomes_returned ts) as (kvs & Hout & Hkeys).
  { intros t Ht. destruct (start_layer_outcome _ _ _ _ _ _ Hstart Ht)
      as (node & Hnode & ->).
    destruct (all_return _ node ctx Hnode) as [v Hret].
    rewrite (attr_ids _ _ Hnode) in Hret. by exists v. }
  simpl in Hv2. rewrite Hout in Hv2.
  destruct (consume kvs _ _ _ _ Hv2) as [sched3 Hv3].
  exists (Main :: sched2 ++ sched3), (fold_left (fun c kv => dict_set kv.1 kv.2 c) kvs ctx).
  split; [simpl; by rewrite fold_left_app|].
  intros n. by rewrite fold_set_keys, Hkeys, Hids.
Qed.

Lemma run_layers (layers : list (list string)) :
  forall (s : state) (k : nat) (ctx : dict),
    view s = (Running, S k, layers, [], [], ctx) ->
    (forall L, L ∈ layers -> NoDup L) ->
    (forall n, n ∈ concat layers -> exists node, dict_get n (g_attr g) = Some node) ->
    exists schedule ctx',
      view (fold_left (step w g) schedule s) = (Running, S k, [], [], [], ctx') /\
      forall n, n ∈ dict_keys ctx' <-> n ∈ dict_keys ctx \/ n ∈ concat layers.
Proof.
  induction layers as [|layer layers IH]; intros s k ctx Hv Hnd Hattr.
  - exists [], ctx. split; [done|]. intros n. simpl. split; [by left|].
    intros [H|H]; [done|by apply elem_of_nil in H].
  - destruct (run_layer s k layer layers ctx Hv) as (sched1 & ctx1 & Hv1 & Hk1).
    { apply Hnd, list_elem_of_here. }
    { intros n Hn. apply Hattr. simpl. apply elem_of_app. by left. }
    destruct (IH _ _ _ Hv1) as (sched2 & ctx2 & Hv2 & Hk2).
    { intros L HL. by apply Hnd, list_elem_of_further. }
    { intros n Hn. apply Hattr. simpl. apply elem_of_app. by right. }
    exists (sched1 ++ sched2), ctx2. split; [by rewrite fold_left_app|].
    intros n. rewrite Hk2, Hk1. simpl. rewrite elem_of_app. tauto.
Qed.

End Liveness.

(** X19.  A specification without a cycle, all of whose edges join
    declared nodes and none of whose nodes can fail, is run to its end
    by some schedule as soon as the orchestrator has one slot: the run
    returns a mapping whose keys are exactly the node ids. *)
Theorem all_success_run_returns (w : world) (sem : nat) (spec : GraphSpec) :
  ~ cyclic (spec_edges spec) ->
  (forall e, e ∈ edges spec ->
     source e ∈ map node_id (nodes spec) /\ target e ∈ map node_id (nodes spec)) ->
  (forall node context,
     node ∈ nodes spec -> exists v, (_run_node w node context).2 = inr (node_id node, v)) ->
  1 <= sem ->
  exists schedule result,
    st_status (run_graph w sem spec schedule) = Finished result /\
    forall n, n ∈ dict_keys result <-> n ∈ map node_id (nodes spec).
Proof.
  intros Hacyc Hedges Hall Hsem.
  pose proof (_build_graph_acyclic spec Hacyc) as Hg.
  destruct (built_layers spec _ Hg) as (Hmem & _).
  pose proof (layers_NoDup spec _ Hg) as Hnd.
  destruct sem as [|k]; [lia|].
  destruct (run_layers w (built spec) (built_attr_ids spec)) with
      (layers := layers_of (built spec)) (s := initial (S k) (built spec))
      (k := k) (ctx := @nil (string * value))
    as (sched & ctx' & Hv & Hkeys).
  - intros n node context Hattr. apply Hall. by eapply built_attr_In.
  - done.
  - intros L HL. apply list_elem_of_lookup_1 in HL as [i Hi].
    by eapply concat_lookup_NoDup.
  - intros n Hn. apply Hmem in Hn.
    assert (Hid : n ∈ map node_id (nodes spec)).
    { destruct Hn as [Hn|(e & He & [->| ->])]; [done|by apply Hedges..]. }
    destruct (dict_get n (g_attr (built spec))) as [node|] eqn:Hget; [by exists node|].
    unfold built in Hget. rewrite add_edge_attr in Hget.
    apply add_node_attr_None in Hget as [_ Hout]. done.
  - exists (sched ++ [Main]), ctx'. unfold run_graph. rewrite Hg, fold_left_app.
    set (s' := fold_left (step w (built spec)) sched (initial (S k) (built spec))) in *.
    unfold view in Hv. injection Hv as Hst Hsem' HL Hts Hdn Hctx.
    change (fold_left (step w (built spec)) [Main] s') with (step w (built spec) s' Main).
    unfold step, main_step. rewrite Hst, Hdn, Hts, HL. simpl.
    split; [by rewrite Hctx|].
    intros n. rewrite Hkeys. simpl. rewrite Hmem. split.
    + intros [H|[H|(e & He & [->| ->])]];
        [by apply elem_of_nil in H|done|by apply Hedges..].
    + intros H. right. by left.
Qed.

Lemma two_layer_spec_acyclic : ~ cyclic (spec_edges two_layer_spec).
Proof.
  intros H. apply _build_graph_cyclic in H. rewrite two_layer_spec_built in H.
  discriminate.
Qed.

Lemma all_success_run_returns_witness :
  ~ cyclic (spec_edges two_layer_spec) /\
  (forall e, e ∈ edges two_layer_spec ->
     source e ∈ map node_id (nodes two_layer_spec) /\
     target e ∈ map node_id (nodes two_layer_spec)) /\
  (forall node context,
     node ∈ nodes two_layer_spec ->
     exists v, (_run_node quiet_world node context).2 = inr (node_id node, v)) /\
  1 <= 1 /\
  exists schedule result,
    st_status (run_graph quiet_world 1 two_layer_spec schedule) = Finished result /\
    forall n, n ∈ dict_keys result <-> n ∈ map node_id (nodes two_layer_spec).
Proof.
  assert (H1 : forall e, e ∈ edges two_layer_spec ->
                 source e ∈ map node_id (nodes two_layer_spec) /\
                 target e ∈ map node_id (nodes two_layer_spec)).
  { intros e He. simpl in He. apply list_elem_of_singleton in He as ->.
    split; in_list. }
  assert (H2 : forall node context,
             node ∈ nodes two_layer_spec ->
             exists v, (_run_node quiet_world node context).2 = inr (node_id node, v)).
  { intros node context Hin. simpl in Hin.
    apply elem_of_cons in Hin as [->|Hin];
      [eexists; apply echo_node_returns|].
    apply elem_of_cons in Hin as [->|Hin];
      [eexists; apply echo_node_returns|].
    by apply elem_of_nil in Hin. }
  assert (H3 : 1 <= 1) by lia.
  split; [exact two_layer_spec_acyclic|]. split; [exact H1|]. split; [exact H2|].
  split; [exact H3|].
  exact (all_success_run_returns quiet_world 1 two_layer_spec
           two_layer_spec_acyclic H1 H2 H3).
Defined.

(** ** What a layer sees *)

Section Visible.
Variables (w : world) (g : DiGraph).
Hypothesis attr_ids :
  forall n node, dict_get n (g_attr g) = Some node -> node_id node = n.

Lemma done_main (s : state) :
  done_invariant s -> done_invariant (main_step w g s).
Proof.
  intros (Hctx & Hnid & Hdone & Htasks). unfold main_step.
  destruct (st_done s) as [|[e|[n res]] ready] eqn:Hd.
  - destruct (st_tasks s) as [|t0 ts0] eqn:Hts.
    2:{ split; [done|]. split; [done|]. split; [by rewrite Hd|by rewrite Hts]. }
    destruct (st_layers s) as [|layer rest]; [done|].
    destruct (start_layer w g (st_context s) layer) as [e|ts] eqn:Hstart; [done|].
    split; [done|]. split; [done|]. split; [done|]. simpl.
    intros t k v Ht Hout.
    destruct (start_layer_outcome w g _ layer ts t Hstart Ht) as (node & Hattr & Hout').
    rewrite Hout' in Hout. apply _run_node_id in Hout as ->. by apply attr_ids.
  - assert (Hready : forall k v, inr (k, v) ∈ ready -> EDone k ∈ st_trace s).
    { intros k v Hin. apply (Hdone k v). by apply list_elem_of_further. }
    destruct (st_nid s) as [n|] eqn:Hn; [|done].
    split; [|split; [|split]]; simpl; [| | |done].
    + intros k Hk. apply elem_of_app. left.
      apply dict_keys_set_elem in Hk as [->|Hk]; [by apply Hnid|by apply Hctx].
    + intros k [= <-]. apply elem_of_app. left. by apply Hnid.
    + intros k v Hin. apply elem_of_app. left. by eapply Hready.
  - assert (Hn : EDone n ∈ st_trace s) by (apply (Hdone n res), list_elem_of_here).
    split; [|split; [|split]]; simpl; [| | |done].
    + intros k Hk. apply elem_of_app. left.
      apply dict_keys_set_elem in Hk as [->|Hk]; [done|by apply Hctx].
    + intros k [= <-]. apply elem_of_app. by left.
    + intros k v Hin. apply elem_of_app. left. apply (Hdone k v).
      by apply list_elem_of_further.
Qed.

Lemma done_task (n : string) (s : state) :
  done_invariant s -> done_invariant (task_step n s).
Proof.
  intros (Hctx & Hnid & Hdone & Htasks). unfold task_step.
  destruct (filter _ (st_tasks s)) as [|t others] eqn:Hf; [done|].
  apply filter_head_task in Hf as [Ht Hid].
  assert (Hadv : forall sem e rest,
             done_invariant
               {| st_context := st_context s; st_nid := st_nid s; st_sem := sem;
                  st_tasks := map (update_task n rest) (st_tasks s);
                  st_done := st_done s; st_layers := st_layers s;
                  st_trace := st_trace s ++ [e]; st_status := Running |}).
  { intros sem e rest. split; [|split; [|split]]; simpl.
    - intros k Hk. apply elem_of_app. left. by apply Hctx.
    - intros k Hk. apply elem_of_app. left. by apply Hnid.
    - intros k v Hk. apply elem_of_app. left. by eapply Hdone.
    - intros t' k v Hin Hout. apply elem_of_map in Hin as (t0 & -> & Ht0).
      unfold update_task in *. destruct (decide (task_id t0 = n)) as [Heq|_]; simpl in *.
      + rewrite <- Heq. by eapply Htasks.
      + by eapply Htasks. }
  destruct (todo t) as [|e rest].
  - split; [|split; [|split]]; simpl.
    + intros k Hk. apply elem_of_app. left. by apply Hctx.
    + intros k Hk. apply elem_of_app. left. by apply Hnid.
    + intros k v Hk. apply elem_of_app. apply elem_of_app in Hk as [Hk|Hk].
      * left. by eapply Hdone.
      * right. apply list_elem_of_singleton in Hk.
        symmetry in Hk. apply (Htasks t k v Ht) in Hk as ->. rewrite Hid.
        apply list_elem_of_here.
    + intros t' k v Hin. apply list_elem_of_filter in Hin as [_ Hin]. by apply Htasks.
  - destruct e; try apply Hadv. destruct (st_sem s); [done|apply Hadv].
Qed.

Lemma done_run (schedule : list choice) :
  forall s, done_invariant s -> done_invariant (fold_left (step w g) schedule s).
Proof.
  induction schedule as [|c schedule IH]; intros s Hinv; simpl; [done|].
  apply IH. unfold step. destruct (st_status s); [|done..].
  destruct c; [by apply done_main | by apply done_task].
Qed.

End Visible.

Lemma done_holds (w : world) (sem : nat) (spec : GraphSpec) (schedule : list choice) :
  done_invariant (run_graph w sem spec schedule).
Proof.
  assert (Hnil : forall st layers,
             done_invariant
               {| st_context := []; st_nid := None; st_sem := sem; st_tasks := [];
                  st_done := []; st_layers := layers; st_trace := [];
                  st_status := st |}).
  { intros st layers. split; [|split; [|split]]; simpl; try done.
    - intros k Hk. by apply elem_of_nil in Hk.
    - intros k v Hk. by apply elem_of_nil in Hk.
    - intros t k v Hk. by apply elem_of_nil in Hk. }
  unfold run_graph. destruct (_build_graph spec) as [e|g] eqn:Hg; [apply Hnil|].
  apply _build_graph_inr in Hg as ->.
  apply done_run; [apply built_attr_ids | apply Hnil].
Qed.

Lemma success_holds (w : world) (sem : nat) (spec : GraphSpec) (g : DiGraph)
    (schedule : list choice) :
  _build_graph spec = inr g ->
  (forall node context,
     node ∈ nodes spec -> exists v, (_run_node w node context).2 = inr (node_id node, v)) ->
  success_invariant w g (run_graph w sem spec schedule).
Proof.
  intros Hg Hall. pose proof (layers_NoDup spec g Hg) as Hnd.
  unfold run_graph. rewrite Hg. apply _build_graph_inr in Hg as ->.
  apply (success_run w (built spec) (built_attr_ids spec)) with (sem0 := sem);
    [|done|by apply inv_initial| |].
  - intros n node context Hattr. apply Hall. by eapply built_attr_In.
  - split; simpl; [|by left]. intros t Ht. by apply elem_of_nil in Ht.
  - split; [|split; [|split]]; simpl.
    + intros t Ht. by apply elem_of_nil in Ht.
    + intros out Ht. by apply elem_of_nil in Ht.
    + done.
    + intros n Hn. by apply elem_of_nil in Hn.
Qed.

(** X20.  While a run goes on, under every schedule, a node of a layer
    that has not been started has no entry in the context; so the nodes
    of a layer, which resolve their inputs when the layer is started,
    get the missing-node text for every reference to a node of their
    own layer or of a later one. *)
Theorem unstarted_layers_have_no_entry (w : world) (sem : nat) (spec : GraphSpec)
    (schedule : list choice) (L : list string) (n : string) :
  st_status (run_graph w sem spec schedule) = Running ->
  L ∈ st_layers (run_graph w sem spec schedule) -> n ∈ L ->
  dict_get n (st_context (run_graph w sem spec schedule)) = None /\
  forall key,
    is_ref_name n = true -> is_ref_name key = true ->
    replace_refs (st_context (run_graph w sem spec schedule)) (placeholder n key)
    = "<missing:" +:+ n +:+ ">".
Proof.
  intros Hrun HL Hn.
  assert (Hnone : dict_get n (st_context (run_graph w sem spec schedule)) = None).
  { destruct (dict_get n _) as [v|] eqn:Hget; [exfalso|done].
    apply dict_get_Some_keys in Hget.
    destruct (done_holds w sem spec schedule) as (Hctx & _).
    apply Hctx in Hget.
    destruct (_build_graph spec) as [err|g] eqn:Hg.
    { unfold run_graph in Hget. rewrite Hg in Hget. by apply elem_of_nil in Hget. }
    pose proof (layers_NoDup spec g Hg) as Hnd.
    destruct (run_invariant_holds w sem spec g schedule Hg) as (_ & _ & _ & Hst).
    destruct (Hst Hrun) as (c & Hc & _ & _ & Hseen & _).
    destruct (Hseen (EDone n) n Hget eq_refl) as (k & Lk & Hk & HLk & HnLk).
    rewrite Hc in HL. apply list_elem_of_lookup_1 in HL as [i Hi].
    rewrite lookup_drop in Hi.
    pose proof (concat_lookup_unique _ Hnd k (c + i) Lk L n HLk Hi HnLk Hn). lia. }
  split; [done|]. intros key Hname Hkey.
  rewrite replace_refs_placeholder by done. unfold _rep. by rewrite Hnone.
Qed.

(** X21.  In a run in which no node can fail, when a layer is about to
    be started (no task pending, no future waiting), the context its
    nodes resolve their inputs against holds, for every edge into the
    layer, the result the source node returned. *)
Theorem dependencies_are_in_the_context (w : world) (sem : nat) (spec : GraphSpec)
    (schedule : list choice) (layer : list string) (rest : list (list string))
    (e : EdgeSpec) :
  (forall node context,
     node ∈ nodes spec -> exists v, (_run_node w node context).2 = inr (node_id node, v)) ->
  st_status (run_graph w sem spec schedule) = Running ->
  st_tasks (run_graph w sem spec schedule) = [] ->
  st_done (run_graph w sem spec schedule) = [] ->
  st_layers (run_graph w sem spec schedule) = layer :: rest ->
  e ∈ edges spec -> target e ∈ layer ->
  exists node context v,
    node ∈ nodes spec /\ node_id node = source e /\
    (_run_node w node context).2 = inr (source e, v) /\
    dict_get (source e) (st_context (run_graph w sem spec schedule)) = Some v.
Proof.
  intros Hall Hrun Htasks Hdone Hlayers He Ht.
  destruct (_build_graph spec) as [err|g] eqn:Hg.
  { unfold run_graph in Hrun. by rewrite Hg in Hrun. }
  pose proof (layers_NoDup spec g Hg) as Hnd.
  destruct (built_layers spec g Hg) as (_ & _ & _ & Hedge).
  destruct (Hedge e He) as (i & j & Li & Lj & Hij & Hi & Hj & Hu & Hv).
  destruct (run_invariant_holds w sem spec g schedule Hg) as (_ & _ & _ & Hst).
  destruct (Hst Hrun) as (c & Hc & _ & _ & _ & Hdn & Hcur & _).
  assert (Hlook : layers_of g !! c = Some layer).
  { assert (H0 : drop c (layers_of g) !! 0 = Some layer)
      by (rewrite <- Hc, Hlayers; reflexivity).
    by rewrite lookup_drop, Nat.add_0_r in H0. }
  assert (j = c) as -> by exact (concat_lookup_unique _ Hnd j c Lj layer _ Hj Hlook Hv Ht).
  assert (Hd : EDone (source e) ∈ st_trace (run_graph w sem spec schedule)).
  { destruct (decide (S i < c)) as [Hsi|Hsi].
    - by apply (Hdn i Li).
    - destruct (Hcur i Li (source e)) as [Hin|Hin]; [lia|done|done| |done].
      rewrite Htasks in Hin. by apply elem_of_nil in Hin. }
  destruct (success_holds w sem spec g schedule Hg Hall) as (_ & _ & Hctx & Hkeys).
  destruct (Hkeys _ Hd) as [Hin|[v Hin]].
  2:{ rewrite Hdone in Hin. by apply elem_of_nil in Hin. }
  destruct (dict_get (source e) (st_context (run_graph w sem spec schedule)))
    as [v|] eqn:Hget.
  2:{ by apply dict_get_None in Hget. }
  destruct (Hctx _ v Hget) as (node & context & Hattr & Hout).
  apply _build_graph_inr in Hg as ->.
  exists node, context, v. split; [by eapply built_attr_In|].
  split; [by eapply built_attr_ids|done].
Qed.

Lemma first_layer_state :
  st_status (run_graph quiet_world 1 two_layer_spec first_layer_schedule) = Running /\
  st_tasks (run_graph quiet_world 1 two_layer_spec first_layer_schedule) = [] /\
  st_done (run_graph quiet_world 1 two_layer_spec first_layer_schedule) = [] /\
  st_layers (run_graph quiet_world 1 two_layer_spec first_layer_schedule) = [["B"]] /\
  st_context (run_graph quiet_world 1 two_layer_spec first_layer_schedule)
  = [("A", VDict [("echo", VDict []); ("params", VDict [])])].
Proof. repeat split; vm_compute; reflexivity. Qed.

Lemma unstarted_layers_have_no_entry_witness :
  st_status (run_graph quiet_world 1 two_layer_spec first_layer_schedule) = Running /\
  ["B"] ∈ st_layers (run_graph quiet_world 1 two_layer_spec first_layer_schedule) /\
  "B" ∈ ["B"] /\
  dict_get "B" (st_context (run_graph quiet_world 1 two_layer_spec first_layer_schedule))
  = None.
Proof.
  destruct first_layer_state as (H1 & _ & _ & H4 & _).
  assert (H2 : ["B"] ∈ st_layers (run_graph quiet_world 1 two_layer_spec
                                    first_layer_schedule))
    by (rewrite H4; apply list_elem_of_here).
  assert (H3 : "B" ∈ ["B"]) by apply list_elem_of_here.
  split; [exact H1|]. split; [exact H2|]. split; [exact H3|].
  exact (proj1 (unstarted_layers_have_no_entry quiet_world 1 two_layer_spec
                  first_layer_schedule ["B"] "B" H1 H2 H3)).
Defined.

Lemma dependencies_are_in_the_context_witness :
  (forall node context,
     node ∈ nodes two_layer_spec ->
     exists v, (_run_node quiet_world node context).2 = inr (node_id node, v)) /\
  st_layers (run_graph quiet_world 1 two_layer_spec first_layer_schedule) = [["B"]] /\
  edge "A" "B" ∈ edges two_layer_spec /\
  target (edge "A" "B") ∈ ["B"] /\
  exists node context v,
    node ∈ nodes two_layer_spec /\ node_id node = source (edge "A" "B") /\
    (_run_node quiet_world node context).2 = inr (source (edge "A" "B"), v) /\
    dict_get (source (edge "A" "B"))
      (st_context (run_graph quiet_world 1 two_layer_spec first_layer_schedule))
    = Some v.
Proof.
  destruct first_layer_state as (H1 & H2 & H3 & H4 & _).
  assert (H0 : forall node context,
             node ∈ nodes two_layer_spec ->
             exists v, (_run_node quiet_world node context).2 = inr (node_id node, v)).
  { intros node context Hin. simpl in Hin.
    apply elem_of_cons in Hin as [->|Hin];
      [eexists; apply echo_node_returns|].
    apply elem_of_cons in Hin as [->|Hin];
      [eexists; apply echo_node_returns|].
    by apply elem_of_nil in Hin. }
  assert (H5 : edge "A" "B" ∈ edges two_layer_spec) by in_list.
  assert (H6 : target (edge "A" "B") ∈ ["B"]) by apply list_elem_of_here.
  split; [exact H0|]. split; [exact H4|]. split; [exact H5|]. split; [exact H6|].
  exact (dependencies_are_in_the_context quiet_world 1 two_layer_spec
           first_layer_schedule ["B"] [] (edge "A" "B") H0 H1 H2 H3 H4 H5 H6).
Defined.
